(** * PlacaInador: plate-text validation, scoring and result selection

    A shallow embedding of the plate validator [validateMexicanPlate], of the
    per-region ranking in [detectPlateWithOCR] and of the final selection in
    the request handler, as written in
    [plate-detector/server/api/analyze-plate-enhanced.post.js]
    (the same text is repeated in [test-script.js] and in the WebSocket
    variant of the endpoint), together with the shorter validator of the
    standalone test script.  Further parts: vehicle detection and the
    crop region of the same endpoint, the response of the handler, the
    processing logger, the comparison of plates in the test scripts, the
    bounding rectangle of the simple endpoint, the image list endpoint and
    the pages of the gallery.

    Modelling choices.
    - A JavaScript string is a list of code units; code units are [ascii]
      (values 0..255).  Everything outside [A-Z0-9-] and white space is
      deleted by the first [replace], so the code never looks at such a
      character again.
    - A regular expression of the source is a sequence of character classes
      with repetition bounds; matching is greedy with backtracking, as in
      the engine: [matchPat] lists every way to match, best first.
    - [Array.prototype.sort] is the stable insertion sort [sortBy]: an
      element goes in front of the first element of the sorted prefix that
      the comparison function puts it before (a negative result).  This
      is the array every sort returns when the comparison function orders
      the elements consistently, and the array the engine returns for two
      elements.  The comparison function of [detectPlateWithOCR] is not
      consistent on results it cannot separate; the order the engine
      gives to three or more of those is its own, and the statements
      about such lists use only that the result is a permutation.
    - Numbers are the rationals they denote ([Q]).  The comparison
      function of [detectPlateWithOCR] is evaluated on doubles, operation
      by operation: [binary64] rounds to the nearest double, and the
      near-tie test subtracts the doubles nearest to the two quotients
      [confidence / 100] and compares with the double nearest to 0.1
      (60 and 50 percent are in a near-tie: the difference of the doubles
      is below the double of 0.1).  Not-a-number and the infinities are
      left out.  The crop region, the percentage of [progress] and the
      bounding rectangle are computed exactly; the source rounds the
      double nearest to the product or quotient first.
    - Readings of the clock and outcomes of the file system are arguments
      of the functions that use them. *)

From Stdlib Require Import Ascii String DecimalString.
From Stdlib Require Import ZArith QArith Qabs Qround Qpower Bool Arith Lia Lqa.
From Stdlib Require Import List Permutation Sorted.
From Stdlib Require PrimFloat FloatOps.
Import ListNotations.
Close Scope Q_scope.
Close Scope Z_scope.
Open Scope nat_scope.
Open Scope list_scope.

Set Implicit Arguments.

(** ** Strings *)

Definition jsstring := list ascii.

Definition str (s : string) : jsstring := list_ascii_of_string s.

Definition code (c : ascii) : nat := nat_of_ascii c.

Definition isUpper (c : ascii) : bool := (65 <=? code c) && (code c <=? 90).
Definition isLower (c : ascii) : bool := (97 <=? code c) && (code c <=? 122).
Definition isDigit (c : ascii) : bool := (48 <=? code c) && (code c <=? 57).
Definition isDash (c : ascii) : bool := code c =? 45.

(** [\s] on code units below 256: TAB, LF, VT, FF, CR, space, NBSP. *)
Definition isSpace (c : ascii) : bool :=
  ((9 <=? code c) && (code c <=? 13)) || (code c =? 32) || (code c =? 160).

Definition upperChar (c : ascii) : ascii :=
  if isLower c then ascii_of_nat (code c - 32) else c.

(** [String.prototype.toUpperCase]; in the validator it only ever sees
    upper-case letters, digits and dashes, which it leaves alone. *)
Definition toUpperCase (s : jsstring) : jsstring := map upperChar s.

Definition ascii_eqb (a b : ascii) : bool := code a =? code b.

(** [s.startsWith(lit)], exact and ignoring case. *)
Fixpoint startsWith (lit s : jsstring) : bool :=
  match lit, s with
  | [], _ => true
  | _ :: _, [] => false
  | a :: lit', b :: s' => ascii_eqb a b && startsWith lit' s'
  end.

Fixpoint startsWithCI (lit s : jsstring) : bool :=
  match lit, s with
  | [], _ => true
  | _ :: _, [] => false
  | a :: lit', b :: s' => ascii_eqb (upperChar a) (upperChar b) && startsWithCI lit' s'
  end.

(** [s.includes(sub)] *)
Fixpoint includes (sub s : jsstring) : bool :=
  startsWith sub s || match s with [] => false | _ :: s' => includes sub s' end.

(** [s.replace(/[^A-Z0-9-\s]/g, '')]: the class has no [i] flag. *)
Definition allowedChar (c : ascii) : bool :=
  isUpper c || isDigit c || isDash c || isSpace c.

Definition stripDisallowed (s : jsstring) : jsstring := filter allowedChar s.

(** [s.replace(/\s+/g, '')] *)
Definition stripSpaces (s : jsstring) : jsstring := filter (fun c => negb (isSpace c)) s.

(** [s.replace(/lit/gi, '')] for a literal [lit]: one left-to-right pass,
    occurrences do not overlap.  [skip] counts the code units of the
    current occurrence that are still to be dropped. *)
Fixpoint removeFrom (lit s : jsstring) (skip : nat) : jsstring :=
  match s with
  | [] => []
  | c :: s' =>
      match skip with
      | S k => removeFrom lit s' k
      | O => if startsWithCI lit s then removeFrom lit s' (length lit - 1)
             else c :: removeFrom lit s' 0
      end
  end.

Definition removeLiteralCI (lit s : jsstring) : jsstring := removeFrom lit s 0.

(** ** Regular expressions of the source *)

Inductive cls := Upper | Digit | Dash.

Definition inCls (k : cls) (c : ascii) : bool :=
  match k with Upper => isUpper c | Digit => isDigit c | Dash => isDash c end.

(** [Rep k lo hi] is [k{lo,hi}]: [[A-Z]{3}] is [Rep Upper 3 3], [-?] is
    [Rep Dash 0 1]. *)
Inductive item := Rep (k : cls) (lo hi : nat).

Definition pattern := list item.

(** Length of the longest prefix of [s] inside class [k]. *)
Fixpoint run (k : cls) (s : jsstring) : nat :=
  match s with
  | c :: s' => if inCls k c then S (run k s') else 0
  | [] => 0
  end.

(** The repetition counts a greedy quantifier tries, longest first. *)
Definition counts (lo hi r : nat) : list nat :=
  rev (seq lo (S (Nat.min hi r) - lo)).

(** Every way of matching [p] at the start of [s], as the text left over,
    in the order the backtracking engine explores them. *)
Fixpoint matchPat (p : pattern) (s : jsstring) : list jsstring :=
  match p with
  | [] => [s]
  | Rep k lo hi :: p' =>
      flat_map (fun n => matchPat p' (skipn n s)) (counts lo hi (run k s))
  end.

(** Length of the match the engine reports at the start of [s]. *)
Definition execAt (p : pattern) (s : jsstring) : option nat :=
  match matchPat p s with
  | rest :: _ => Some (length s - length rest)
  | [] => None
  end.

(** [s.match(/p/g)]: all matches, left to right, none overlapping; [skip]
    counts the code units of the last match still to be passed.  After an
    empty match the engine moves on by one code unit, and it tries once
    more at the very end of the string.  The source treats [null] and the
    empty array alike. *)
Fixpoint matchFrom (p : pattern) (s : jsstring) (skip : nat) : list jsstring :=
  match s with
  | [] =>
      match skip, execAt p [] with
      | O, Some _ => [[]]
      | _, _ => []
      end
  | _ :: s' =>
      match skip with
      | S k => matchFrom p s' k
      | O =>
          match execAt p s with
          | Some n => firstn n s :: matchFrom p s' (n - 1)
          | None => matchFrom p s' 0
          end
      end
  end.

Definition matchAll (p : pattern) (s : jsstring) : list jsstring := matchFrom p s 0.

(** [/^p$/.test(s)] *)
Definition test (p : pattern) (s : jsstring) : bool :=
  existsb (fun rest => match rest with [] => true | _ => false end) (matchPat p s).

(** [/a|b|c/.test(s)] for literals. *)
Definition testAny (lits : list jsstring) (s : jsstring) : bool :=
  existsb (fun lit => includes lit s) lits.

Definition L (n : nat) : item := Rep Upper n n.
Definition D (n : nat) : item := Rep Digit n n.
Definition dash_opt : item := Rep Dash 0 1.

(** ** Sorting *)

Section Sort.
Variable A : Type.
(** [before x y] holds when [comparefn(x, y) < 0]. *)
Variable before : A -> A -> bool.

Fixpoint insertBy (x : A) (l : list A) : list A :=
  match l with
  | [] => [x]
  | y :: l' => if before x y then x :: y :: l' else y :: insertBy x l'
  end.

Definition sortBy (l : list A) : list A :=
  fold_left (fun acc x => insertBy x acc) l [].
End Sort.

(** ** The validator *)

Record Candidate := { plate : jsstring; score : Z }.

(** [(a, b) => b.score - a.score] *)
Definition byScore (a b : Candidate) : bool := (score b - score a <? 0)%Z.

Section Validator.
(** The copies of the validator differ in these four places only. *)
Variable minLength : nat.
Variable denylist : list jsstring.
Variable patterns : list pattern.
Variable scoreOf : jsstring -> Z.

Definition cleanText (text : jsstring) : jsstring :=
  toUpperCase
    (stripSpaces
       (fold_left (fun s lit => removeLiteralCI lit s) denylist
          (stripDisallowed text))).

Definition accepted (m : jsstring) : bool :=
  (minLength <=? length m) && (length m <=? 10).

(** The two nested loops: patterns outside, matches inside. *)
Definition collect (clean : jsstring) : list Candidate :=
  flat_map
    (fun p => map (fun m => {| plate := m; score := scoreOf m |})
                  (filter accepted (matchAll p clean)))
    patterns.

(** [None] is [null]; the argument is [None] for a [null] text. *)
Definition validate (text : option jsstring) : option jsstring :=
  match text with
  | None => None
  | Some [] => None
  | Some t =>
      if length t <? minLength then None
      else
        let candidates := collect (cleanText t) in
        if 0 <? length candidates then
          match sortBy byScore candidates with
          | c :: _ => Some (plate c)
          | [] => None
          end
        else None
  end.
End Validator.

(** *** Server validator (analyze-plate-enhanced.post.js) *)

Definition MEXICAN_PLATE_PATTERNS : list pattern :=
  [ [L 3; dash_opt; D 2; dash_opt; D 2];
    [L 3; dash_opt; D 3; dash_opt; Rep Upper 0 1];
    [L 3; dash_opt; D 3; dash_opt];
    [L 3; dash_opt; D 4];
    [L 3; D 4];
    [L 3; D 2; L 2];
    [L 2; dash_opt; D 3; dash_opt; L 2];
    [D 2; dash_opt; L 2; dash_opt; D 3];
    [Rep Upper 2 3; Rep Digit 2 4; Rep Upper 0 1] ].

Definition digitTriples : list jsstring :=
  map str ["000"; "111"; "222"; "333"; "444"; "555"; "666"; "777"; "888"; "999"]%string.

Definition letterTriples : list jsstring := map str ["AAA"; "BBB"; "CCC"]%string.

Definition baseScore (m : jsstring) : Z :=
  if test [L 3; dash_opt; D 2; dash_opt; D 2] m then 100
  else if test [L 3; dash_opt; D 3; dash_opt; L 1] m then 90
  else if test [L 3; dash_opt; D 3; dash_opt] m then 85
  else if test [L 3; dash_opt; D 4] m then 80
  else if test [L 2; dash_opt; D 3; dash_opt; L 2] m then 85
  else if test [Rep Upper 2 3; Rep Digit 2 4; Rep Upper 0 1] m then 60
  else 50.

Definition scoreMatch (m : jsstring) : Z :=
  (baseScore m
   + (if includes (str "-") m then 10 else 0)
   - (if testAny digitTriples m then 20 else 0)
   - (if testAny letterTriples m then 15 else 0))%Z.

Definition serverDenylist : list jsstring :=
  map str ["platesmania"; "www."; ".com"]%string.

Definition validateMexicanPlate : option jsstring -> option jsstring :=
  validate 6 serverDenylist MEXICAN_PLATE_PATTERNS scoreMatch.

(** *** Standalone test validator (second script of ProcessedImages.vue) *)

Module Standalone.
Definition MEXICAN_PLATE_PATTERNS : list pattern :=
  [ [L 3; dash_opt; D 2; dash_opt; D 2];
    [L 3; dash_opt; D 3; dash_opt; Rep Upper 0 1];
    [L 3; dash_opt; D 3; dash_opt];
    [L 3; dash_opt; D 4];
    [L 3; D 4];
    [L 3; D 2; L 2];
    [Rep Upper 2 3; Rep Digit 2 4; Rep Upper 0 1] ].

Definition scoreMatch (m : jsstring) : Z :=
  ((if test [L 3; dash_opt; D 2; dash_opt; D 2] m then 100
    else if test [L 3; dash_opt; D 3; dash_opt; L 1] m then 90
    else if test [L 3; dash_opt; D 3; dash_opt] m then 85
    else 50)
   + (if includes (str "-") m then 10 else 0))%Z.

Definition denylist : list jsstring :=
  map str ["platesmania"; "www."; ".com"; "major"; "katz"; "guerrero"]%string.

Definition validateMexicanPlate : option jsstring -> option jsstring :=
  validate 5 denylist MEXICAN_PLATE_PATTERNS scoreMatch.
End Standalone.

(** ** Ranking of the variants of one region (detectPlateWithOCR) *)

Inductive Source :=
  | enfocada | alto_contraste | realce_de_bordes | escalada | desconocida.

Definition isFocused (s : Source) : bool :=
  match s with enfocada => true | _ => false end.

(** What the OCR engine returned for one enhancement variant; the
    confidence is the engine's, between 0 and 100. *)
Record Observation := {
  text : jsstring;
  ocrConfidence : Q;
  variantName : Source
}.

Module Ocr.
Record Result := {
  plateText : jsstring;
  confidence : Q;
  rawText : jsstring;
  source : Source
}.
End Ocr.

Definition Qltb (a b : Q) : bool :=
  match (a ?= b)%Q with Lt => true | _ => false end.

(** *** Doubles

    A finite double is kept as the rational it denotes.  [binary64 x] is
    the double nearest to [x], a tie going to the even significand: 53
    significant bits, exponents from -1022 up, and below 2^-1022 the fixed
    spacing 2^-1074.  An arithmetic operation of the source on doubles is
    the exact operation followed by [binary64]; a decimal literal is the
    double nearest to it.  Overflow to [Infinity] (from 2^1024 on) is not
    modelled. *)

Definition pow2 (k : Z) : Q := Qpower 2 k.

(** The integer nearest to [m]; half-way, the even one. *)
Definition roundHalfEven (m : Q) : Z :=
  let f := Qfloor m in
  match (m - inject_Z f ?= 1 # 2)%Q with
  | Lt => f
  | Gt => (f + 1)%Z
  | Eq => if Z.even f then f else (f + 1)%Z
  end.

(** For [0 < x], the exponent [e] with [2^e <= x < 2^(e+1)]. *)
Definition binade (x : Q) : Z :=
  let c := (Z.log2 (Qnum x) - Z.log2 (Zpos (Qden x)))%Z in
  if Qle_bool (pow2 c) x then c else (c - 1)%Z.

(** For [0 < x]: the nearest multiple of the spacing of doubles around [x]. *)
Definition roundPositive (x : Q) : Q :=
  let q := pow2 (Z.max (binade x) (-1022) - 52) in
  (inject_Z (roundHalfEven (x / q)) * q)%Q.

Definition binary64 (x : Q) : Q :=
  match Qnum x with
  | Z0 => 0%Q
  | Zpos _ => roundPositive x
  | Zneg _ => (- roundPositive (- x))%Q
  end.

(** [x - y] of the source, for the doubles nearest to [x] and [y]. *)
Definition minus64 (x y : Q) : Q := binary64 (binary64 x - binary64 y).

(** [Math.abs(x - y) < 0.1], on doubles. *)
Definition tied (x y : Q) : bool := Qltb (Qabs (minus64 x y)) (binary64 (1 # 10)).

(** The machine's doubles, to compare [binary64] with. *)
Module Hardware.
Import PrimFloat.

Fixpoint ofNat (n : nat) : float :=
  match n with
  | O => 0%float
  | S k => (ofNat k + 1)%float
  end.

(** [Math.abs(x - y) < 0.1]; the literal is the double nearest to 0.1. *)
Definition tied (x y : float) : bool :=
  (abs (x - y) <? 0x1.999999999999ap-4)%float.

(** The rational a finite double denotes. *)
Definition value (f : float) : option Q :=
  match FloatOps.Prim2SF f with
  | SpecFloat.S754_zero _ => Some 0%Q
  | SpecFloat.S754_finite s m e =>
      Some ((if s then -1 else 1) * inject_Z (Zpos m) * pow2 e)%Q
  | _ => None
  end.

Definition sameValue (f : float) (x : Q) : bool :=
  match value f with
  | Some v => Qeq_bool v x
  | None => false
  end.

(** 2^k *)
Fixpoint twoTo (k : nat) : float :=
  match k with
  | O => 1%float
  | S k' => (twoTo k' * 2)%float
  end.

(** [n / 100] *)
Definition percent (n : nat) : float := (ofNat n / ofNat 100)%float.
End Hardware.

(** Whole numbers from 0 to 100. *)
Definition percentages : list nat := seq 0 101.

Definition percent (n : nat) : Q := (inject_Z (Z.of_nat n) / 100)%Q.

(** For two whole percentages, the difference of the quotients and the
    near-tie test are the machine's. *)
Definition asOnHardware (i j : nat) : bool :=
  Hardware.sameValue (PrimFloat.sub (Hardware.percent i) (Hardware.percent j))
                     (minus64 (percent i) (percent j))
  && Bool.eqb (Hardware.tied (Hardware.percent i) (Hardware.percent j))
              (tied (percent i) (percent j)).

(** The field [Ocr.confidence] keeps the exact quotient [confidence / 100];
    the double the source holds is the nearest one, and the comparison
    function works on it. *)
Definition nearTie (a b : Ocr.Result) : bool :=
  tied (Ocr.confidence a) (Ocr.confidence b).

(** The comparison function handed to [ocrResults.sort]. *)
Definition compareResults (a b : Ocr.Result) : Q :=
  if nearTie a b then
    (if isFocused (Ocr.source a) then -1 else 1)%Q
  else minus64 (Ocr.confidence b) (Ocr.confidence a).

Definition byConfidence (a b : Ocr.Result) : bool := Qltb (compareResults a b) 0.

Record PlateDetection := {
  hasPlate : bool;
  plateText : option jsstring;
  confidence : Q;
  processingMethod : option Source;
  allCandidates : list (jsstring * Q)
}.

Definition noPlate : PlateDetection :=
  {| hasPlate := false; plateText := None; confidence := 0;
     processingMethod := None; allCandidates := [] |}.

(** The loop over the enhancement variants: a variant whose text does not
    validate pushes nothing. *)
Definition ocrResults (obs : list Observation) : list Ocr.Result :=
  flat_map
    (fun o =>
       match validateMexicanPlate (Some (text o)) with
       | Some (c :: p) =>
           [ {| Ocr.plateText := c :: p;
                Ocr.confidence := ocrConfidence o / 100;
                Ocr.rawText := text o;
                Ocr.source := variantName o |} ]
       | _ => []
       end)
    obs.

Definition detectPlateWithOCR (obs : list Observation) : PlateDetection :=
  let results := ocrResults obs in
  if 0 <? length results then
    match sortBy byConfidence results with
    | (bestResult :: _) as sorted =>
        {| hasPlate := true;
           plateText := Some (Ocr.plateText bestResult);
           confidence := Ocr.confidence bestResult;
           processingMethod := Some (Ocr.source bestResult);
           allCandidates :=
             map (fun r => (Ocr.plateText r, Ocr.confidence r)) sorted |}
    | [] => noPlate
    end
  else noPlate.

(** ** Selection among the regions (request handler) *)

(** [result && result.hasPlate && result.confidence > 0.1] *)
Definition confidentPlate (result : option PlateDetection) : bool :=
  match result with
  | Some r => hasPlate r && Qltb (1 # 10) (confidence r)
  | None => false
  end.

(** [result && result.hasPlate] *)
Definition anyPlate (result : option PlateDetection) : bool :=
  match result with
  | Some r => hasPlate r
  | None => false
  end.

(** [a || b] on values that are objects, [null] or [undefined]. *)
Definition orElse (a b : option PlateDetection) : option PlateDetection :=
  match a with Some _ => a | None => b end.

Definition join (r : option (option PlateDetection)) : option PlateDetection :=
  match r with Some x => x | None => None end.

(** The chain of [||] that assigns [plateDetection]. *)
Definition selectPlateDetection (plateResults : list (option PlateDetection))
  : PlateDetection :=
  match
    orElse (join (find confidentPlate plateResults))
      (orElse (join (find anyPlate plateResults))
         (orElse (nth 1 plateResults None) (nth 0 plateResults None)))
  with
  | Some r => r
  | None => noPlate
  end.

(** The three regions of the handler: the vehicle box when a vehicle was
    found, the full image, the bottom half. *)
Definition plateResults (vehicle : option (list Observation))
    (full bottom : list Observation) : list (option PlateDetection) :=
  [ option_map detectPlateWithOCR vehicle;
    Some (detectPlateWithOCR full);
    Some (detectPlateWithOCR bottom) ].

Definition obs (t : string) (c : Q) (v : Source) : Observation :=
  {| text := str t; ocrConfidence := c; variantName := v |}.

(** ** Definitions used in the statements *)

(** *** The scoring rule in the words of the specification

    A shape is written with [L] for a letter from A to Z, [D] for a digit
    and any other character for itself.  A text fits a shape when it has
    the length of the shape and, place by place, a character of the kind
    written there. *)

Definition oneOf (chars : string) (c : ascii) : bool :=
  existsb (Ascii.eqb c) (list_ascii_of_string chars).

Definition fitsPlace (k c : ascii) : bool :=
  if Ascii.eqb k "L" then oneOf "ABCDEFGHIJKLMNOPQRSTUVWXYZ" c
  else if Ascii.eqb k "D" then oneOf "0123456789" c
  else Ascii.eqb k c.

Fixpoint fits (shape m : jsstring) : bool :=
  match shape, m with
  | [], [] => true
  | k :: shape', c :: m' => fitsPlace k c && fits shape' m'
  | _, _ => false
  end.

(** The text is exactly of one of the shapes. *)
Definition exactly (shapes : list string) (m : jsstring) : bool :=
  existsb (fun sh => fits (list_ascii_of_string sh) m) shapes.

Fixpoint sameText (a b : jsstring) : bool :=
  match a, b with
  | [], [] => true
  | x :: a', y :: b' => Ascii.eqb x y && sameText a' b'
  | _, _ => false
  end.

(** [t] is a substring of [m]: at some position of [m] stands [t]. *)
Definition contains (t : string) (m : jsstring) : bool :=
  existsb
    (fun i => sameText (firstn (String.length t) (skipn i m)) (list_ascii_of_string t))
    (seq 0 (S (length m))).

(** The exact-format checks, an optional dash written out both ways. *)
Definition specBaseScore (m : jsstring) : Z :=
  if exactly ["LLLDDDD"; "LLL-DDDD"; "LLLDD-DD"; "LLL-DD-DD"]%string m then 100
  else if exactly ["LLLDDDL"; "LLL-DDDL"; "LLLDDD-L"; "LLL-DDD-L"]%string m then 90
  else if exactly ["LLLDDD"; "LLL-DDD"; "LLLDDD-"; "LLL-DDD-"]%string m then 85
  else if exactly ["LLDDDLL"; "LL-DDDLL"; "LLDDD-LL"; "LL-DDD-LL"]%string m then 85
  else if exactly ["LLLDDDD"; "LLL-DDDD"]%string m then 80
  else if exactly ["LLDD"; "LLDDD"; "LLDDDD"; "LLLDD"; "LLLDDD"; "LLLDDDD";
                   "LLDDL"; "LLDDDL"; "LLDDDDL"; "LLLDDL"; "LLLDDDL"; "LLLDDDDL"]%string m
       then 60
  else 50.

Definition specScore (m : jsstring) : Z :=
  (specBaseScore m
   + (if contains "-"%string m then 10 else 0)
   - (if existsb (fun t => contains t m)
           ["000"; "111"; "222"; "333"; "444"; "555"; "666"; "777"; "888"; "999"]%string
      then 20 else 0)
   - (if existsb (fun t => contains t m) ["AAA"; "BBB"; "CCC"]%string
      then 15 else 0))%Z.

(** The shapes a regular expression of the source matches in full, in
    the notation of the specification. *)
Definition clsChar (k : cls) : ascii :=
  match k with Upper => "L" | Digit => "D" | Dash => "-" end%char.

Fixpoint shapesOf (p : pattern) : list jsstring :=
  match p with
  | [] => [[]]
  | Rep k lo hi :: p' =>
      flat_map (fun n => map (fun t => repeat (clsChar k) n ++ t) (shapesOf p'))
               (seq lo (S hi - lo))
  end.

(** Characters a plate is made of. *)
Definition plateChar (c : ascii) : bool := isUpper c || isDigit c || isDash c.

(** Descending order of score. *)
Definition scoreGe (a b : Candidate) : Prop := (score b <= score a)%Z.

(** The [candidates] array when [validateMexicanPlate] returns: ranked, and
    empty when the function returns before building it. *)
Definition rankedCandidates (text : option jsstring) : list Candidate :=
  match text with
  | Some (c :: t) =>
      if length (c :: t) <? 6 then []
      else sortBy byScore
             (collect 6 MEXICAN_PLATE_PATTERNS scoreMatch
                (cleanText serverDenylist (c :: t)))
  | _ => []
  end.

(** Two results can be told apart by the comparison function when their
    confidences are not in a near-tie, or exactly one of them comes from
    the focused variant. *)
Definition separable (a b : Ocr.Result) : bool :=
  negb (nearTie a b) || xorb (isFocused (Ocr.source a)) (isFocused (Ocr.source b)).

(** Every two results of the list are separable. *)
Definition pairwiseSeparable (l : list Ocr.Result) : Prop :=
  ForallOrdPairs (fun a b => separable a b = true) l.

Definition rankedBefore (x y : Ocr.Result) : Prop :=
  x = y \/ byConfidence x y = true.

(** ** Further definitions: lengths of matches, occurrences *)

Definition itemMin (i : item) : nat := match i with Rep _ lo _ => lo end.
Definition itemMax (i : item) : nat := match i with Rep _ _ hi => hi end.

(** Shortest and longest text a pattern can match. *)
Definition patMin (p : pattern) : nat := list_sum (map itemMin p).
Definition patMax (p : pattern) : nat := list_sum (map itemMax p).

(** Some position of [s] starts with [lit], ignoring case. *)
Fixpoint occursCI (lit s : jsstring) : bool :=
  startsWithCI lit s || match s with [] => false | _ :: s' => occursCI lit s' end.

(** ** Vehicle detection (detectVehicle) *)

Module Coco.
(** One prediction of the object-detection model. *)
Record Prediction := {
  class : string;
  score : Q;
  bbox : list Q
}.
End Coco.

Definition vehicleClasses : list string :=
  ["car"; "truck"; "bus"; "motorcycle"; "bicycle"]%string.

(** [vehicleClasses.includes(pred.class) && pred.score > 0.15] *)
Definition isVehicle (pred : Coco.Prediction) : bool :=
  existsb (String.eqb (Coco.class pred)) vehicleClasses
  && Qltb (15 # 100) (Coco.score pred).

(** [(a, b) => b.score - a.score] on predictions. *)
Definition byPredictionScore (a b : Coco.Prediction) : bool :=
  Qltb (Coco.score b - Coco.score a) 0.

Module Vehicle.
Record Detection := {
  hasVehicle : bool;
  bbox : option (list Q);
  confidence : Q;
  vehicleType : option string;
  allDetections : list Coco.Prediction
}.
End Vehicle.

Definition noVehicle : Vehicle.Detection :=
  {| Vehicle.hasVehicle := false; Vehicle.bbox := None; Vehicle.confidence := 0;
     Vehicle.vehicleType := None; Vehicle.allDetections := [] |}.

(** [predictions] is what [model.detect] returned; [None] stands for an
    exception anywhere in the [try] block, which the [catch] turns into
    the no-vehicle result. *)
Definition detectVehicle (predictions : option (list Coco.Prediction))
  : Vehicle.Detection :=
  match predictions with
  | None => noVehicle
  | Some predictions =>
      let vehicleDetections :=
        sortBy byPredictionScore (filter isVehicle predictions) in
      let bestVehicle := hd_error vehicleDetections in
      {| Vehicle.hasVehicle := 0 <? length vehicleDetections;
         Vehicle.bbox := option_map Coco.bbox bestVehicle;
         Vehicle.confidence :=
           match bestVehicle with Some b => Coco.score b | None => 0 end;
         Vehicle.vehicleType := option_map Coco.class bestVehicle;
         Vehicle.allDetections := vehicleDetections |}
  end.

(** ** The response of the request handler *)

Module Response.
Record t := {
  hasVehicle : bool;
  vehicleType : option string;
  vehicleConfidence : Q;
  hasPlate : bool;
  plateText : option jsstring;
  plateConfidence : Q;
  processingMethod : option Source;
  overallConfidence : Q;
  vehicleDetections : nat;
  plateCandidates : nat;
  alternativePlates : list (jsstring * Q)
}.
End Response.

(** The handler after the upload has been parsed.  [predictions] is the
    outcome of the detection model; the three lists are what the OCR
    engine read in the variants of the vehicle box, of the full image and
    of the bottom half (the first is only looked at when a vehicle was
    found). *)
Definition analyze (predictions : option (list Coco.Prediction))
    (vehicleObs fullObs bottomObs : list Observation) : Response.t :=
  let vehicleDetection := detectVehicle predictions in
  let results :=
    plateResults
      (if Vehicle.hasVehicle vehicleDetection then Some vehicleObs else None)
      fullObs bottomObs in
  let plateDetection := selectPlateDetection results in
  {| Response.hasVehicle := Vehicle.hasVehicle vehicleDetection;
     Response.vehicleType := Vehicle.vehicleType vehicleDetection;
     Response.vehicleConfidence := Vehicle.confidence vehicleDetection;
     Response.hasPlate := hasPlate plateDetection;
     Response.plateText := plateText plateDetection;
     Response.plateConfidence := confidence plateDetection;
     Response.processingMethod := processingMethod plateDetection;
     Response.overallConfidence :=
       if hasPlate plateDetection then
         (confidence plateDetection * (7 # 10)
          + Vehicle.confidence vehicleDetection * (3 # 10))%Q
       else Vehicle.confidence vehicleDetection;
     Response.vehicleDetections := length (Vehicle.allDetections vehicleDetection);
     Response.plateCandidates := length (allCandidates plateDetection);
     Response.alternativePlates := allCandidates plateDetection |}.

(** The text of an observation yields a plate. *)
Definition validates (o : Observation) : bool :=
  match validateMexicanPlate (Some (text o)) with Some _ => true | None => false end.

(** Descending order of prediction score. *)
Definition predictionGe (a b : Coco.Prediction) : Prop :=
  (Coco.score b <= Coco.score a)%Q.

(** ** The crop region (preprocessImageForPlateDetection) *)

(** [Math.round]: the nearest integer, halves going up. *)
Definition Math_round (x : Q) : Z := Qfloor (x + (1 # 2)).

Module Crop.
Record t := { left : Z; top : Z; width : Z; height : Z }.
End Crop.

(** [vehicleBbox.every(v => typeof v === 'number' && v <= 1 && v >= 0)] *)
Definition isRatioBox (vehicleBbox : list Q) : bool :=
  forallb (fun v => Qle_bool v 1 && Qle_bool 0 v) vehicleBbox.

(** [cropParams] for an image of [imgWidth] by [imgHeight] pixels; [None]
    when the box is [null] or has not four entries, in which case nothing
    is cropped. *)
Definition cropParams (imgWidth imgHeight : Z) (vehicleBbox : option (list Q))
  : option Crop.t :=
  match vehicleBbox with
  | Some [a; b; c; d] =>
      Some
        (if isRatioBox [a; b; c; d] then
           {| Crop.left := Z.max 0 (Math_round (inject_Z imgWidth * a));
              Crop.top := Z.max 0 (Math_round (inject_Z imgHeight * b));
              Crop.width := Z.min imgWidth (Math_round (inject_Z imgWidth * c));
              Crop.height := Z.min imgHeight (Math_round (inject_Z imgHeight * d)) |}
         else
           {| Crop.left := Z.max 0 (Math_round a);
              Crop.top := Z.max 0 (Math_round b);
              Crop.width := Z.min (imgWidth - Math_round a) (Math_round c);
              Crop.height := Z.min (imgHeight - Math_round b) (Math_round d) |})
  | _ => None
  end.

(** The box the handler passes for its third region,
    [[0, 0.5, 1.0, 0.5]]. *)
Definition bottomHalf : list Q := [0; 1 # 2; 1; 1 # 2]%Q.

(** ** Comparing a plate with the expected one (test scripts) *)

(** [a === b] on strings. *)
Fixpoint eqString (a b : jsstring) : bool :=
  match a, b with
  | [], [] => true
  | x :: a', y :: b' => ascii_eqb x y && eqString a' b'
  | _, _ => false
  end.

(** [s.replace(/[-\s]/g, '').toUpperCase()] *)
Definition cleanPlate (s : jsstring) : jsstring :=
  toUpperCase (filter (fun c => negb (isDash c || isSpace c)) s).

(** The test [isMatch] / [isCorrect] of the test scripts;
    [substring(0, 6)] is [firstn 6]. *)
Definition isMatch (expectedPlate found : jsstring) : bool :=
  let cleanExpected := cleanPlate expectedPlate in
  let cleanFound := cleanPlate found in
  eqString cleanFound cleanExpected
  || includes (firstn 6 cleanExpected) cleanFound
  || includes (firstn 6 cleanFound) cleanExpected.

(** ** The processing logger (processing-logger.js) *)

(** A log message, kept as the parameters of the template string the
    logger builds; the callers' messages are plain text. *)
Inductive Message :=
  | Plain (s : string)
  | ProgressLine (operation : string) (current total : Q) (unit : string) (percentage : Z)
  | TimingLine (operation : string) (elapsedMs : Z)
  | ImageSaved (description : string)
  | ImageFailed (errorMessage : string).

(** An object a caller passes as [metadata].  The logger spreads it into
    the entry after its own four properties, so a property of the object
    with one of their names replaces the logger's.  Such a property is
    taken to hold a value of the kind the logger writes there; the other
    properties are kept as text.  The callers of this repository pass no
    metadata. *)
Module Caller.
Record Data := {
  timestamp : option Z;
  message : option Message;
  type : option string;
  sessionId : option string;
  others : list (string * string)
}.
End Caller.

(** The metadata spread into a log entry: none, that of the logger's own
    methods, or an object of the caller. *)
Inductive Metadata :=
  | NoMetadata
  | ProgressData (operation : string) (current total : Q) (percentage : Z) (unit : string)
  | TimingData (operation : string) (elapsedMs : Z)
  | CallerData (given : Caller.Data).

Definition givenTimestamp (m : Metadata) : option Z :=
  match m with CallerData d => Caller.timestamp d | _ => None end.
Definition givenMessage (m : Metadata) : option Message :=
  match m with CallerData d => Caller.message d | _ => None end.
Definition givenType (m : Metadata) : option string :=
  match m with CallerData d => Caller.type d | _ => None end.
Definition givenSessionId (m : Metadata) : option string :=
  match m with CallerData d => Caller.sessionId d | _ => None end.

(** [{ key: own, ...metadata }.key] *)
Definition spread (A : Type) (own : A) (given : option A) : A :=
  match given with Some v => v | None => own end.

Module Log.
Record Entry := {
  timestamp : Z;
  message : Message;
  type : string;
  sessionId : string;
  metadata : Metadata
}.
End Log.

Module Image.
Record t := {
  filename : string;
  url : string;
  description : string;
  stepName : string;
  timestamp : Z;
  sessionId : string
}.
End Image.

(** What is handed to [broadcastToSession]. *)
Inductive Payload :=
  | LogPayload (entry : Log.Entry)
  | ImagePayload (image : Image.t)
  | ProgressPayload (operation : string) (current total : Q) (percentage : Z)
      (unit : string) (sessionId : string)
  | SessionComplete (sessionId : string) (totalLogs totalImages : nat) (duration : Z)
      (logs : list Log.Entry) (processedImages : list Image.t).

Record Broadcast := { toSession : string; payload : Payload }.

Module Logger.
Record t := {
  sessionId : string;
  logs : list Log.Entry;
  processedImages : list Image.t;
  startTime : Z
}.
End Logger.

(** [new ProcessingLogger(sessionId)]; [now] is the reading of the clock. *)
Definition createProcessingLogger (sessionId : string) (now : Z) : Logger.t :=
  {| Logger.sessionId := sessionId; Logger.logs := [];
     Logger.processedImages := []; Logger.startTime := now |}.

(** Every method returns the logger after the call and the broadcasts it
    made, in order. *)
Definition log (l : Logger.t) (now : Z) (message : Message) (type : string)
    (metadata : Metadata) : Logger.t * list Broadcast :=
  let logEntry :=
    {| Log.timestamp := spread now (givenTimestamp metadata);
       Log.message := spread message (givenMessage metadata);
       Log.type := spread type (givenType metadata);
       Log.sessionId := spread (Logger.sessionId l) (givenSessionId metadata);
       Log.metadata := metadata |} in
  ({| Logger.sessionId := Logger.sessionId l;
      Logger.logs := Logger.logs l ++ [logEntry];
      Logger.processedImages := Logger.processedImages l;
      Logger.startTime := Logger.startTime l |},
   [ {| toSession := Logger.sessionId l; payload := LogPayload logEntry |} ]).

Definition info l now message metadata := log l now message "info" metadata.
Definition success l now message metadata := log l now message "success" metadata.
Definition warning l now message metadata := log l now message "warning" metadata.
Definition error l now message metadata := log l now message "error" metadata.

Definition decimal (n : Z) : string := NilZero.string_of_int (Z.to_int n).

(** [fsError] is the message of the exception thrown by [mkdir] or
    [writeFile], if any.  The three clock readings are those of the file
    name, of the image and of the log entry. *)
Definition saveProcessedImage (l : Logger.t) (nowName nowImage nowLog : Z)
    (fsError : option string) (stepName description : string)
  : Logger.t * list Broadcast * option Image.t :=
  match fsError with
  | Some errorMessage =>
      let '(l', out) := error l nowLog (ImageFailed errorMessage) NoMetadata in
      (l', out, None)
  | None =>
      let filename :=
        (Logger.sessionId l ++ "_" ++ stepName ++ "_" ++ decimal nowName ++ ".jpg")%string in
      let processedImage :=
        {| Image.filename := filename;
           Image.url := ("/processing/" ++ filename)%string;
           Image.description := description;
           Image.stepName := stepName;
           Image.timestamp := nowImage;
           Image.sessionId := Logger.sessionId l |} in
      let l1 :=
        {| Logger.sessionId := Logger.sessionId l;
           Logger.logs := Logger.logs l;
           Logger.processedImages := Logger.processedImages l ++ [processedImage];
           Logger.startTime := Logger.startTime l |} in
      let '(l2, out) := info l1 nowLog (ImageSaved description) NoMetadata in
      (l2,
       {| toSession := Logger.sessionId l; payload := ImagePayload processedImage |} :: out,
       Some processedImage)
  end.

Definition progress (l : Logger.t) (now : Z) (operation : string)
    (current total : Q) (unit : string) : Logger.t * list Broadcast :=
  let percentage := Math_round (current / total * 100) in
  let '(l', out) :=
    info l now (ProgressLine operation current total unit percentage)
         (ProgressData operation current total percentage unit) in
  (l', out ++ [ {| toSession := Logger.sessionId l;
                   payload := ProgressPayload operation current total percentage unit
                                (Logger.sessionId l) |} ]).

(** [now] is read for the elapsed time, [nowLog] for the log entry. *)
Definition timing (l : Logger.t) (now nowLog : Z) (operation : string)
  : Logger.t * list Broadcast :=
  let elapsed := (now - Logger.startTime l)%Z in
  info l nowLog (TimingLine operation elapsed) (TimingData operation elapsed).

Definition finish (l : Logger.t) (now nowLog nowEnd : Z) : Logger.t * list Broadcast :=
  let '(l', out) := timing l now nowLog "Análisis total" in
  (l', out ++ [ {| toSession := Logger.sessionId l';
                   payload :=
                     SessionComplete (Logger.sessionId l')
                       (length (Logger.logs l')) (length (Logger.processedImages l'))
                       (nowEnd - Logger.startTime l')
                       (Logger.logs l') (Logger.processedImages l') |} ]).

(** The property names every object inherits from [Object.prototype]:
    read on a fresh object they give a function or the prototype, not
    [undefined], so the counting below is not meant for them. *)
Definition inheritedKeys : list string :=
  ["constructor"; "__proto__"; "hasOwnProperty"; "isPrototypeOf";
   "propertyIsEnumerable"; "toLocaleString"; "toString"; "valueOf";
   "__defineGetter__"; "__defineSetter__"; "__lookupGetter__";
   "__lookupSetter__"]%string.

(** [acc[key] = (acc[key] || 0) + 1] on an object whose keys are kept in
    the order of their first insertion; [key] is not an inherited name. *)
Fixpoint bump (key : string) (acc : list (string * nat)) : list (string * nat) :=
  match acc with
  | [] => [(key, 1)]
  | (k, n) :: acc' =>
      if String.eqb k key then (k, S n) :: acc' else (k, n) :: bump key acc'
  end.

Definition countBy (keys : list string) : list (string * nat) :=
  fold_left (fun acc key => bump key acc) keys [].

(** [acc[key]], [None] for [undefined]. *)
Fixpoint lookup (key : string) (acc : list (string * nat)) : option nat :=
  match acc with
  | [] => None
  | (k, n) :: acc' => if String.eqb k key then Some n else lookup key acc'
  end.

Module Stats.
Record t := {
  sessionId : string;
  startTime : Z;
  duration : Z;
  totalLogs : nat;
  logsByType : list (string * nat);
  totalImages : nat;
  imagesByStep : list (string * nat)
}.
End Stats.

Definition getStats (l : Logger.t) (now : Z) : Stats.t :=
  {| Stats.sessionId := Logger.sessionId l;
     Stats.startTime := Logger.startTime l;
     Stats.duration := (now - Logger.startTime l)%Z;
     Stats.totalLogs := length (Logger.logs l);
     Stats.logsByType := countBy (map Log.type (Logger.logs l));
     Stats.totalImages := length (Logger.processedImages l);
     Stats.imagesByStep := countBy (map Image.stepName (Logger.processedImages l)) |}.

(** The calls a user of the logger can make; the logging methods without
    metadata (the default [{}]) and with an object of the caller. *)
Inductive Call :=
  | CallLog (now : Z) (message : string) (type : string)
  | CallInfo (now : Z) (message : string)
  | CallSuccess (now : Z) (message : string)
  | CallWarning (now : Z) (message : string)
  | CallError (now : Z) (message : string)
  | CallSave (nowName nowImage nowLog : Z) (fsError : option string)
      (stepName description : string)
  | CallProgress (now : Z) (operation : string) (current total : Q) (unit : string)
  | CallTiming (now nowLog : Z) (operation : string)
  | CallFinish (now nowLog nowEnd : Z)
  | CallLogWith (now : Z) (message : string) (type : string) (metadata : Caller.Data)
  | CallInfoWith (now : Z) (message : string) (metadata : Caller.Data)
  | CallSuccessWith (now : Z) (message : string) (metadata : Caller.Data)
  | CallWarningWith (now : Z) (message : string) (metadata : Caller.Data)
  | CallErrorWith (now : Z) (message : string) (metadata : Caller.Data).

Definition call (l : Logger.t) (c : Call) : Logger.t * list Broadcast :=
  match c with
  | CallLog now m ty => log l now (Plain m) ty NoMetadata
  | CallInfo now m => info l now (Plain m) NoMetadata
  | CallSuccess now m => success l now (Plain m) NoMetadata
  | CallWarning now m => warning l now (Plain m) NoMetadata
  | CallError now m => error l now (Plain m) NoMetadata
  | CallSave n1 n2 n3 e st d => fst (saveProcessedImage l n1 n2 n3 e st d)
  | CallProgress now op cur tot u => progress l now op cur tot u
  | CallTiming now nowLog op => timing l now nowLog op
  | CallFinish n1 n2 n3 => finish l n1 n2 n3
  | CallLogWith now m ty d => log l now (Plain m) ty (CallerData d)
  | CallInfoWith now m d => info l now (Plain m) (CallerData d)
  | CallSuccessWith now m d => success l now (Plain m) (CallerData d)
  | CallWarningWith now m d => warning l now (Plain m) (CallerData d)
  | CallErrorWith now m d => error l now (Plain m) (CallerData d)
  end.

(** The metadata object of a call that passes one. *)
Definition callMetadata (c : Call) : option Caller.Data :=
  match c with
  | CallLogWith _ _ _ d | CallInfoWith _ _ d | CallSuccessWith _ _ d
  | CallWarningWith _ _ d | CallErrorWith _ _ d => Some d
  | _ => None
  end.

(** The call passes no [sessionId] property of its own. *)
Definition keepsSession (c : Call) : Prop :=
  match callMetadata c with
  | Some d => Caller.sessionId d = None
  | None => True
  end.

(** A sequence of calls: the logger at the end and all broadcasts made. *)
Fixpoint calls (l : Logger.t) (cs : list Call) : Logger.t * list Broadcast :=
  match cs with
  | [] => (l, [])
  | c :: cs' =>
      let '(l1, out1) := call l c in
      let '(l2, out2) := calls l1 cs' in
      (l2, out1 ++ out2)
  end.

(** The session a payload names inside itself. *)
Definition payloadSession (p : Payload) : string :=
  match p with
  | LogPayload entry => Log.sessionId entry
  | ImagePayload image => Image.sessionId image
  | ProgressPayload _ _ _ _ _ sessionId => sessionId
  | SessionComplete sessionId _ _ _ _ _ => sessionId
  end.

(** The log entries and the images among a list of broadcasts. *)
Definition broadcastLogs (out : list Broadcast) : list Log.Entry :=
  flat_map (fun b => match payload b with LogPayload e => [e] | _ => [] end) out.

Definition broadcastImages (out : list Broadcast) : list Image.t :=
  flat_map (fun b => match payload b with ImagePayload i => [i] | _ => [] end) out.

(** A broadcast goes to session [sid] and names it inside. *)
Definition addressedTo (sid : string) (b : Broadcast) : Prop :=
  toSession b = sid /\ payloadSession (payload b) = sid.

(** [acc[key] || 0] *)
Definition countOf (key : string) (acc : list (string * nat)) : nat :=
  match lookup key acc with Some n => n | None => 0 end.

(** ** The gallery pages (app/pages/index.vue) *)

Definition imagesPerPage : nat := 12.

Section Gallery.
Variable A : Type.

(** [Array.prototype.slice(start, end)], negative indices counting from
    the end. *)
Definition slice (start stop : Z) (l : list A) : list A :=
  let len := Z.of_nat (length l) in
  let k := if (start <? 0)%Z then Z.max (len + start) 0 else Z.min start len in
  let final := if (stop <? 0)%Z then Z.max (len + stop) 0 else Z.min stop len in
  firstn (Z.to_nat (final - k)) (skipn (Z.to_nat k) l).

(** [Math.ceil(filteredImages.length / imagesPerPage)] *)
Definition totalPages (filteredImages : list A) : Z :=
  Z.of_nat ((length filteredImages + (imagesPerPage - 1)) / imagesPerPage).

Definition paginatedImages (filteredImages : list A) (currentPage : Z) : list A :=
  let start := ((currentPage - 1) * Z.of_nat imagesPerPage)%Z in
  let stop := (start + Z.of_nat imagesPerPage)%Z in
  slice start stop filteredImages.

Definition previousPage (currentPage : Z) : Z :=
  if (1 <? currentPage)%Z then (currentPage - 1)%Z else currentPage.

Definition nextPage (filteredImages : list A) (currentPage : Z) : Z :=
  if (currentPage <? totalPages filteredImages)%Z then (currentPage + 1)%Z
  else currentPage.
End Gallery.

(** The two page buttons. *)
Inductive PageButton := Previous | Next.

Definition press (A : Type) (filteredImages : list A) (currentPage : Z)
    (b : PageButton) : Z :=
  match b with
  | Previous => previousPage currentPage
  | Next => nextPage filteredImages currentPage
  end.

(** ** The bounding rectangle of a plate candidate (analyze-plate-simple) *)

(** [Math.min] and [Math.max] of two numbers. *)
Definition qmin (a b : Q) : Q := if Qle_bool a b then a else b.
Definition qmax (a b : Q) : Q := if Qle_bool a b then b else a.

Module Rect.
Record t := { x : Z; y : Z; width : Z; height : Z }.
End Rect.

(** [corners] are the pairs [[x, y]]; for an empty array the source
    computes with infinities, which is [None] here. *)
Definition calculateBoundingRect (corners : list (Q * Q)) : option Rect.t :=
  match corners with
  | [] => None
  | (x0, y0) :: rest =>
      let xs := map fst rest in
      let ys := map snd rest in
      let minX := fold_left qmin xs x0 in
      let maxX := fold_left qmax xs x0 in
      let minY := fold_left qmin ys y0 in
      let maxY := fold_left qmax ys y0 in
      Some {| Rect.x := Math_round minX;
              Rect.y := Math_round minY;
              Rect.width := Math_round (maxX - minX);
              Rect.height := Math_round (maxY - minY) |}
  end.

(** A number that is an integer. *)
Definition isInteger (q : Q) : Prop := exists i : Z, (q == inject_Z i)%Q.

(** ** The image list of the gallery (server/api/images.get.js) *)

(** [s.endsWith(suffix)] *)
Definition endsWith (s suffix : string) : bool :=
  let n := String.length s in
  let m := String.length suffix in
  (m <=? n) && String.eqb (substring (n - m) m s) suffix.

Definition isImageFile (file : string) : bool :=
  endsWith file ".jpg" || endsWith file ".jpeg" || endsWith file ".png".

Module Gallery.
Record Item := { name : string; url : string }.
Record Response := { success : bool; images : list Item; total : nat }.
End Gallery.

Section ImageList.
(** The built-in [encodeURIComponent]; nothing here depends on what it
    returns. *)
Variable encodeURIComponent : string -> string.

(** [files] is what [readdir] returned; [None] stands for its failure,
    after which the handler answers with an error and no list.
    [sort()] without a comparison function orders strings by their code
    units. *)
Definition listImages (files : option (list string)) : option Gallery.Response :=
  match files with
  | None => None
  | Some files =>
      let imageFiles :=
        map (fun filename =>
               {| Gallery.name := filename;
                  Gallery.url := ("/api/image/" ++ encodeURIComponent filename)%string |})
            (sortBy String.ltb (filter isImageFile files)) in
      Some {| Gallery.success := true;
              Gallery.images := imageFiles;
              Gallery.total := length imageFiles |}
  end.
End ImageList.

(** ** Proof automation *)

Ltac split_all :=
  repeat match goal with
         | H : _ \/ _ |- _ => destruct H
         | H : _ /\ _ |- _ => destruct H
         end.

Unset Implicit Arguments.

(** * Properties *)

(** ** Character classes *)

Lemma upper_not_digit c : isUpper c = true -> isDigit c = false.
Proof.
  unfold isUpper, isDigit. intros H.
  apply andb_true_iff in H as [H1 _]. apply Nat.leb_le in H1.
  apply andb_false_iff. right. apply Nat.leb_gt. lia.
Qed.

Lemma upper_not_dash c : isUpper c = true -> isDash c = false.
Proof.
  unfold isUpper, isDash. intros H.
  apply andb_true_iff in H as [H1 _]. apply Nat.leb_le in H1.
  apply Nat.eqb_neq. lia.
Qed.

Lemma plateChar_not_space_lower c :
  (isUpper c || isDigit c || isDash c) = true ->
  isSpace c = false /\ isLower c = false.
Proof.
  unfold isUpper, isDigit, isDash, isSpace, isLower. intros H.
  rewrite !orb_true_iff, !andb_true_iff, !Nat.leb_le, Nat.eqb_eq in H.
  rewrite !orb_false_iff, !andb_false_iff, !Nat.leb_gt, !Nat.eqb_neq. lia.
Qed.

Lemma upper_not_lower c : isUpper c = true -> isLower c = false.
Proof.
  unfold isUpper, isLower. intros H.
  apply andb_true_iff in H as [_ H2]. apply Nat.leb_le in H2.
  apply andb_false_iff. left. apply Nat.leb_gt. lia.
Qed.

(** ** Anchored tests *)

Lemma in_counts n lo hi r : In n (counts lo hi r) <-> lo <= n /\ n <= hi /\ n <= r.
Proof.
  unfold counts. rewrite <- in_rev, in_seq. lia.
Qed.

Lemma existsb_flat_map (X Y : Type) (f : Y -> bool) (g : X -> list Y) l :
  existsb f (flat_map g l) = existsb (fun x => existsb f (g x)) l.
Proof.
  induction l as [|x l IH]; simpl; [reflexivity|].
  now rewrite existsb_app, IH.
Qed.

Lemma test_nil s : test [] s = true <-> s = [].
Proof.
  unfold test; simpl. destruct s; simpl; split; intro H; congruence.
Qed.

Lemma test_cons k lo hi p s :
  test (Rep k lo hi :: p) s = true <->
  exists n, lo <= n /\ n <= hi /\ n <= run k s /\ test p (skipn n s) = true.
Proof.
  unfold test; simpl. rewrite existsb_flat_map, existsb_exists.
  split.
  - intros (n & Hn & Ht). apply in_counts in Hn. exists n. tauto.
  - intros (n & H1 & H2 & H3 & Ht). exists n. split; [|exact Ht].
    apply in_counts. tauto.
Qed.

Lemma run_three k s :
  3 <= run k s -> exists a b c s', s = a :: b :: c :: s' /\ inCls k c = true.
Proof.
  destruct s as [|a [|b [|c s']]]; simpl; try lia.
  - destruct (inCls k a); simpl; lia.
  - destruct (inCls k a); simpl; try lia. destruct (inCls k b); simpl; lia.
  - destruct (inCls k a); simpl; try lia. destruct (inCls k b); simpl; try lia.
    destruct (inCls k c) eqn:E; simpl; try lia. intros _. now exists a, b, c, s'.
Qed.

Lemma run_pos k c s : 1 <= run k (c :: s) -> inCls k c = true.
Proof. simpl. destruct (inCls k c); [reflexivity | lia]. Qed.

(** The legacy shape [LLL-?DDDD] and the federal shape [LL-?DDD-?LL]
    differ at the third character, so no string has both. *)
Lemma legacy_federal_exclusive m :
  test [L 3; dash_opt; D 4] m = true ->
  test [L 2; dash_opt; D 3; dash_opt; L 2] m = false.
Proof.
  intros H4. destruct (test [L 2; dash_opt; D 3; dash_opt; L 2] m) eqn:H5; [|reflexivity].
  exfalso.
  apply test_cons in H4 as (n & Hlo & _ & Hrun & _).
  assert (Hr : 3 <= run Upper m) by lia.
  destruct (run_three _ _ Hr) as (a & b & c & s' & -> & Hc). simpl in Hc.
  apply test_cons in H5 as (n2 & Hlo2 & Hhi2 & _ & H5).
  assert (n2 = 2) by lia. subst n2. simpl in H5.
  apply test_cons in H5 as (d & _ & Hd & Hrd & H5).
  apply test_cons in H5 as (n3 & Hlo3 & _ & Hr3 & _).
  destruct d as [|[|d]]; try lia.
  - change (skipn 0 (c :: s')) with (c :: s') in Hr3.
    assert (E : inCls Digit c = true) by (apply run_pos with (s := s'); lia).
    simpl in E. rewrite (upper_not_digit _ Hc) in E. discriminate.
  - assert (E : inCls Dash c = true) by (apply run_pos with (s := s'); lia).
    simpl in E. rewrite (upper_not_dash _ Hc) in E. discriminate.
Qed.

(** ** Scoring *)

Lemma baseScore_bounds m : (50 <= baseScore m <= 100)%Z.
Proof.
  unfold baseScore.
  repeat match goal with |- context [if ?b then _ else _] => destruct b end; lia.
Qed.

Lemma scoreMatch_bounds m : (15 <= scoreMatch m <= 110)%Z.
Proof.
  unfold scoreMatch. pose proof (baseScore_bounds m).
  repeat match goal with |- context [if ?b then _ else _] => destruct b end; lia.
Qed.

(** *** The shapes a regular expression matches *)

Lemma fitsPlace_cls k c : fitsPlace (clsChar k) c = inCls k c.
Proof.
  destruct k; destruct c as [[] [] [] [] [] [] [] []]; vm_compute; reflexivity.
Qed.

Lemma fits_nil s : fits [] s = true <-> s = [].
Proof. destruct s; simpl; split; congruence. Qed.

Lemma fits_repeat k n t s :
  fits (repeat (clsChar k) n ++ t) s = true <->
  n <= run k s /\ fits t (skipn n s) = true.
Proof.
  revert s. induction n as [|n IH]; intros s.
  - simpl. split; [intros H; split; [lia|exact H]|tauto].
  - destruct s as [|c s']; cbn [repeat app fits run skipn].
    + split; [discriminate|lia].
    + rewrite fitsPlace_cls, andb_true_iff, IH.
      destruct (inCls k c); split; intros H; try (destruct H; discriminate);
        try lia; intuition lia.
Qed.

Lemma test_shapes p s :
  test p s = true <-> exists sh, In sh (shapesOf p) /\ fits sh s = true.
Proof.
  revert s. induction p as [|[k lo hi] p IH]; intros s.
  - rewrite test_nil. simpl. split.
    + intros ->. exists []. split; [now left|reflexivity].
    + intros (sh & [<-|[]] & H). now apply fits_nil.
  - rewrite test_cons. cbn [shapesOf]. split.
    + intros (n & Hlo & Hhi & Hrun & Ht).
      apply IH in Ht as (t & Hin & Hfit).
      exists (repeat (clsChar k) n ++ t). split.
      * apply in_flat_map. exists n. split; [apply in_seq; lia|].
        apply in_map_iff. now exists t.
      * apply fits_repeat. now split.
    + intros (sh & Hin & Hfit).
      apply in_flat_map in Hin as (n & Hn & Hin).
      apply in_map_iff in Hin as (t & <- & Hin).
      apply in_seq in Hn. apply fits_repeat in Hfit as [Hrun Hfit].
      exists n. split; [lia|]. split; [lia|]. split; [exact Hrun|].
      apply IH. now exists t.
Qed.

(** A test of the source and a list of shapes of the specification say
    the same when the expression matches just these shapes. *)
Lemma test_exactly p shapes m :
  (forall sh, In sh (shapesOf p) <-> In sh (map str shapes)) ->
  test p m = exactly shapes m.
Proof.
  intros H. apply eq_true_iff_eq. rewrite test_shapes.
  unfold exactly. rewrite existsb_exists. split.
  - intros (sh & Hin & Hfit). apply H in Hin.
    apply in_map_iff in Hin as (t & <- & Hin). now exists t.
  - intros (t & Hin & Hfit). exists (str t). split; [|exact Hfit].
    apply H. now apply in_map.
Qed.

(** *** Substrings *)

Lemma ascii_eqb_eqb a b : ascii_eqb a b = Ascii.eqb a b.
Proof.
  unfold ascii_eqb, code. destruct (Ascii.eqb_spec a b) as [->|N].
  - apply Nat.eqb_refl.
  - apply Nat.eqb_neq. intros E. apply N.
    rewrite <- (ascii_nat_embedding a), <- (ascii_nat_embedding b). now rewrite E.
Qed.

Lemma sameText_eq a b : sameText a b = true <-> a = b.
Proof.
  revert b. induction a as [|x a IH]; intros [|y b]; simpl;
    try (split; congruence).
  rewrite andb_true_iff, IH. split.
  - intros [E ->]. apply Ascii.eqb_eq in E. now subst.
  - intros [= -> ->]. split; [apply Ascii.eqb_refl|reflexivity].
Qed.

Lemma startsWith_sameText t m :
  startsWith t m = sameText (firstn (length t) m) t.
Proof.
  revert m. induction t as [|a t IH]; intros [|b m]; simpl; try reflexivity.
  now rewrite IH, ascii_eqb_eqb, (Ascii.eqb_sym a b).
Qed.

Lemma existsb_seq_shift (f : nat -> bool) n :
  existsb f (seq 1 n) = existsb (fun i => f (S i)) (seq 0 n).
Proof.
  rewrite <- seq_shift. induction (seq 0 n) as [|i l IH]; simpl; [reflexivity|].
  now rewrite IH.
Qed.

Lemma includes_contains t m : includes (str t) m = contains t m.
Proof.
  unfold contains.
  assert (Hlen : String.length t = length (str t)).
  { unfold str. induction t as [|c t IH]; simpl; [reflexivity|now rewrite IH]. }
  rewrite Hlen. fold (str t). generalize (str t) as lit. clear Hlen. intros lit.
  induction m as [|c m IH].
  - simpl. now rewrite startsWith_sameText, orb_false_r.
  - cbn [includes length]. rewrite IH.
    change (seq 0 (S (S (length m)))) with (0 :: seq 1 (S (length m))).
    cbn [existsb]. rewrite existsb_seq_shift.
    now rewrite startsWith_sameText.
Qed.

(** [contains] is the substring relation. *)
Lemma contains_spec t m :
  contains t m = true <-> exists pre post, m = pre ++ str t ++ post.
Proof.
  unfold contains. rewrite existsb_exists.
  assert (Hlen : String.length t = length (str t)).
  { unfold str. induction t as [|c t IH]; simpl; [reflexivity|now rewrite IH]. }
  rewrite Hlen. fold (str t). split.
  - intros (i & _ & H). apply sameText_eq in H.
    exists (firstn i m), (skipn (length (str t)) (skipn i m)).
    rewrite <- H at 1. now rewrite !firstn_skipn.
  - intros (pre & post & ->). exists (length pre). split.
    + apply in_seq. rewrite length_app. lia.
    + apply sameText_eq.
      rewrite skipn_app, skipn_all, Nat.sub_diag. simpl.
      rewrite firstn_app, firstn_all, Nat.sub_diag. simpl. apply app_nil_r.
Qed.

Lemma testAny_contains lits m :
  testAny (map str lits) m = existsb (fun t => contains t m) lits.
Proof.
  unfold testAny. induction lits as [|t lits IH]; simpl; [reflexivity|].
  now rewrite includes_contains, IH.
Qed.

(** C3. The score of a match is the base of the first exact-format rule it
    satisfies (LLL-?DD-?DD 100, LLL-?DDD-?L 90, LLL-?DDD-? 85, LL-?DDD-?LL
    85, LLL-?DDDD 80, two or three letters then two to four digits then at
    most one letter 60, anything else 50, in the order of the
    specification), plus 10 when it contains a dash, minus 20 when it
    contains one of 000, 111, ..., 999, minus 15 when it contains AAA, BBB
    or CCC.  [specScore] words the rule with shapes and substrings of its
    own; the source tests regular expressions, in another order of the
    rules 85 and 80. *)
Theorem C3_score_follows_rules (m : jsstring) : scoreMatch m = specScore m.
Proof.
  unfold scoreMatch, specScore.
  rewrite (includes_contains "-"%string m).
  unfold digitTriples, letterTriples. rewrite !testAny_contains.
  do 3 f_equal.
  unfold baseScore, specBaseScore.
  rewrite (test_exactly [L 3; dash_opt; D 2; dash_opt; D 2]
             ["LLLDDDD"; "LLL-DDDD"; "LLLDD-DD"; "LLL-DD-DD"]%string)
    by (intros sh; vm_compute; tauto).
  rewrite (test_exactly [L 3; dash_opt; D 3; dash_opt; L 1]
             ["LLLDDDL"; "LLL-DDDL"; "LLLDDD-L"; "LLL-DDD-L"]%string)
    by (intros sh; vm_compute; tauto).
  rewrite (test_exactly [L 3; dash_opt; D 3; dash_opt]
             ["LLLDDD"; "LLL-DDD"; "LLLDDD-"; "LLL-DDD-"]%string)
    by (intros sh; vm_compute; tauto).
  rewrite (test_exactly [Rep Upper 2 3; Rep Digit 2 4; Rep Upper 0 1]
             ["LLDD"; "LLDDD"; "LLDDDD"; "LLLDD"; "LLLDDD"; "LLLDDDD";
              "LLDDL"; "LLDDDL"; "LLDDDDL"; "LLLDDL"; "LLLDDDL"; "LLLDDDDL"]%string)
    by (intros sh; vm_compute; tauto).
  destruct (exactly ["LLLDDDD"; "LLL-DDDD"; "LLLDD-DD"; "LLL-DD-DD"]%string m);
    [reflexivity|].
  destruct (exactly ["LLLDDDL"; "LLL-DDDL"; "LLLDDD-L"; "LLL-DDD-L"]%string m);
    [reflexivity|].
  destruct (exactly ["LLLDDD"; "LLL-DDD"; "LLLDDD-"; "LLL-DDD-"]%string m);
    [reflexivity|].
  destruct (test [L 3; dash_opt; D 4] m) eqn:E4.
  - rewrite <- (test_exactly [L 2; dash_opt; D 3; dash_opt; L 2]
                  ["LLDDDLL"; "LL-DDDLL"; "LLDDD-LL"; "LL-DDD-LL"]%string)
      by (intros sh; vm_compute; tauto).
    rewrite (legacy_federal_exclusive _ E4).
    rewrite <- (test_exactly [L 3; dash_opt; D 4] ["LLLDDDD"; "LLL-DDDD"]%string)
      by (intros sh; vm_compute; tauto).
    now rewrite E4.
  - rewrite (test_exactly [L 2; dash_opt; D 3; dash_opt; L 2]
               ["LLDDDLL"; "LL-DDDLL"; "LLDDD-LL"; "LL-DDD-LL"]%string)
      by (intros sh; vm_compute; tauto).
    rewrite <- (test_exactly [L 3; dash_opt; D 4] ["LLLDDDD"; "LLL-DDDD"]%string)
      by (intros sh; vm_compute; tauto).
    now rewrite E4.
Qed.

(** C2 (behaviour of the code). The first replacement has no [i] flag:
    lower-case letters are deleted before the final upper-casing, so
    "ncm-27-04" is cleaned to "-27-04" and yields no plate. *)
Theorem C2_lowercase_is_deleted :
  cleanText serverDenylist (str "ncm-27-04") = str "-27-04" /\
  validateMexicanPlate (Some (str "ncm-27-04")) = None /\
  validateMexicanPlate (Some (str "NCM-27-04")) = Some (str "NCM-27-04").
Proof. repeat split; vm_compute; reflexivity. Qed.

(** C9 (the claim fails). No string gets a negative score. *)
Lemma C9_no_negative_score : ~ exists m : jsstring, (scoreMatch m < 0)%Z.
Proof.
  intros [m Hm]. pose proof (scoreMatch_bounds m). lia.
Qed.

(** ** What a match looks like *)

Lemma inCls_plateChar k c : inCls k c = true -> plateChar c = true.
Proof.
  unfold plateChar.
  destruct k; simpl; intros ->; rewrite ?orb_true_r; reflexivity.
Qed.

Lemma run_firstn k n s :
  n <= run k s ->
  length (firstn n s) = n /\ Forall (fun c => inCls k c = true) (firstn n s).
Proof.
  revert s. induction n as [|n IH]; intros s Hn.
  - simpl. split; [reflexivity | constructor].
  - destruct s as [|c s]; simpl in Hn; [lia|].
    destruct (inCls k c) eqn:E; [|lia].
    destruct (IH s) as [Hl Hf]; [lia|].
    simpl. split; [now rewrite Hl | now constructor].
Qed.

Lemma run_app_ge k a b :
  Forall (fun c => inCls k c = true) a -> length a <= run k (a ++ b).
Proof.
  induction 1 as [|c a Hc _ IH]; simpl; [lia|]. rewrite Hc. lia.
Qed.

(** Whatever the engine leaves over, the consumed part is a prefix made of
    plate characters that the pattern matches in full on its own. *)
Lemma matchPat_sound p : forall s rest,
  In rest (matchPat p s) ->
  exists m, s = m ++ rest /\ Forall (fun c => plateChar c = true) m /\
            In [] (matchPat p m).
Proof.
  induction p as [|[k lo hi] p IH]; intros s rest Hin.
  - simpl in Hin. destruct Hin as [<-|[]]. exists []. simpl. auto.
  - simpl in Hin. apply in_flat_map in Hin as (n & Hn & Hrest).
    apply in_counts in Hn as (Hlo & Hhi & Hrun).
    destruct (IH _ _ Hrest) as (m' & Hs & Hm' & Hfull).
    destruct (run_firstn k n s Hrun) as [Hlen Hcls].
    exists (firstn n s ++ m'). repeat split.
    + rewrite <- app_assoc, <- Hs. symmetry. apply firstn_skipn.
    + apply Forall_app. split; [|exact Hm'].
      eapply Forall_impl; [|exact Hcls]. intros c. apply inCls_plateChar.
    + simpl. apply in_flat_map. exists n. split.
      * apply in_counts. repeat split; try assumption.
        pose proof (run_app_ge k _ m' Hcls) as Hge. lia.
      * rewrite skipn_app, Hlen, Nat.sub_diag. simpl.
        rewrite <- Hlen at 1. rewrite skipn_all. exact Hfull.
Qed.

Lemma execAt_sound p s n :
  execAt p s = Some n ->
  exists rest, s = firstn n s ++ rest /\ length (firstn n s) = n /\
               Forall (fun c => plateChar c = true) (firstn n s) /\
               test p (firstn n s) = true.
Proof.
  unfold execAt. destruct (matchPat p s) as [|rest l] eqn:E; [discriminate|].
  intros [= <-].
  destruct (matchPat_sound p s rest) as (m & Hs & Hm & Hfull).
  { rewrite E. now left. }
  assert (Hn : length s - length rest = length m).
  { rewrite Hs at 1. rewrite length_app. lia. }
  assert (Hf : firstn (length s - length rest) s = m).
  { rewrite Hn, Hs. rewrite firstn_app, Nat.sub_diag, firstn_all. simpl. apply app_nil_r. }
  rewrite Hf. exists rest.
  split; [exact Hs|]. split; [lia|]. split; [exact Hm|].
  unfold test. apply existsb_exists. exists []. split; [exact Hfull|reflexivity].
Qed.

Lemma matchFrom_sound p : forall s skip m,
  In m (matchFrom p s skip) ->
  (exists pre post, s = pre ++ m ++ post) /\
  Forall (fun c => plateChar c = true) m /\ test p m = true.
Proof.
  induction s as [|c s IH]; intros skip m Hin; simpl in Hin.
  { destruct skip; [|contradiction].
    destruct (execAt p []) as [n|] eqn:E; [|contradiction].
    destruct Hin as [<-|[]].
    destruct (execAt_sound _ _ _ E) as (_ & _ & _ & Hf & Ht).
    rewrite firstn_nil in Hf, Ht. split; [|tauto]. now exists [], []. }
  assert (Hrec : forall k, In m (matchFrom p s k) ->
            (exists pre post, c :: s = pre ++ m ++ post) /\
            Forall (fun c => plateChar c = true) m /\ test p m = true).
  { intros k Hk. destruct (IH _ _ Hk) as ((pre & post & ->) & H2 & H3).
    split; [|tauto]. now exists (c :: pre), post. }
  destruct skip as [|k]; [|eauto].
  destruct (execAt p (c :: s)) as [n|] eqn:E; [|eauto].
  destruct Hin as [<-|Hin]; [|eauto].
  destruct (execAt_sound _ _ _ E) as (rest & Hs & _ & Hf & Ht).
  split; [|tauto]. exists [], rest. exact Hs.
Qed.

Lemma matchAll_sound p s m :
  In m (matchAll p s) ->
  (exists pre post, s = pre ++ m ++ post) /\
  Forall (fun c => plateChar c = true) m /\ test p m = true.
Proof. apply matchFrom_sound. Qed.

(** ** Sorting *)

Section SortFacts.
Set Implicit Arguments.
Variable A : Type.
Variable before : A -> A -> bool.

Lemma insertBy_perm x l : Permutation (insertBy before x l) (x :: l).
Proof.
  induction l as [|y l IH]; simpl; [reflexivity|].
  destruct (before x y); [reflexivity|].
  rewrite IH. apply perm_swap.
Qed.

Lemma fold_insert_perm l : forall acc,
  Permutation (fold_left (fun acc x => insertBy before x acc) l acc) (acc ++ l).
Proof.
  induction l as [|x l IH]; intros acc; simpl.
  - now rewrite app_nil_r.
  - rewrite IH, insertBy_perm. apply Permutation_middle.
Qed.

Lemma sortBy_perm l : Permutation (sortBy before l) l.
Proof. unfold sortBy. apply (fold_insert_perm l []). Qed.

Lemma sortBy_nil l : sortBy before l = [] <-> l = [].
Proof.
  split; intros H.
  - pose proof (sortBy_perm l) as Hp. rewrite H in Hp.
    now apply Permutation_nil.
  - subst. reflexivity.
Qed.

Variable R : A -> A -> Prop.

(** Inserting into a sorted list keeps it sorted as soon as [before]
    agrees with the order on the elements at hand. *)
Lemma insertBy_sorted x l :
  (forall y, In y l -> before x y = true -> R x y) ->
  (forall y, In y l -> before x y = false -> R y x) ->
  (forall y z, In y l -> In z l -> R x y -> R y z -> R x z) ->
  StronglySorted R l -> StronglySorted R (insertBy before x l).
Proof.
  induction l as [|y l IH]; intros H1 H2 Ht Hs; simpl.
  - repeat constructor.
  - inversion Hs as [|? ? Hs' Hall]; subst.
    destruct (before x y) eqn:E.
    + constructor; [exact Hs|]. constructor.
      * apply H1; [now left|exact E].
      * rewrite Forall_forall in *. intros z Hz.
        apply Ht with y; [now left|now right| |auto].
        apply H1; [now left|exact E].
    + constructor.
      * apply IH; try assumption.
        -- intros z Hz. apply H1. now right.
        -- intros z Hz. apply H2. now right.
        -- intros u v Hu Hv. apply Ht; now right.
      * rewrite Forall_forall in *. intros z Hz.
        apply (Permutation_in _ (insertBy_perm x l)) in Hz.
        destruct Hz as [<-|Hz]; [|auto].
        apply H2; [now left|exact E].
Qed.

Lemma fold_insert_sorted l : forall acc,
  (forall x y, In x (acc ++ l) -> In y (acc ++ l) -> before x y = true -> R x y) ->
  (forall x y, In x (acc ++ l) -> In y (acc ++ l) -> before x y = false -> R y x) ->
  (forall x y z, In x (acc ++ l) -> In y (acc ++ l) -> In z (acc ++ l) ->
                 R x y -> R y z -> R x z) ->
  StronglySorted R acc ->
  StronglySorted R (fold_left (fun acc x => insertBy before x acc) l acc).
Proof.
  induction l as [|x l IH]; intros acc H1 H2 Ht Hs; simpl; [exact Hs|].
  assert (Hx : In x (acc ++ x :: l)) by (apply in_or_app; right; now left).
  assert (Hacc : forall y, In y acc -> In y (acc ++ x :: l))
    by (intros; apply in_or_app; now left).
  assert (Hsub : forall y, In y (insertBy before x acc ++ l) -> In y (acc ++ x :: l)).
  { intros y Hy. apply in_app_or in Hy as [Hy|Hy].
    - apply (Permutation_in _ (insertBy_perm x acc)) in Hy.
      destruct Hy as [<-|Hy]; auto.
    - apply in_or_app. right. now right. }
  apply IH; eauto.
  apply insertBy_sorted; eauto.
Qed.

Lemma sortBy_sorted l :
  (forall x y, In x l -> In y l -> before x y = true -> R x y) ->
  (forall x y, In x l -> In y l -> before x y = false -> R y x) ->
  (forall x y z, In x l -> In y l -> In z l -> R x y -> R y z -> R x z) ->
  StronglySorted R (sortBy before l).
Proof.
  intros H1 H2 Ht. unfold sortBy.
  apply fold_insert_sorted; simpl; auto. constructor.
Qed.

(** Two sorted arrangements of the same elements coincide when the
    order is antisymmetric on them. *)
Lemma sorted_unique : forall l1 l2,
  (forall x y, In x l1 -> In y l1 -> R x y -> R y x -> x = y) ->
  Permutation l1 l2 ->
  StronglySorted R l1 -> StronglySorted R l2 -> l1 = l2.
Proof.
  induction l1 as [|x t1 IH]; intros l2 Hanti Hp Hs1 Hs2.
  - apply Permutation_nil in Hp. now subst.
  - destruct l2 as [|y t2].
    { apply Permutation_sym, Permutation_nil in Hp. discriminate. }
    inversion Hs1 as [|? ? Hs1' Hall1]; subst.
    inversion Hs2 as [|? ? Hs2' Hall2]; subst.
    rewrite Forall_forall in Hall1, Hall2.
    assert (Hxy : x = y).
    { assert (Hx : In x (y :: t2)) by (apply (Permutation_in _ Hp); now left).
      assert (Hy : In y (x :: t1))
        by (apply (Permutation_in _ (Permutation_sym Hp)); now left).
      destruct Hx as [Hx|Hx]; [now symmetry|].
      destruct Hy as [Hy|Hy]; [assumption|].
      apply Hanti; [now left|now right|auto|auto]. }
    subst y. f_equal. apply IH; try assumption.
    + intros u v Hu Hv. apply Hanti; now right.
    + now apply Permutation_cons_inv with x.
Qed.
Unset Implicit Arguments.
End SortFacts.

(** ** Ranking by score *)

Lemma sortBy_byScore_sorted l : StronglySorted scoreGe (sortBy byScore l).
Proof.
  apply sortBy_sorted; unfold byScore, scoreGe.
  - intros x y _ _ H. apply Z.ltb_lt in H. lia.
  - intros x y _ _ H. apply Z.ltb_ge in H. lia.
  - intros x y z _ _ _. lia.
Qed.

(** The head of the ranking is a candidate of largest score. *)
Lemma sortBy_byScore_head l c rest :
  sortBy byScore l = c :: rest ->
  In c l /\ forall c', In c' l -> (score c' <= score c)%Z.
Proof.
  intros E. pose proof (sortBy_perm byScore l) as Hp.
  pose proof (sortBy_byScore_sorted l) as Hs. rewrite E in Hp, Hs.
  split.
  - apply (Permutation_in _ Hp). now left.
  - intros c' Hc'. apply (Permutation_in _ (Permutation_sym Hp)) in Hc'.
    inversion Hs as [|? ? _ Hall]; subst. rewrite Forall_forall in Hall.
    destruct Hc' as [<-|Hc']; [lia|]. now apply Hall.
Qed.

(** ** The validator, whatever its four parameters *)

Section ValidatorFacts.
Variable minLength : nat.
Variable denylist : list jsstring.
Variable patterns : list pattern.
Variable scoreOf : jsstring -> Z.

Let collect' := collect minLength patterns scoreOf.
Let validate' := validate minLength denylist patterns scoreOf.

Lemma accepted_iff m :
  accepted minLength m = true <-> minLength <= length m /\ length m <= 10.
Proof.
  unfold accepted. rewrite andb_true_iff, !Nat.leb_le. tauto.
Qed.

Lemma in_collect c clean :
  In c (collect' clean) <->
  exists p m, In p patterns /\ In m (matchAll p clean) /\
              accepted minLength m = true /\
              c = {| plate := m; score := scoreOf m |}.
Proof.
  unfold collect', collect. rewrite in_flat_map. split.
  - intros (p & Hp & Hc). apply in_map_iff in Hc as (m & <- & Hm).
    apply filter_In in Hm as [Hm Ha]. now exists p, m.
  - intros (p & m & Hp & Hm & Ha & ->). exists p. split; [exact Hp|].
    apply in_map_iff. exists m. split; [reflexivity|].
    apply filter_In. now split.
Qed.

(** A raw match is kept exactly when its length is in the window. *)
Lemma collect_window clean p m :
  In p patterns -> In m (matchAll p clean) ->
  (In {| plate := m; score := scoreOf m |} (collect' clean) <->
   minLength <= length m /\ length m <= 10).
Proof.
  intros Hp Hm. rewrite <- accepted_iff, in_collect. split.
  - intros (p' & m' & _ & _ & Ha & E). now injection E as -> _.
  - intros Ha. now exists p, m.
Qed.

Lemma validate_unfold c t :
  validate' (Some (c :: t)) =
  if length (c :: t) <? minLength then None
  else option_map plate (hd_error (sortBy byScore (collect' (cleanText denylist (c :: t))))).
Proof.
  unfold validate', validate, collect'.
  destruct (length (c :: t) <? minLength); [reflexivity|].
  destruct (collect minLength patterns scoreOf (cleanText denylist (c :: t)))
    as [|x l] eqn:E; [reflexivity|].
  change (0 <? length (x :: l)) with true. cbv iota.
  destruct (sortBy byScore (x :: l)); reflexivity.
Qed.

Lemma validate_short t : length t < minLength -> validate' (Some t) = None.
Proof.
  intros H. destruct t as [|c t]; [reflexivity|].
  rewrite validate_unfold. apply Nat.ltb_lt in H. now rewrite H.
Qed.

Lemma validate_Some text pl :
  validate' text = Some pl ->
  exists t c rest, text = Some t /\ minLength <= length t /\
    sortBy byScore (collect' (cleanText denylist t)) = c :: rest /\ pl = plate c.
Proof.
  destruct text as [[|a t]|]; try discriminate.
  rewrite validate_unfold.
  destruct (length (a :: t) <? minLength) eqn:E; [discriminate|].
  apply Nat.ltb_ge in E.
  destruct (sortBy byScore (collect' (cleanText denylist (a :: t)))) as [|c rest] eqn:Es;
    [discriminate|].
  simpl. intros [= <-]. now exists (a :: t), c, rest.
Qed.

Lemma validate_no_match t :
  (forall p, In p patterns -> matchAll p (cleanText denylist t) = []) ->
  validate' (Some t) = None.
Proof.
  intros H. destruct (validate' (Some t)) as [pl|] eqn:E; [|reflexivity].
  exfalso. apply validate_Some in E as (t' & c & rest & [= <-] & _ & Es & _).
  destruct (sortBy_byScore_head _ _ _ Es) as [Hc _].
  apply in_collect in Hc as (p & m & Hp & Hm & _). rewrite (H p Hp) in Hm.
  contradiction.
Qed.

Lemma validate_single a t c :
  minLength <= length (a :: t) ->
  collect' (cleanText denylist (a :: t)) = [c] ->
  validate' (Some (a :: t)) = Some (plate c).
Proof.
  intros Hl Hc. rewrite validate_unfold.
  apply Nat.ltb_ge in Hl. rewrite Hl, Hc. reflexivity.
Qed.

(** The plate returned is a match of some pattern, in the length window,
    found inside the cleaned text. *)
Lemma validate_sound text pl :
  validate' text = Some pl ->
  exists t, text = Some t /\
    (exists pre post, cleanText denylist t = pre ++ pl ++ post) /\
    (minLength <= length pl /\ length pl <= 10) /\
    Forall (fun c => plateChar c = true) pl /\
    exists p, In p patterns /\ In pl (matchAll p (cleanText denylist t)) /\
              test p pl = true.
Proof.
  intros H. apply validate_Some in H as (t & c & rest & -> & _ & Es & ->).
  destruct (sortBy_byScore_head _ _ _ Es) as [Hc _].
  apply in_collect in Hc as (p & m & Hp & Hm & Ha & ->). simpl.
  destruct (matchAll_sound _ _ _ Hm) as (Hsub & Hch & Ht).
  exists t. split; [reflexivity|]. split; [exact Hsub|].
  split; [now apply accepted_iff|]. split; [exact Hch|].
  now exists p.
Qed.
End ValidatorFacts.

(** ** The server validator *)

Lemma validate_ranked text :
  validateMexicanPlate text = option_map plate (hd_error (rankedCandidates text)).
Proof.
  destruct text as [[|c t]|]; try reflexivity.
  unfold validateMexicanPlate, rankedCandidates. rewrite validate_unfold.
  destruct (length (c :: t) <? 6); reflexivity.
Qed.

Lemma validate_None_iff text :
  validateMexicanPlate text = None <-> rankedCandidates text = [].
Proof.
  rewrite validate_ranked. destruct (rankedCandidates text); simpl; split; congruence.
Qed.

(** C5. The plate returned is non-null exactly when the ranked candidate
    list is non-empty, it is the plate of the first candidate, and the
    first candidate is the highest-ranked one: the list is in descending
    order of score. *)
Theorem C5_bestPlate_is_first_candidate (text : option jsstring) :
  (validateMexicanPlate text <> None <-> rankedCandidates text <> []) /\
  validateMexicanPlate text = option_map plate (hd_error (rankedCandidates text)) /\
  StronglySorted scoreGe (rankedCandidates text).
Proof.
  split; [|split].
  - now rewrite validate_None_iff.
  - apply validate_ranked.
  - unfold rankedCandidates. destruct text as [[|c t]|]; try constructor.
    destruct (length (c :: t) <? 6); [constructor|]. apply sortBy_byScore_sorted.
Qed.

(** C6. A null text, an empty text, a text shorter than the minimum length
    and a text in which no pattern matches all give [null] and no
    candidate; an empty list of observations gives the no-plate result
    with no candidates.  Every function involved is total. *)
Theorem C6_no_candidate_is_null :
  (validateMexicanPlate None = None /\ rankedCandidates None = []) /\
  (validateMexicanPlate (Some []) = None /\ rankedCandidates (Some []) = []) /\
  (forall t, length t < 6 ->
     validateMexicanPlate (Some t) = None /\ rankedCandidates (Some t) = []) /\
  (forall t,
     (forall p, In p MEXICAN_PLATE_PATTERNS ->
                matchAll p (cleanText serverDenylist t) = []) ->
     validateMexicanPlate (Some t) = None /\ rankedCandidates (Some t) = []) /\
  (detectPlateWithOCR [] = noPlate /\
   plateText noPlate = None /\ allCandidates noPlate = []).
Proof.
  assert (Hboth : forall x, validateMexicanPlate x = None ->
            validateMexicanPlate x = None /\ rankedCandidates x = []).
  { intros x H. split; [exact H|]. now apply validate_None_iff. }
  split; [now split|]. split; [now split|]. split; [|split].
  - intros t Ht. apply Hboth. now apply validate_short.
  - intros t Ht. apply Hboth. now apply validate_no_match.
  - repeat split.
Qed.

Lemma C6_witness :
  validateMexicanPlate (Some (str "AB12")) = None /\
  validateMexicanPlate (Some (str "HELLO WORLD")) = None.
Proof.
  destruct C6_no_candidate_is_null as (_ & _ & Hshort & Hnone & _).
  split.
  - apply Hshort. vm_compute. lia.
  - apply Hnone. intros p Hp. simpl in Hp.
    repeat (destruct Hp as [<-|Hp]; [vm_compute; reflexivity|]).
    contradiction.
Defined.

(** C10. A plate returned by the validator is a contiguous part of the
    cleaned text, is 6 to 10 characters long, is made of upper-case
    letters, digits and dashes only (no white space, no lower-case letter),
    and is a match of one of the nine patterns (which also matches it from
    end to end). *)
Theorem C10_returned_plate_shape (text : option jsstring) (pl : jsstring) :
  validateMexicanPlate text = Some pl ->
  exists t, text = Some t /\
    (exists pre post, cleanText serverDenylist t = pre ++ pl ++ post) /\
    (6 <= length pl /\ length pl <= 10) /\
    Forall (fun c => plateChar c = true /\ isSpace c = false /\ isLower c = false) pl /\
    exists p, In p MEXICAN_PLATE_PATTERNS /\
              In pl (matchAll p (cleanText serverDenylist t)) /\
              test p pl = true.
Proof.
  intros H. destruct (validate_sound _ _ _ _ _ _ H) as (t & Ht & Hsub & Hlen & Hch & Hp).
  exists t. repeat (split; [assumption|]). split; [|exact Hp].
  eapply Forall_impl; [|exact Hch]. intros c Hc. split; [exact Hc|].
  now apply plateChar_not_space_lower.
Qed.

Lemma C10_witness :
  exists t, Some (str " NCM-27-04 ") = Some t /\
    (exists pre post, cleanText serverDenylist t = pre ++ str "NCM-27-04" ++ post) /\
    (6 <= length (str "NCM-27-04") /\ length (str "NCM-27-04") <= 10) /\
    Forall (fun c => plateChar c = true /\ isSpace c = false /\ isLower c = false)
           (str "NCM-27-04") /\
    exists p, In p MEXICAN_PLATE_PATTERNS /\
              In (str "NCM-27-04") (matchAll p (cleanText serverDenylist t)) /\
              test p (str "NCM-27-04") = true.
Proof.
  apply (C10_returned_plate_shape (Some (str " NCM-27-04 "))).
  vm_compute. reflexivity.
Defined.

(** C4 (the claim fails on the server). The fallback pattern finds the
    five-character match "AB123" in "AB123-", and the server validator
    drops it: its window starts at 6. *)
Lemma C4_length_five_dropped :
  In (str "AB123")
     (matchAll [Rep Upper 2 3; Rep Digit 2 4; Rep Upper 0 1]
               (cleanText serverDenylist (str "AB123-"))) /\
  length (str "AB123") = 5 /\
  collect 6 MEXICAN_PLATE_PATTERNS scoreMatch
          (cleanText serverDenylist (str "AB123-")) = [] /\
  validateMexicanPlate (Some (str "AB123-")) = None.
Proof. repeat split; vm_compute; auto. Qed.

(** C4 (amended). A raw match becomes a scored candidate exactly when its
    length is between the validator's minimum and 10: the minimum is 6 in
    the server validator and 5 in the standalone test's validator.  A match
    outside the window is dropped, nothing else happens. *)
Theorem C4_candidate_iff_in_window (clean : jsstring) (p : pattern) (m : jsstring) :
  In m (matchAll p clean) ->
  (In p MEXICAN_PLATE_PATTERNS ->
   (In {| plate := m; score := scoreMatch m |}
       (collect 6 MEXICAN_PLATE_PATTERNS scoreMatch clean) <->
    6 <= length m /\ length m <= 10)) /\
  (In p Standalone.MEXICAN_PLATE_PATTERNS ->
   (In {| plate := m; score := Standalone.scoreMatch m |}
       (collect 5 Standalone.MEXICAN_PLATE_PATTERNS Standalone.scoreMatch clean) <->
    5 <= length m /\ length m <= 10)).
Proof.
  intros Hm. split; intros Hp; now apply collect_window with p.
Qed.

Lemma C4_witness :
  ~ In {| plate := str "AB123"; score := scoreMatch (str "AB123") |}
       (collect 6 MEXICAN_PLATE_PATTERNS scoreMatch (str "AB123-")) /\
  In {| plate := str "AB123"; score := Standalone.scoreMatch (str "AB123") |}
     (collect 5 Standalone.MEXICAN_PLATE_PATTERNS Standalone.scoreMatch (str "AB123-")).
Proof.
  destruct (C4_candidate_iff_in_window (str "AB123-")
              [Rep Upper 2 3; Rep Digit 2 4; Rep Upper 0 1] (str "AB123"))
    as [Hserver Halone].
  { vm_compute. auto. }
  split.
  - intros Hin. apply Hserver in Hin.
    + vm_compute in Hin. lia.
    + vm_compute. tauto.
  - apply Halone.
    + vm_compute. tauto.
    + vm_compute. lia.
Defined.

(** C9 (amended). Scores are not clamped, and they need no clamping: the
    score of a candidate is the score of its plate under the rules, which is
    at least 15 (50 - 20 - 15), so never negative.  A candidate that is the
    only one is returned, whatever its score. *)
Theorem C9_single_candidate_returned (t : jsstring) (c : Candidate) :
  6 <= length t ->
  collect 6 MEXICAN_PLATE_PATTERNS scoreMatch (cleanText serverDenylist t) = [c] ->
  score c = scoreMatch (plate c) /\ (15 <= score c)%Z /\
  validateMexicanPlate (Some t) = Some (plate c).
Proof.
  intros Hl Hc.
  assert (Hv : validateMexicanPlate (Some t) = Some (plate c)).
  { destruct t as [|a t]; [simpl in Hl; lia|].
    exact (validate_single _ _ _ _ _ _ _ Hl Hc). }
  assert (Hin : In c (collect 6 MEXICAN_PLATE_PATTERNS scoreMatch
                        (cleanText serverDenylist t))) by (rewrite Hc; now left).
  apply in_collect in Hin as (p & m & _ & _ & _ & E).
  split; [now rewrite E|]. split; [|exact Hv].
  rewrite E. apply scoreMatch_bounds.
Qed.

Lemma C9_witness :
  score {| plate := str "12-AB-345"; score := 60 |} = scoreMatch (str "12-AB-345") /\
  (15 <= 60)%Z /\
  validateMexicanPlate (Some (str "12-AB-345")) = Some (str "12-AB-345").
Proof.
  apply (C9_single_candidate_returned (str "12-AB-345")
           {| plate := str "12-AB-345"; score := 60 |}).
  - vm_compute. lia.
  - vm_compute. reflexivity.
Defined.

(** ** Ranking by confidence *)

Lemma Qltb_lt a b : Qltb a b = true <-> (a < b)%Q.
Proof.
  unfold Qltb. rewrite Qlt_alt. destruct (a ?= b)%Q; split; congruence.
Qed.

Lemma Qltb_ge a b : Qltb a b = false <-> (b <= a)%Q.
Proof.
  split; intros H.
  - apply Qnot_lt_le. intros Hlt. apply Qltb_lt in Hlt. congruence.
  - destruct (Qltb a b) eqn:E; [|reflexivity].
    apply Qltb_lt in E. exfalso. now apply (Qle_not_lt _ _ H).
Qed.

(** *** Rounding to the nearest double *)

Lemma pow2_pos k : (0 < pow2 k)%Q.
Proof. apply Qpower_0_lt. reflexivity. Qed.

Lemma pow2_le k k' : (k <= k')%Z -> (pow2 k <= pow2 k')%Q.
Proof. intros H. apply Qpower_le_compat_l; [exact H|discriminate]. Qed.

Lemma pow2_lt_inv k k' : (pow2 k < pow2 k')%Q -> (k < k')%Z.
Proof. intros H. apply (Qpower_lt_compat_l_inv 2); [exact H|reflexivity]. Qed.

Lemma pow2_plus a b : (pow2 (a + b) == pow2 a * pow2 b)%Q.
Proof. apply Qpower_plus. discriminate. Qed.

Lemma pow2_inject k : (0 <= k)%Z -> (inject_Z (2 ^ k) == pow2 k)%Q.
Proof. intros H. unfold pow2. now rewrite Zpower_Qpower. Qed.

Lemma roundHalfEven_bounds m :
  (Qfloor m <= roundHalfEven m <= Qfloor m + 1)%Z.
Proof.
  unfold roundHalfEven.
  destruct (m - inject_Z (Qfloor m) ?= 1 # 2)%Q; [destruct (Z.even (Qfloor m))| |]; lia.
Qed.

Lemma roundHalfEven_mono m m' :
  (m <= m')%Q -> (roundHalfEven m <= roundHalfEven m')%Z.
Proof.
  intros H.
  pose proof (Qfloor_resp_le _ _ H) as Hf.
  pose proof (roundHalfEven_bounds m) as B.
  pose proof (roundHalfEven_bounds m') as B'.
  destruct (Z.eq_dec (Qfloor m) (Qfloor m')) as [E|N]; [|lia].
  clear B B' Hf. unfold roundHalfEven. rewrite <- E.
  destruct (Qcompare_spec (m - inject_Z (Qfloor m)) (1 # 2)) as [C|C|C];
  destruct (Qcompare_spec (m' - inject_Z (Qfloor m)) (1 # 2)) as [C'|C'|C'];
  try (destruct (Z.even (Qfloor m))); try lia; exfalso; lra.
Qed.

Lemma roundHalfEven_Z m n : (m == inject_Z n)%Q -> roundHalfEven m = n.
Proof.
  intros H. unfold roundHalfEven.
  assert (F : Qfloor m = n) by (rewrite H; apply Qfloor_Z).
  rewrite F.
  assert (C : (m - inject_Z n ?= 1 # 2)%Q = Lt) by (apply (proj1 (Qlt_alt _ _)); lra).
  now rewrite C.
Qed.

(** rounding to a grid of step [q] keeps the grid points as bounds *)
Lemma grid_le q k x :
  (0 < q)%Q -> (x <= inject_Z k * q)%Q ->
  (inject_Z (roundHalfEven (x / q)) * q <= inject_Z k * q)%Q.
Proof.
  intros Hq H. apply Qmult_le_compat_r; [|lra].
  rewrite <- Zle_Qle.
  rewrite <- (roundHalfEven_Z (inject_Z k) k (Qeq_refl _)).
  apply roundHalfEven_mono. now apply Qle_shift_div_r.
Qed.

Lemma grid_ge q k x :
  (0 < q)%Q -> (inject_Z k * q <= x)%Q ->
  (inject_Z k * q <= inject_Z (roundHalfEven (x / q)) * q)%Q.
Proof.
  intros Hq H. apply Qmult_le_compat_r; [|lra].
  rewrite <- Zle_Qle.
  rewrite <- (roundHalfEven_Z (inject_Z k) k (Qeq_refl _)) at 1.
  apply roundHalfEven_mono. now apply Qle_shift_div_l.
Qed.

Lemma binade_spec x :
  (0 < x)%Q -> (pow2 (binade x) <= x < pow2 (binade x + 1))%Q.
Proof.
  intros Hx. destruct x as [n d]. 
  assert (Hn : (0 < n)%Z).
  { unfold Qlt in Hx; simpl in Hx. lia. }
  unfold binade; simpl Qnum; simpl Qden.
  set (ln := Z.log2 n). set (ld := Z.log2 (Zpos d)).
  pose proof (Z.log2_spec n Hn) as [Hn1 Hn2].
  pose proof (Z.log2_spec (Zpos d) eq_refl) as [Hd1 Hd2].
  fold ln in Hn1, Hn2. fold ld in Hd1, Hd2.
  pose proof (Z.log2_nonneg n) as Hln. fold ln in Hln.
  pose proof (Z.log2_nonneg (Zpos d)) as Hld. fold ld in Hld.
  assert (Ex : (inject_Z n == (n # d) * inject_Z (Zpos d))%Q).
  { unfold Qeq, Qmult, inject_Z; simpl. lia. }
  rewrite Zle_Qle, pow2_inject in Hn1, Hd1 by lia.
  rewrite Zlt_Qlt in Hn2, Hd2.
  rewrite <- (Z.add_1_r ln) in Hn2. rewrite <- (Z.add_1_r ld) in Hd2.
  rewrite pow2_inject in Hn2, Hd2 by lia.
  pose proof (pow2_pos ld) as Pld.
  pose proof (pow2_pos (ln - ld)) as Pc.
  assert (Up : ((n # d) < pow2 (ln - ld + 1))%Q).
  { apply (Qmult_lt_r _ _ (pow2 ld) Pld).
    rewrite <- pow2_plus. replace (ln - ld + 1 + ld)%Z with (ln + 1)%Z by lia.
    apply Qle_lt_trans with (inject_Z n); [|exact Hn2].
    rewrite Ex. apply Qmult_le_l; [exact Hx|exact Hd1]. }
  assert (Lo : (pow2 (ln - ld - 1) <= (n # d))%Q).
  { apply (Qmult_le_r _ _ (pow2 (ld + 1)) (pow2_pos _)).
    rewrite <- pow2_plus. replace (ln - ld - 1 + (ld + 1))%Z with ln by lia.
    apply Qle_trans with (inject_Z n); [exact Hn1|].
    rewrite Ex. apply Qmult_le_l; [exact Hx|]. now apply Qlt_le_weak. }
  destruct (Qle_bool (pow2 (ln - ld)) (n # d)) eqn:E.
  - apply Qle_bool_iff in E. now split.
  - split; [exact Lo|].
    replace (ln - ld - 1 + 1)%Z with (ln - ld)%Z by lia.
    apply Qnot_le_lt. intros H. apply Qle_bool_iff in H. congruence.
Qed.

Lemma binade_mono x y : (0 < x)%Q -> (x <= y)%Q -> (binade x <= binade y)%Z.
Proof.
  intros Hx Hxy.
  destruct (binade_spec x Hx) as [Lx _].
  destruct (binade_spec y) as [_ Uy]; [lra|].
  assert (H : (binade x < binade y + 1)%Z) by (apply pow2_lt_inv; lra).
  lia.
Qed.

Lemma pow2_53 e : (pow2 (e + 1) == inject_Z (2 ^ 53) * pow2 (e - 52))%Q.
Proof.
  rewrite pow2_inject by lia. rewrite <- pow2_plus.
  now replace (53 + (e - 52))%Z with (e + 1)%Z by lia.
Qed.

Lemma pow2_52 e : (pow2 e == inject_Z (2 ^ 52) * pow2 (e - 52))%Q.
Proof.
  rewrite pow2_inject by lia. rewrite <- pow2_plus.
  now replace (52 + (e - 52))%Z with e by lia.
Qed.

Lemma roundPositive_upper x :
  (0 < x)%Q -> (roundPositive x <= pow2 (Z.max (binade x) (-1022) + 1))%Q.
Proof.
  intros Hx. unfold roundPositive.
  set (e := Z.max (binade x) (-1022)).
  rewrite (pow2_53 e). apply grid_le; [apply pow2_pos|].
  rewrite <- pow2_53.
  destruct (binade_spec x Hx) as [_ U].
  apply Qlt_le_weak, Qlt_le_trans with (1 := U). apply pow2_le. lia.
Qed.

Lemma roundPositive_lower x :
  (0 < x)%Q -> (-1022 <= binade x)%Z -> (pow2 (binade x) <= roundPositive x)%Q.
Proof.
  intros Hx He. unfold roundPositive.
  rewrite Z.max_l by lia.
  rewrite (pow2_52 (binade x)) at 1. apply grid_ge; [apply pow2_pos|].
  rewrite <- pow2_52. now destruct (binade_spec x Hx).
Qed.

Lemma roundPositive_nonneg x : (0 < x)%Q -> (0 <= roundPositive x)%Q.
Proof.
  intros Hx. unfold roundPositive.
  set (q := pow2 _). assert (Hq : (0 < q)%Q) by apply pow2_pos.
  assert (E : (inject_Z 0 * q == 0)%Q) by ring.
  rewrite <- E. apply grid_ge; [exact Hq|]. rewrite E. lra.
Qed.

Lemma roundPositive_mono x y :
  (0 < x)%Q -> (x <= y)%Q -> (roundPositive x <= roundPositive y)%Q.
Proof.
  intros Hx Hxy. assert (Hy : (0 < y)%Q) by lra.
  pose proof (binade_mono x y Hx Hxy) as Hb.
  destruct (Z.eq_dec (Z.max (binade x) (-1022)) (Z.max (binade y) (-1022))) as [E|N].
  - unfold roundPositive. rewrite E.
    set (q := pow2 _). assert (Hq : (0 < q)%Q) by apply pow2_pos.
    apply Qmult_le_compat_r; [|lra].
    rewrite <- Zle_Qle. apply roundHalfEven_mono.
    apply Qmult_le_compat_r; [exact Hxy|].
    apply Qlt_le_weak, Qinv_lt_0_compat, Hq.
  - apply Qle_trans with (pow2 (Z.max (binade x) (-1022) + 1)).
    + now apply roundPositive_upper.
    + apply Qle_trans with (pow2 (binade y)).
      * apply pow2_le. lia.
      * apply roundPositive_lower; [exact Hy|lia].
Qed.

Lemma binary64_nonneg x : (0 <= x)%Q -> (0 <= binary64 x)%Q.
Proof.
  intros H. unfold binary64. destruct x as [[|p|p] d]; simpl.
  - lra.
  - now apply roundPositive_nonneg.
  - exfalso. unfold Qle in H; simpl in H. lia.
Qed.

Lemma binary64_opp x : binary64 (- x) = (- binary64 x)%Q.
Proof.
  unfold binary64. destruct x as [[|p|p] d]; simpl; try reflexivity.
  unfold Qopp at 2. simpl.
  destruct (roundPositive (Z.pos p # d)) as [n' d']. unfold Qopp; simpl.
  now rewrite Z.opp_involutive.
Qed.

Lemma binary64_mono x y : (x <= y)%Q -> (binary64 x <= binary64 y)%Q.
Proof.
  intros H.
  destruct (Qlt_le_dec 0 x) as [Px|Nx].
  - assert (Py : (0 < y)%Q) by lra.
    unfold binary64.
    destruct x as [[|p|p] d]; try (exfalso; unfold Qlt in Px; simpl in Px; lia).
    destruct y as [[|p'|p'] d']; try (exfalso; unfold Qlt in Py; simpl in Py; lia).
    simpl. now apply roundPositive_mono.
  - destruct (Qlt_le_dec y 0) as [Ny|Py].
    + assert (E : forall z, (z < 0)%Q -> binary64 z = (- roundPositive (- z))%Q).
      { intros [[|q|q] e] Hz; try (exfalso; unfold Qlt in Hz; simpl in Hz; lia).
        reflexivity. }
      rewrite (E x), (E y) by lra.
      apply Qopp_le_compat. apply roundPositive_mono; lra.
    + apply Qle_trans with 0%Q; [|now apply binary64_nonneg].
      assert (H0 : (0 <= binary64 (- x))%Q) by (apply binary64_nonneg; lra).
      rewrite binary64_opp in H0. lra.
Qed.

Lemma binary64_comp x y : (x == y)%Q -> (binary64 x == binary64 y)%Q.
Proof.
  intros H. apply Qle_antisym; apply binary64_mono; rewrite H; apply Qle_refl.
Qed.

Lemma tenth_pos : (0 < binary64 (1 # 10))%Q.
Proof. vm_compute. reflexivity. Qed.

(** *** The difference of two doubles *)

Lemma minus64_opp x y : (minus64 y x == - minus64 x y)%Q.
Proof.
  unfold minus64. rewrite <- binary64_opp. apply binary64_comp. ring.
Qed.

Lemma minus64_mono x y x' y' :
  (binary64 x <= binary64 x')%Q -> (binary64 y' <= binary64 y)%Q ->
  (minus64 x y <= minus64 x' y')%Q.
Proof. intros Hx Hy. unfold minus64. apply binary64_mono. lra. Qed.

Lemma minus64_pos x y : (0 < minus64 x y)%Q -> (binary64 y < binary64 x)%Q.
Proof.
  intros H. apply Qnot_le_lt. intros Hle.
  assert (H0 : (minus64 x y <= binary64 0)%Q).
  { unfold minus64. apply binary64_mono. lra. }
  change (binary64 0) with 0%Q in H0. lra.
Qed.

Lemma minus64_nonneg x y : (binary64 y <= binary64 x)%Q -> (0 <= minus64 x y)%Q.
Proof.
  intros H. change 0%Q with (binary64 0). unfold minus64. apply binary64_mono. lra.
Qed.

Lemma tied_true x y :
  tied x y = true <->
  (- binary64 (1 # 10) < minus64 x y /\ minus64 x y < binary64 (1 # 10))%Q.
Proof. unfold tied. rewrite Qltb_lt. apply Qabs_Qlt_condition. Qed.

Lemma tied_false x y :
  tied x y = false <->
  (minus64 x y <= - binary64 (1 # 10) \/ binary64 (1 # 10) <= minus64 x y)%Q.
Proof.
  split.
  - intros H.
    destruct (Qlt_le_dec (- binary64 (1 # 10)) (minus64 x y)) as [H1|H1]; [|now left].
    destruct (Qlt_le_dec (minus64 x y) (binary64 (1 # 10))) as [H2|H2]; [|now right].
    assert (E : tied x y = true) by (apply tied_true; now split). congruence.
  - intros H. destruct (tied x y) eqn:E; [|reflexivity].
    apply tied_true in E. exfalso. destruct E, H; lra.
Qed.

Lemma tied_sym x y : tied x y = tied y x.
Proof.
  pose proof (minus64_opp x y) as O.
  destruct (tied y x) eqn:E.
  - apply tied_true in E. apply tied_true. destruct E. split; lra.
  - apply tied_false in E. apply tied_false. destruct E; [right|left]; lra.
Qed.

(** Three doubles, each a tenth or more above the next: so are the
    outer two. *)
Lemma far_chain x y z :
  (binary64 (1 # 10) <= minus64 x y)%Q -> (binary64 (1 # 10) <= minus64 y z)%Q ->
  (binary64 (1 # 10) <= minus64 x z)%Q.
Proof.
  intros Hxy Hyz. pose proof tenth_pos as T.
  assert (Hz : (binary64 z < binary64 y)%Q) by (apply minus64_pos; lra).
  apply Qle_trans with (1 := Hxy). apply minus64_mono; lra.
Qed.

Lemma near_then_far x y z :
  (minus64 y x < binary64 (1 # 10))%Q -> (binary64 (1 # 10) <= minus64 y z)%Q ->
  (binary64 (1 # 10) <= minus64 z x)%Q -> False.
Proof.
  intros Hyx Hyz Hzx. pose proof tenth_pos as T.
  assert (Hx : (binary64 x < binary64 z)%Q) by (apply minus64_pos; lra).
  assert (H : (minus64 y z <= minus64 y x)%Q) by (apply minus64_mono; lra).
  lra.
Qed.

Lemma far_then_near x y z :
  (binary64 (1 # 10) <= minus64 x y)%Q -> (minus64 z y < binary64 (1 # 10))%Q ->
  (binary64 (1 # 10) <= minus64 z x)%Q -> False.
Proof.
  intros Hxy Hzy Hzx. pose proof tenth_pos as T.
  assert (Hx : (binary64 x < binary64 z)%Q) by (apply minus64_pos; lra).
  assert (H : (minus64 x y <= minus64 z y)%Q) by (apply minus64_mono; lra).
  lra.
Qed.

(** *** Whole percentages, and the machine's doubles *)

(** On whole percentages the model computes what the machine computes:
    the quotient by 100 and, for percentages 9, 10 or 11 apart, where the
    rounding decides, the difference of the two quotients and the
    near-tie test, in both orders. *)
Lemma binary64_as_on_hardware :
  forallb (fun i =>
    Hardware.sameValue (Hardware.percent i) (binary64 (percent i)))
    percentages = true /\
  forallb (fun j => forallb (fun d =>
    asOnHardware (j + d) j && asOnHardware j (j + d)) [9; 10; 11])
    percentages = true.
Proof. split; vm_compute; reflexivity. Qed.

(** Below 2^-1022 as well: a seventh part of a small whole number, divided
    by 2^1000 and again by a power of two up to 2^79. *)
Lemma binary64_small_as_on_hardware :
  forallb (fun i => forallb (fun k =>
    Hardware.sameValue
      (PrimFloat.div
         (PrimFloat.div (PrimFloat.div (Hardware.ofNat i) (Hardware.ofNat 7))
                        (Hardware.twoTo 1000))
         (Hardware.twoTo k))
      (binary64 (binary64 (binary64 (inject_Z (Z.of_nat i) / 7) / pow2 1000)
                 / pow2 (Z.of_nat k))))
    [0; 1; 21; 22; 23; 50; 70; 73; 74; 75; 79]) (seq 0 8) = true.
Proof. vm_compute. reflexivity. Qed.

Lemma percent_mono i j : i <= j -> (percent i <= percent j)%Q.
Proof.
  intros H. unfold percent, Qdiv. apply Qmult_le_compat_r; [|discriminate].
  rewrite <- Zle_Qle. lia.
Qed.

Lemma percentages_band :
  forallb (fun j =>
    Qltb (minus64 (percent (j + 9)) (percent j)) (binary64 (1 # 10)) &&
    negb (Qltb (minus64 (percent (j + 11)) (percent j)) (binary64 (1 # 10))))
    percentages = true.
Proof. vm_compute. reflexivity. Qed.

(** Whole percentages 9 or less apart are in a near-tie, 11 or more apart
    are not; of those 10 apart some are (60 and 50) and some are not
    (80 and 70). *)
Lemma tied_percentages i j :
  i <= 100 -> j <= 100 ->
  (i <= j + 9 -> j <= i + 9 -> tied (percent i) (percent j) = true) /\
  (j + 11 <= i \/ i + 11 <= j -> tied (percent i) (percent j) = false).
Proof.
  assert (Hband : forall lo, lo <= 100 ->
            (minus64 (percent (lo + 9)) (percent lo) < binary64 (1 # 10))%Q /\
            (binary64 (1 # 10) <= minus64 (percent (lo + 11)) (percent lo))%Q).
  { intros lo Hlo. pose proof percentages_band as H.
    rewrite forallb_forall in H. specialize (H lo).
    rewrite andb_true_iff, negb_true_iff, Qltb_lt, Qltb_ge in H.
    apply H. apply in_seq. lia. }
  assert (Hup : forall lo hi, lo <= 100 -> lo <= hi ->
            (hi <= lo + 9 -> tied (percent hi) (percent lo) = true) /\
            (lo + 11 <= hi -> tied (percent hi) (percent lo) = false)).
  { intros lo hi Hlo Hle. destruct (Hband lo Hlo) as [Hnear Hfar].
    pose proof tenth_pos as T. split; intros H.
    - apply tied_true.
      assert (H0 : (0 <= minus64 (percent hi) (percent lo))%Q).
      { apply minus64_nonneg, binary64_mono, percent_mono. exact Hle. }
      assert (H1 : (minus64 (percent hi) (percent lo)
                    <= minus64 (percent (lo + 9)) (percent lo))%Q).
      { apply minus64_mono; [|apply Qle_refl].
        apply binary64_mono, percent_mono. exact H. }
      split; lra.
    - apply tied_false. right.
      apply Qle_trans with (1 := Hfar).
      apply minus64_mono; [|apply Qle_refl].
      apply binary64_mono, percent_mono. exact H. }
  intros Hi Hj. split.
  - intros H1 H2. destruct (Nat.le_ge_cases j i) as [Hle|Hle].
    + now apply (Hup j i).
    + rewrite tied_sym. now apply (Hup i j).
  - intros [H|H].
    + apply (Hup j i); lia.
    + rewrite tied_sym. apply (Hup i j); lia.
Qed.

Lemma tied_ten_apart :
  tied (percent 60) (percent 50) = true /\ tied (percent 80) (percent 70) = false.
Proof. split; vm_compute; reflexivity. Qed.

(** *** The comparison function *)

Lemma byConfidence_true a b :
  byConfidence a b = true <->
  (nearTie a b = true /\ isFocused (Ocr.source a) = true) \/
  (nearTie a b = false /\
   (minus64 (Ocr.confidence b) (Ocr.confidence a) < 0)%Q).
Proof.
  unfold byConfidence, compareResults. rewrite Qltb_lt.
  destruct (nearTie a b); [destruct (isFocused (Ocr.source a))|].
  - split; [auto|intros _; reflexivity].
  - split; [discriminate|intros [[_ H]|[H _]]; discriminate].
  - split.
    + intros H. right. now split.
    + intros [[H _]|[_ H]]; [discriminate|exact H].
Qed.

Lemma nearTie_sym a b : nearTie a b = nearTie b a.
Proof. apply tied_sym. Qed.

(** Outside a near-tie the comparison function puts [a] first exactly when
    the double of [a] is a tenth or more above that of [b]. *)
Lemma byConfidence_far a b :
  nearTie a b = false ->
  (byConfidence a b = true <->
   (binary64 (1 # 10) <= minus64 (Ocr.confidence a) (Ocr.confidence b))%Q).
Proof.
  intros Hn. rewrite byConfidence_true, Hn.
  pose proof (minus64_opp (Ocr.confidence a) (Ocr.confidence b)) as O.
  pose proof tenth_pos as T.
  apply tied_false in Hn.
  split.
  - intros [[? _]|[_ H]]; [discriminate|]. destruct Hn; lra.
  - intros H. right. split; [reflexivity|lra].
Qed.

Lemma separable_sym a b : separable a b = separable b a.
Proof. unfold separable. now rewrite nearTie_sym, xorb_comm. Qed.

Lemma separable_cases a b :
  separable a b = true ->
  nearTie a b = false \/
  (nearTie a b = true /\ isFocused (Ocr.source a) <> isFocused (Ocr.source b)).
Proof.
  unfold separable. destruct (nearTie a b); simpl; [|now left].
  intros H. right. split; [reflexivity|].
  destruct (isFocused (Ocr.source a)), (isFocused (Ocr.source b)); simpl in H; congruence.
Qed.

Lemma byConfidence_total a b :
  separable a b = true -> byConfidence a b = false -> byConfidence b a = true.
Proof.
  intros Hs Hf.
  destruct (separable_cases _ _ Hs) as [Hn|[Hn Hx]].
  - assert (Hn' : nearTie b a = false) by now rewrite nearTie_sym.
    apply (byConfidence_far b a Hn').
    pose proof (minus64_opp (Ocr.confidence a) (Ocr.confidence b)) as O.
    pose proof (proj1 (tied_false _ _) Hn) as [H|H].
    + lra.
    + exfalso. apply (byConfidence_far a b Hn) in H. congruence.
  - apply byConfidence_true. left. split; [now rewrite nearTie_sym|].
    destruct (isFocused (Ocr.source b)) eqn:Eb; [reflexivity|].
    exfalso. assert (Ht : byConfidence a b = true).
    { apply byConfidence_true. left. split; [exact Hn|].
      destruct (isFocused (Ocr.source a)); congruence. }
    congruence.
Qed.

Lemma byConfidence_asym a b :
  separable a b = true -> byConfidence a b = true -> byConfidence b a = true -> False.
Proof.
  intros Hs Hab Hba.
  destruct (separable_cases _ _ Hs) as [Hn|[Hn Hx]].
  - assert (Hn' : nearTie b a = false) by now rewrite nearTie_sym.
    apply (byConfidence_far a b Hn) in Hab. apply (byConfidence_far b a Hn') in Hba.
    pose proof (minus64_opp (Ocr.confidence a) (Ocr.confidence b)) as O.
    pose proof tenth_pos as T. lra.
  - apply byConfidence_true in Hab. apply byConfidence_true in Hba.
    rewrite (nearTie_sym b a), Hn in Hba. rewrite Hn in Hab.
    destruct Hab as [[_ Hab]|[? _]]; [|discriminate].
    destruct Hba as [[_ Hba]|[? _]]; [|discriminate]. congruence.
Qed.

Lemma byConfidence_trans a b c :
  separable a b = true -> separable b c = true -> separable a c = true ->
  byConfidence a b = true -> byConfidence b c = true -> byConfidence a c = true.
Proof.
  intros Sab Sbc Sac Hab Hbc.
  pose proof (minus64_opp (Ocr.confidence a) (Ocr.confidence b)) as Oab.
  pose proof (minus64_opp (Ocr.confidence b) (Ocr.confidence c)) as Obc.
  pose proof (minus64_opp (Ocr.confidence a) (Ocr.confidence c)) as Oac.
  pose proof tenth_pos as T.
  destruct (nearTie a b) eqn:Nab; destruct (nearTie b c) eqn:Nbc.
  - (* two near-ties: [a] and [b] would both be the focused one *)
    exfalso.
    apply byConfidence_true in Hab as [[_ Fa]|[? _]]; [|congruence].
    apply byConfidence_true in Hbc as [[_ Fb]|[? _]]; [|congruence].
    destruct (separable_cases _ _ Sab) as [?|[_ X]]; congruence.
  - apply byConfidence_true in Hab as [[_ Fa]|[? _]]; [|congruence].
    apply (byConfidence_far b c Nbc) in Hbc.
    destruct (nearTie a c) eqn:Nac.
    + apply byConfidence_true. left. now split.
    + apply (byConfidence_far a c Nac).
      apply tied_true in Nab as [Nab1 Nab2].
      pose proof (proj1 (tied_false _ _) Nac) as [H|H]; [|exact H].
      exfalso.
      apply (near_then_far (Ocr.confidence a) (Ocr.confidence b) (Ocr.confidence c));
        lra.
  - apply (byConfidence_far a b Nab) in Hab.
    apply byConfidence_true in Hbc as [[_ Fb]|[? _]]; [|congruence].
    assert (Fc : isFocused (Ocr.source c) = false).
    { destruct (separable_cases _ _ Sbc) as [?|[_ X]]; [congruence|].
      destruct (isFocused (Ocr.source c)); congruence. }
    destruct (nearTie a c) eqn:Nac.
    + apply byConfidence_true. left. split; [exact Nac|].
      destruct (separable_cases _ _ Sac) as [?|[_ X]]; [congruence|].
      destruct (isFocused (Ocr.source a)); congruence.
    + apply (byConfidence_far a c Nac).
      apply tied_true in Nbc as [Nbc1 Nbc2].
      pose proof (proj1 (tied_false _ _) Nac) as [H|H]; [|exact H].
      exfalso.
      apply (far_then_near (Ocr.confidence a) (Ocr.confidence b) (Ocr.confidence c));
        lra.
  - apply (byConfidence_far a b Nab) in Hab.
    apply (byConfidence_far b c Nbc) in Hbc.
    pose proof (far_chain _ _ _ Hab Hbc) as Hac.
    assert (Nac : nearTie a c = false) by (apply tied_false; now right).
    now apply (byConfidence_far a c Nac).
Qed.

Lemma pairwiseSeparable_In l :
  pairwiseSeparable l ->
  forall x y, In x l -> In y l -> x = y \/ separable x y = true.
Proof.
  intros H x y Hx Hy.
  destruct (ForallOrdPairs_In H x y Hx Hy) as [E|[S|S]]; auto.
  right. now rewrite separable_sym.
Qed.

Section ConfidenceOrder.
Variable l : list Ocr.Result.
Hypothesis Hsep :
  forall x y, In x l -> In y l -> x = y \/ separable x y = true.

Lemma rankedBefore_trans x y z :
  In x l -> In y l -> In z l ->
  rankedBefore x y -> rankedBefore y z -> rankedBefore x z.
Proof.
  intros Hx Hy Hz [->|Hxy] [->|Hyz]; try (now left); try (now right).
  destruct (Hsep x z Hx Hz) as [E|Sxz]; [now left|].
  destruct (Hsep x y Hx Hy) as [->|Sxy]; [now right|].
  destruct (Hsep y z Hy Hz) as [->|Syz]; [now right|].
  right. now apply byConfidence_trans with y.
Qed.

Lemma rankedBefore_antisym x y :
  In x l -> In y l -> rankedBefore x y -> rankedBefore y x -> x = y.
Proof.
  intros Hx Hy [E|Hxy] [E'|Hyx]; try congruence.
  destruct (Hsep x y Hx Hy) as [E|S]; [exact E|].
  exfalso. now apply (byConfidence_asym x y).
Qed.

Lemma sortBy_byConfidence_sorted :
  StronglySorted rankedBefore (sortBy byConfidence l).
Proof.
  apply sortBy_sorted.
  - intros x y _ _ H. now right.
  - intros x y Hx Hy H. destruct (Hsep x y Hx Hy) as [->|S]; [now left|].
    right. now apply byConfidence_total.
  - apply rankedBefore_trans.
Qed.
End ConfidenceOrder.

(** On a pairwise separable list the ranking does not depend on the order
    in which the results are listed. *)
Lemma sortBy_byConfidence_order_free l l' :
  pairwiseSeparable l -> Permutation l l' ->
  sortBy byConfidence l = sortBy byConfidence l'.
Proof.
  intros Hp Hperm. pose proof (pairwiseSeparable_In l Hp) as Hsep.
  assert (Hsep' : forall x y, In x l' -> In y l' -> x = y \/ separable x y = true).
  { intros x y Hx Hy.
    apply Hsep; eapply Permutation_in; try apply Permutation_sym; eassumption. }
  apply sorted_unique with rankedBefore.
  - intros x y Hx Hy. apply rankedBefore_antisym with l; trivial;
      eapply Permutation_in; try apply sortBy_perm; eassumption.
  - rewrite !sortBy_perm. exact Hperm.
  - now apply sortBy_byConfidence_sorted.
  - now apply sortBy_byConfidence_sorted.
Qed.

Lemma sortBy_pair (a b : Ocr.Result) :
  sortBy byConfidence [a; b] = if byConfidence b a then [b; a] else [a; b].
Proof. reflexivity. Qed.

Lemma detect_of_results obs1 obs2 :
  length (ocrResults obs1) = length (ocrResults obs2) ->
  sortBy byConfidence (ocrResults obs1) = sortBy byConfidence (ocrResults obs2) ->
  detectPlateWithOCR obs1 = detectPlateWithOCR obs2.
Proof. unfold detectPlateWithOCR. now intros -> ->. Qed.

(** C8 (the claim fails). Two results in a near-tie, neither from the
    focused variant: the one listed first wins, in both orders. *)
Lemma C8_listing_order_decides :
  Permutation [obs "ABC-12-34" 50 alto_contraste; obs "XYZ-56-78" 55 escalada]
              [obs "XYZ-56-78" 55 escalada; obs "ABC-12-34" 50 alto_contraste] /\
  plateText (detectPlateWithOCR
               [obs "ABC-12-34" 50 alto_contraste; obs "XYZ-56-78" 55 escalada])
    = Some (str "ABC-12-34") /\
  plateText (detectPlateWithOCR
               [obs "XYZ-56-78" 55 escalada; obs "ABC-12-34" 50 alto_contraste])
    = Some (str "XYZ-56-78").
Proof.
  split; [apply perm_swap|]. split; vm_compute; reflexivity.
Qed.

(** C8 (amended). When every two validated results are separable, that is
    the near-tie test of the comparison function ([|a - b| < 0.1],
    evaluated on doubles) fails for them or exactly one of the two comes
    from the focused variant, the outcome of [detectPlateWithOCR] (best
    plate, confidence, source and the ranked list) is the same for every
    order of the observations. *)
Theorem C8_order_free_when_separable (obs1 obs2 : list Observation) :
  Permutation obs1 obs2 ->
  pairwiseSeparable (ocrResults obs1) ->
  detectPlateWithOCR obs1 = detectPlateWithOCR obs2.
Proof.
  intros Hperm Hsep.
  assert (Hres : Permutation (ocrResults obs1) (ocrResults obs2)).
  { unfold ocrResults. now apply Permutation_flat_map. }
  apply detect_of_results.
  - now apply Permutation_length.
  - now apply sortBy_byConfidence_order_free.
Qed.

Lemma C8_witness :
  detectPlateWithOCR
    [obs "ABC-12-34" 50 alto_contraste; obs "XYZ-56-78" 55 enfocada;
     obs "GZW-002-A" 80 escalada] =
  detectPlateWithOCR
    [obs "GZW-002-A" 80 escalada; obs "ABC-12-34" 50 alto_contraste;
     obs "XYZ-56-78" 55 enfocada].
Proof.
  apply C8_order_free_when_separable.
  - apply Permutation_sym.
    apply (Permutation_cons_app [_; _] [] (obs "GZW-002-A" 80 escalada)).
    reflexivity.
  - unfold pairwiseSeparable.
    match goal with
    | |- ForallOrdPairs _ ?l =>
        let l' := eval vm_compute in l in change l with l'
    end.
    repeat match goal with
           | |- ForallOrdPairs _ _ => constructor
           | |- Forall _ _ => constructor
           | |- _ = true => vm_compute; reflexivity
           end.
Defined.

(** ** Candidate scores against OCR confidence *)

Lemma ocrResults_validated o pl (rest : list Observation) :
  validateMexicanPlate (Some (text o)) = Some pl ->
  ocrResults (o :: rest) =
  {| Ocr.plateText := pl; Ocr.confidence := ocrConfidence o / 100;
     Ocr.rawText := text o; Ocr.source := variantName o |} :: ocrResults rest.
Proof.
  intros H. unfold ocrResults. cbn [flat_map]. rewrite H.
  destruct (validate_sound _ _ _ _ _ _ H) as (_ & _ & _ & [Hl _] & _).
  destruct pl; [simpl in Hl; lia|reflexivity].
Qed.

Lemma validated_top_score t pl :
  validateMexicanPlate (Some t) = Some pl ->
  forall c, In c (collect 6 MEXICAN_PLATE_PATTERNS scoreMatch
                    (cleanText serverDenylist t)) ->
            (score c <= scoreMatch pl)%Z.
Proof.
  intros H c Hc.
  apply validate_Some in H as (t' & c0 & rest & [= <-] & _ & Es & ->).
  destruct (sortBy_byScore_head _ _ _ Es) as [Hin Hmax].
  apply in_collect in Hin as (p & m & _ & _ & _ & ->). simpl.
  apply (Hmax c Hc).
Qed.

(** C1 (the claim fails). The focused variant reads "XXX-111-A"
    (score 80) with confidence 90, another variant reads "ABC-12-34"
    (score 110) with confidence 50: "XXX-111-A" is ranked first in both
    processing orders. *)
Lemma C1_lower_score_ranked_first :
  scoreMatch (str "XXX-111-A") = 80%Z /\
  scoreMatch (str "ABC-12-34") = 110%Z /\
  validateMexicanPlate (Some (str "XXX-111-A")) = Some (str "XXX-111-A") /\
  validateMexicanPlate (Some (str "ABC-12-34")) = Some (str "ABC-12-34") /\
  plateText (detectPlateWithOCR
               [obs "XXX-111-A" 90 enfocada; obs "ABC-12-34" 50 alto_contraste])
    = Some (str "XXX-111-A") /\
  plateText (detectPlateWithOCR
               [obs "ABC-12-34" 50 alto_contraste; obs "XXX-111-A" 90 enfocada])
    = Some (str "XXX-111-A").
Proof. repeat split; vm_compute; reflexivity. Qed.

(** C1 (amended). Candidates are pooled and ranked by score inside one
    observation only: the plate validated for an observation has the
    largest score among the candidates of that observation's text.  Across
    two observations the validated plates are ranked by OCR confidence and
    the candidate scores play no part: when the near-tie test of the
    comparison function fails for the two confidences ([|a - b| < 0.1],
    evaluated on doubles), the plate of the more confident observation
    comes first in both processing orders. *)
Theorem C1_ranked_by_confidence (o1 o2 : Observation) (p1 p2 : jsstring) :
  validateMexicanPlate (Some (text o1)) = Some p1 ->
  validateMexicanPlate (Some (text o2)) = Some p2 ->
  tied (ocrConfidence o1 / 100) (ocrConfidence o2 / 100) = false ->
  (ocrConfidence o2 < ocrConfidence o1)%Q ->
  (forall c, In c (collect 6 MEXICAN_PLATE_PATTERNS scoreMatch
                     (cleanText serverDenylist (text o1))) ->
             (score c <= scoreMatch p1)%Z) /\
  (forall c, In c (collect 6 MEXICAN_PLATE_PATTERNS scoreMatch
                     (cleanText serverDenylist (text o2))) ->
             (score c <= scoreMatch p2)%Z) /\
  plateText (detectPlateWithOCR [o1; o2]) = Some p1 /\
  plateText (detectPlateWithOCR [o2; o1]) = Some p1.
Proof.
  intros H1 H2 Hfar Hc.
  split; [now apply validated_top_score|]. split; [now apply validated_top_score|].
  set (r1 := {| Ocr.plateText := p1; Ocr.confidence := ocrConfidence o1 / 100;
                Ocr.rawText := text o1; Ocr.source := variantName o1 |}).
  set (r2 := {| Ocr.plateText := p2; Ocr.confidence := ocrConfidence o2 / 100;
                Ocr.rawText := text o2; Ocr.source := variantName o2 |}).
  assert (N12 : nearTie r1 r2 = false) by exact Hfar.
  assert (N21 : nearTie r2 r1 = false) by now rewrite nearTie_sym.
  pose proof (minus64_opp (ocrConfidence o1 / 100) (ocrConfidence o2 / 100)) as O.
  pose proof tenth_pos as T.
  assert (Hpos : (0 <= minus64 (ocrConfidence o1 / 100) (ocrConfidence o2 / 100))%Q).
  { apply minus64_nonneg. apply binary64_mono. unfold Qdiv.
    apply Qmult_le_compat_r; [lra|discriminate]. }
  assert (H12 : byConfidence r1 r2 = true).
  { apply (byConfidence_far r1 r2 N12). unfold r1, r2; simpl.
    apply tied_false in Hfar as [H|H]; [lra|exact H]. }
  assert (H21 : byConfidence r2 r1 = false).
  { destruct (byConfidence r2 r1) eqn:E; [|reflexivity].
    apply (byConfidence_far r2 r1 N21) in E. unfold r1, r2 in E; simpl in E. lra. }
  unfold detectPlateWithOCR.
  rewrite (ocrResults_validated o1 p1 [o2] H1), (ocrResults_validated o2 p2 [] H2).
  rewrite (ocrResults_validated o2 p2 [o1] H2), (ocrResults_validated o1 p1 [] H1).
  change (ocrResults []) with (@nil Ocr.Result).
  fold r1 r2. rewrite !sortBy_pair, H12, H21. split; reflexivity.
Qed.

Lemma C1_witness :
  plateText (detectPlateWithOCR
               [obs "GZW-002-A" 80 escalada; obs "ABC-12-34" 50 alto_contraste])
    = Some (str "GZW-002-A") /\
  plateText (detectPlateWithOCR
               [obs "ABC-12-34" 50 alto_contraste; obs "GZW-002-A" 80 escalada])
    = Some (str "GZW-002-A").
Proof.
  apply (C1_ranked_by_confidence (obs "GZW-002-A" 80 escalada)
           (obs "ABC-12-34" 50 alto_contraste) (str "GZW-002-A") (str "ABC-12-34")).
  - vm_compute. reflexivity.
  - vm_compute. reflexivity.
  - vm_compute. reflexivity.
  - vm_compute. reflexivity.
Defined.

(** ** Selection among the regions *)

Lemma find_first (A : Type) (f : A -> bool) pre x post :
  (forall y, In y pre -> f y = false) -> f x = true ->
  find f (pre ++ x :: post) = Some x.
Proof.
  induction pre as [|y pre IH]; intros Hpre Hx; simpl.
  - now rewrite Hx.
  - rewrite (Hpre y) by now left. apply IH; [|exact Hx].
    intros z Hz. apply Hpre. now right.
Qed.

Lemma find_none_all (A : Type) (f : A -> bool) l :
  (forall y, In y l -> f y = false) -> find f l = None.
Proof.
  induction l as [|y l IH]; intros H; simpl; [reflexivity|].
  rewrite (H y) by now left. apply IH. intros z Hz. apply H. now right.
Qed.

(** C7 (the claim fails). Two regions yield a plate with a confidence of
    at most 0.1, in a near-tie; the second comes from the focused variant,
    the first does not.  The handler takes the first. *)
Lemma C7_fallback_ignores_source :
  let first := detectPlateWithOCR [obs "ABC-12-34" 5 alto_contraste] in
  let second := detectPlateWithOCR [obs "XYZ-56-78" 8 enfocada] in
  let results :=
    plateResults (Some [obs "ABC-12-34" 5 alto_contraste])
                 [obs "XYZ-56-78" 8 enfocada] [] in
  find confidentPlate results = None /\
  hasPlate first = true /\ hasPlate second = true /\
  processingMethod first = Some alto_contraste /\
  processingMethod second = Some enfocada /\
  Qltb (Qabs (confidence first - confidence second)) (1 # 10) = true /\
  selectPlateDetection results = first /\
  plateText (selectPlateDetection results) = Some (str "ABC-12-34").
Proof. repeat split; vm_compute; reflexivity. Qed.

(** C7 (amended). The handler takes the first region result, in the fixed
    order of the array, whose plate has a confidence above 0.1; failing
    that, the first region result with a plate, without looking at
    confidence or source; failing that, the result for the full image
    (index 1).  The preference for the focused variant among near-ties
    belongs to the ranking inside [detectPlateWithOCR]: of two results in a
    near-tie of which only one is focused, that one is ranked first in
    both orders. *)
Theorem C7_selection_stages
    (pre post : list (option PlateDetection)) (d : PlateDetection)
    (a b : Ocr.Result) :
  (forall r, In r pre -> confidentPlate r = false) ->
  nearTie a b = true ->
  isFocused (Ocr.source a) = true -> isFocused (Ocr.source b) = false ->
  (confidentPlate (Some d) = true ->
   selectPlateDetection (pre ++ Some d :: post) = d) /\
  ((forall r, In r post -> confidentPlate r = false) ->
   (forall r, In r pre -> anyPlate r = false) ->
   confidentPlate (Some d) = false -> hasPlate d = true ->
   selectPlateDetection (pre ++ Some d :: post) = d) /\
  (forall vehicle full bottom,
     (forall r, In r (plateResults vehicle full bottom) -> anyPlate r = false) ->
     selectPlateDetection (plateResults vehicle full bottom)
     = detectPlateWithOCR full) /\
  sortBy byConfidence [a; b] = [a; b] /\
  sortBy byConfidence [b; a] = [a; b].
Proof.
  intros Hpre Hnear Fa Fb.
  assert (Hab : byConfidence a b = true).
  { apply byConfidence_true. left. now split. }
  assert (Hba : byConfidence b a = false).
  { destruct (byConfidence b a) eqn:E; [|reflexivity].
    apply byConfidence_true in E. rewrite nearTie_sym, Hnear in E.
    destruct E as [[_ E]|[E _]]; congruence. }
  split; [|split; [|split; [|split]]].
  - intros Hd. unfold selectPlateDetection.
    now rewrite (find_first _ confidentPlate pre (Some d) post Hpre Hd).
  - intros Hpost Hany Hd Hp. unfold selectPlateDetection.
    rewrite find_none_all.
    + now rewrite (find_first _ anyPlate pre (Some d) post Hany Hp).
    + intros y Hy. apply in_app_or in Hy as [Hy|[<-|Hy]]; auto.
  - intros vehicle full bottom Hnone. unfold selectPlateDetection.
    assert (Hc : forall r, In r (plateResults vehicle full bottom) ->
                           confidentPlate r = false).
    { intros [r|] Hr; [|reflexivity]. apply Hnone in Hr. simpl in *. now rewrite Hr. }
    rewrite (find_none_all _ _ _ Hc), (find_none_all _ _ _ Hnone). reflexivity.
  - now rewrite sortBy_pair, Hba.
  - now rewrite sortBy_pair, Hab.
Qed.

Lemma C7_witness :
  selectPlateDetection
    ([None] ++ Some (detectPlateWithOCR [obs "NCM-27-04" 85 enfocada])
       :: [Some noPlate])
    = detectPlateWithOCR [obs "NCM-27-04" 85 enfocada] /\
  selectPlateDetection
    ([None] ++ Some (detectPlateWithOCR [obs "NCM-27-04" 7 enfocada])
       :: [Some noPlate])
    = detectPlateWithOCR [obs "NCM-27-04" 7 enfocada] /\
  selectPlateDetection (plateResults None [obs "HELLO WORLD" 90 enfocada] [])
  = detectPlateWithOCR [obs "HELLO WORLD" 90 enfocada] /\
  sortBy byConfidence
    [ {| Ocr.plateText := str "NCM-27-04"; Ocr.confidence := 1 # 2;
         Ocr.rawText := str "NCM-27-04"; Ocr.source := enfocada |};
      {| Ocr.plateText := str "NCM-27-04"; Ocr.confidence := 11 # 20;
         Ocr.rawText := str "NCM-27-04"; Ocr.source := escalada |} ]
  = sortBy byConfidence
    [ {| Ocr.plateText := str "NCM-27-04"; Ocr.confidence := 11 # 20;
         Ocr.rawText := str "NCM-27-04"; Ocr.source := escalada |};
      {| Ocr.plateText := str "NCM-27-04"; Ocr.confidence := 1 # 2;
         Ocr.rawText := str "NCM-27-04"; Ocr.source := enfocada |} ].
Proof.
  pose (a := {| Ocr.plateText := str "NCM-27-04"; Ocr.confidence := 1 # 2;
                Ocr.rawText := str "NCM-27-04"; Ocr.source := enfocada |}).
  pose (b := {| Ocr.plateText := str "NCM-27-04"; Ocr.confidence := 11 # 20;
                Ocr.rawText := str "NCM-27-04"; Ocr.source := escalada |}).
  assert (Hpre : forall r, In r [@None PlateDetection] -> confidentPlate r = false).
  { intros r [<-|[]]. reflexivity. }
  assert (Hpost : forall r, In r [Some noPlate] -> confidentPlate r = false).
  { intros r [<-|[]]. reflexivity. }
  assert (Hany : forall r, In r [@None PlateDetection] -> anyPlate r = false).
  { intros r [<-|[]]. reflexivity. }
  assert (Hnear : nearTie a b = true) by (vm_compute; reflexivity).
  assert (Fa : isFocused (Ocr.source a) = true) by reflexivity.
  assert (Fb : isFocused (Ocr.source b) = false) by reflexivity.
  destruct (C7_selection_stages [None] [Some noPlate]
              (detectPlateWithOCR [obs "NCM-27-04" 85 enfocada]) a b
              Hpre Hnear Fa Fb) as (H1 & _ & H3 & H4 & H5).
  destruct (C7_selection_stages [None] [Some noPlate]
              (detectPlateWithOCR [obs "NCM-27-04" 7 enfocada]) a b
              Hpre Hnear Fa Fb) as (_ & H2 & _).
  split; [apply H1; vm_compute; reflexivity|].
  split; [apply H2; try assumption; vm_compute; reflexivity|].
  split.
  { apply H3. intros r Hr. simpl in Hr.
    destruct Hr as [<-|[<-|[<-|[]]]]; vm_compute; reflexivity. }
  fold a b. now rewrite H4, H5.
Defined.

(** * Further properties of the validator *)

(** ** Lengths of matches *)

Lemma run_le_length k s : run k s <= length s.
Proof.
  induction s as [|c s IH]; simpl; [lia|]. destruct (inCls k c); lia.
Qed.

Lemma matchPat_length p : forall s rest,
  In rest (matchPat p s) ->
  patMin p + length rest <= length s /\ length s <= patMax p + length rest.
Proof.
  induction p as [|[k lo hi] p IH]; intros s rest Hin.
  - simpl in Hin. destruct Hin as [<-|[]]. unfold patMin, patMax. simpl. lia.
  - simpl in Hin. apply in_flat_map in Hin as (n & Hn & Hrest).
    apply in_counts in Hn as (Hlo & Hhi & Hrun).
    destruct (IH _ _ Hrest) as [H1 H2]. rewrite length_skipn in H1, H2.
    pose proof (run_le_length k s). unfold patMin, patMax in *. simpl. lia.
Qed.

Lemma matchAll_length p s m :
  In m (matchAll p s) -> patMin p <= length m /\ length m <= patMax p.
Proof.
  intros Hin. destruct (matchAll_sound _ _ _ Hin) as (_ & _ & Ht).
  unfold test in Ht. apply existsb_exists in Ht as (rest & Hrest & Hnil).
  destruct rest; [|discriminate].
  destruct (matchPat_length _ _ _ Hrest) as [H1 H2]. simpl in H1, H2. lia.
Qed.

(** X1. A match of any of the nine patterns is at most 9 characters long,
    so the upper bound 10 of the length guard never rejects anything; and
    only the last, permissive pattern can give a match shorter than 6. *)
Theorem X1_match_lengths (clean : jsstring) (p : pattern) (m : jsstring) :
  In p MEXICAN_PLATE_PATTERNS -> In m (matchAll p clean) ->
  4 <= length m /\ length m <= 9 /\
  accepted 6 m = (6 <=? length m) /\
  (length m < 6 -> p = [Rep Upper 2 3; Rep Digit 2 4; Rep Upper 0 1]).
Proof.
  intros Hp Hm. pose proof (matchAll_length _ _ _ Hm) as Hlen.
  assert (Hb : 4 <= length m /\ length m <= 9 /\
               (length m < 6 -> p = [Rep Upper 2 3; Rep Digit 2 4; Rep Upper 0 1])).
  { simpl in Hp.
    repeat (destruct Hp as [<-|Hp];
            [unfold patMin, patMax in Hlen; simpl in Hlen;
             repeat split; try lia; auto|]).
    contradiction. }
  destruct Hb as (H1 & H2 & H3). repeat split; try assumption.
  unfold accepted. replace (length m <=? 10) with true; [apply andb_true_r|].
  symmetry. apply Nat.leb_le. lia.
Qed.

Lemma X1_witness :
  4 <= length (str "AB123") /\ length (str "AB123") <= 9 /\
  accepted 6 (str "AB123") = (6 <=? length (str "AB123")) /\
  (length (str "AB123") < 6 ->
   [Rep Upper 2 3; Rep Digit 2 4; Rep Upper 0 1]
   = [Rep Upper 2 3; Rep Digit 2 4; Rep Upper 0 1]).
Proof.
  apply (X1_match_lengths (str "AB123-")).
  - vm_compute. tauto.
  - vm_compute. auto.
Defined.

(** ** Cleaning *)

Lemma allowed_not_lower c : allowedChar c = true -> isLower c = false.
Proof.
  unfold allowedChar, isUpper, isDigit, isDash, isSpace, isLower. intros H.
  rewrite !orb_true_iff, !andb_true_iff, !Nat.leb_le, !Nat.eqb_eq in H.
  rewrite andb_false_iff, !Nat.leb_gt. lia.
Qed.

Lemma allowed_not_dot c : allowedChar c = true -> code c <> 46.
Proof.
  unfold allowedChar, isUpper, isDigit, isDash, isSpace. intros H.
  rewrite !orb_true_iff, !andb_true_iff, !Nat.leb_le, !Nat.eqb_eq in H. lia.
Qed.

Lemma upperChar_allowed c : allowedChar c = true -> upperChar c = c.
Proof. intros H. unfold upperChar. now rewrite (allowed_not_lower _ H). Qed.

Lemma stripDisallowed_allowed t : Forall (fun c => allowedChar c = true) (stripDisallowed t).
Proof. apply Forall_forall. intros c Hc. now apply filter_In in Hc. Qed.

Lemma startsWithCI_dot lit s :
  In "."%char lit -> Forall (fun c => allowedChar c = true) s ->
  startsWithCI lit s = false.
Proof.
  revert s. induction lit as [|a lit IH]; intros s Hin Hs; [contradiction|].
  destruct s as [|b s]; [reflexivity|]. simpl.
  inversion Hs as [|? ? Hb Hs']; subst.
  destruct Hin as [->|Hin].
  - apply andb_false_iff. left. rewrite (upperChar_allowed _ Hb).
    unfold ascii_eqb. apply Nat.eqb_neq. intros E.
    apply (allowed_not_dot _ Hb). now rewrite <- E.
  - apply andb_false_iff. right. now apply IH.
Qed.

Lemma removeLiteralCI_dot lit s :
  In "."%char lit -> Forall (fun c => allowedChar c = true) s ->
  removeLiteralCI lit s = s.
Proof.
  intros Hin. unfold removeLiteralCI.
  induction s as [|c s IH]; intros Hs; [reflexivity|].
  simpl removeFrom. rewrite (startsWithCI_dot _ _ Hin Hs).
  inversion Hs; subst. now rewrite IH.
Qed.

Lemma removeFrom_Forall (P : ascii -> Prop) lit : forall s skip,
  Forall P s -> Forall P (removeFrom lit s skip).
Proof.
  induction s as [|c s IH]; intros skip Hs; simpl; [constructor|].
  inversion Hs; subst.
  destruct skip; [|now apply IH].
  destruct (startsWithCI lit (c :: s)); [now apply IH|].
  constructor; [assumption|now apply IH].
Qed.

Lemma toUpperCase_allowed s :
  Forall (fun c => allowedChar c = true) s -> toUpperCase s = s.
Proof.
  unfold toUpperCase. induction 1 as [|c s Hc _ IH]; simpl; [reflexivity|].
  now rewrite IH, (upperChar_allowed _ Hc).
Qed.

Lemma stripSpaces_allowed s :
  Forall (fun c => allowedChar c = true) s ->
  Forall (fun c => allowedChar c = true) (stripSpaces s) /\
  Forall (fun c => plateChar c = true) (stripSpaces s).
Proof.
  intros Hs. rewrite Forall_forall in Hs. unfold stripSpaces.
  split; apply Forall_forall; intros c Hc; apply filter_In in Hc as [Hc Hn].
  - now apply Hs.
  - apply Hs in Hc. unfold allowedChar in Hc. unfold plateChar.
    apply negb_true_iff in Hn. rewrite Hn, orb_false_r in Hc. exact Hc.
Qed.

Lemma fold_remove_Forall (P : ascii -> Prop) lits : forall s,
  Forall P s -> Forall P (fold_left (fun s lit => removeLiteralCI lit s) lits s).
Proof.
  induction lits as [|lit lits IH]; intros s Hs; simpl; [exact Hs|].
  apply IH. now apply removeFrom_Forall.
Qed.

Lemma cleanText_steps (t : jsstring) :
  cleanText serverDenylist t
  = stripSpaces (removeLiteralCI (str "platesmania") (stripDisallowed t)) /\
  Forall (fun c => plateChar c = true) (cleanText serverDenylist t) /\
  cleanText Standalone.denylist t
  = stripSpaces
      (removeLiteralCI (str "guerrero")
         (removeLiteralCI (str "katz")
            (removeLiteralCI (str "major")
               (removeLiteralCI (str "platesmania") (stripDisallowed t))))) /\
  Forall (fun c => plateChar c = true) (cleanText Standalone.denylist t).
Proof.
  pose proof (stripDisallowed_allowed t) as H0.
  assert (H1 : Forall (fun c => allowedChar c = true)
                 (removeLiteralCI (str "platesmania") (stripDisallowed t)))
    by now apply removeFrom_Forall.
  assert (Hdot1 : In "."%char (str "www.")) by (simpl; tauto).
  assert (Hdot2 : In "."%char (str ".com")) by (simpl; tauto).
  assert (Hup : forall lits,
            toUpperCase (stripSpaces
              (fold_left (fun s lit => removeLiteralCI lit s) lits (stripDisallowed t)))
            = stripSpaces
              (fold_left (fun s lit => removeLiteralCI lit s) lits (stripDisallowed t))).
  { intros lits. apply toUpperCase_allowed.
    apply stripSpaces_allowed. now apply fold_remove_Forall. }
  assert (Hpl : forall lits, Forall (fun c => plateChar c = true)
            (cleanText lits t)).
  { intros lits. unfold cleanText. rewrite Hup.
    apply stripSpaces_allowed. now apply fold_remove_Forall. }
  split; [|split; [apply Hpl|split; [|apply Hpl]]].
  - unfold cleanText. rewrite Hup. unfold serverDenylist. cbn [fold_left map].
    rewrite (removeLiteralCI_dot (str "www.") _ Hdot1 H1).
    now rewrite (removeLiteralCI_dot (str ".com") _ Hdot2 H1).
  - unfold cleanText. rewrite Hup. unfold Standalone.denylist. cbn [fold_left map].
    rewrite (removeLiteralCI_dot (str "www.") _ Hdot1 H1).
    now rewrite (removeLiteralCI_dot (str ".com") _ Hdot2 H1).
Qed.

(** X2. In the server validator the removals of "www." and ".com" and the
    final upper-casing never change anything: the first replacement has
    already deleted every dot and every lower-case letter.  The cleaned
    text is the text without disallowed characters, without "PLATESMANIA"
    and without white space, and it is made of upper-case letters, digits
    and dashes only.  The standalone copy behaves alike, its three extra
    words being removed as well. *)
Theorem X2_cleanText_effective_steps (t : jsstring) :
  cleanText serverDenylist t
  = stripSpaces (removeLiteralCI (str "platesmania") (stripDisallowed t)) /\
  Forall (fun c => plateChar c = true) (cleanText serverDenylist t) /\
  cleanText Standalone.denylist t
  = stripSpaces
      (removeLiteralCI (str "guerrero")
         (removeLiteralCI (str "katz")
            (removeLiteralCI (str "major")
               (removeLiteralCI (str "platesmania") (stripDisallowed t))))) /\
  Forall (fun c => plateChar c = true) (cleanText Standalone.denylist t).
Proof. apply cleanText_steps. Qed.

Lemma removeFrom_no_occurrence lit s :
  occursCI lit s = false -> removeFrom lit s 0 = s.
Proof.
  induction s as [|c s IH]; intros H; [reflexivity|].
  simpl in H. apply orb_false_iff in H as [H1 H2].
  simpl removeFrom.
  change (match lit with
          | [] => true
          | a :: lit' => ascii_eqb (upperChar a) (upperChar c) && startsWithCI lit' s
          end) with (startsWithCI lit (c :: s)).
  rewrite H1. now rewrite IH.
Qed.

Lemma filter_all (A : Type) (f : A -> bool) l :
  Forall (fun x => f x = true) l -> filter f l = l.
Proof.
  induction 1 as [|x l Hx _ IH]; simpl; [reflexivity|]. now rewrite Hx, IH.
Qed.

Lemma plateChar_allowed c : plateChar c = true -> allowedChar c = true.
Proof. unfold plateChar, allowedChar. intros ->. reflexivity. Qed.

(** X3. A text that is already canonical (upper-case letters, digits and
    dashes only) and does not contain the watermark "PLATESMANIA" is left
    unchanged by the cleaning. *)
Theorem X3_canonical_text_unchanged (t : jsstring) :
  Forall (fun c => plateChar c = true) t ->
  occursCI (str "platesmania") t = false ->
  cleanText serverDenylist t = t.
Proof.
  intros Hp Hocc.
  destruct (cleanText_steps t) as [E _].
  rewrite E.
  assert (Hall : Forall (fun c => allowedChar c = true) t).
  { eapply Forall_impl; [|exact Hp]. apply plateChar_allowed. }
  unfold stripDisallowed. rewrite (filter_all _ _ _ Hall).
  unfold removeLiteralCI. rewrite (removeFrom_no_occurrence _ _ Hocc).
  unfold stripSpaces. apply filter_all.
  eapply Forall_impl; [|exact Hp]. intros c Hc.
  apply negb_true_iff. now apply plateChar_not_space_lower.
Qed.

Lemma X3_witness : cleanText serverDenylist (str "NCM-27-04") = str "NCM-27-04".
Proof.
  apply X3_canonical_text_unchanged.
  - vm_compute. repeat constructor.
  - vm_compute. reflexivity.
Defined.

(** * Further properties of the ranking and of the handler *)

(** ** The result of detectPlateWithOCR *)

Lemma in_ocrResults r obs :
  In r (ocrResults obs) <->
  exists o p, In o obs /\ validateMexicanPlate (Some (text o)) = Some p /\
    r = {| Ocr.plateText := p; Ocr.confidence := ocrConfidence o / 100;
           Ocr.rawText := text o; Ocr.source := variantName o |}.
Proof.
  unfold ocrResults. rewrite in_flat_map. split.
  - intros (o & Ho & Hr).
    destruct (validateMexicanPlate (Some (text o))) as [[|c p]|] eqn:E;
      try contradiction.
    destruct Hr as [<-|[]]. now exists o, (c :: p).
  - intros (o & p & Ho & Hv & ->). exists o. split; [exact Ho|]. rewrite Hv.
    destruct (validate_sound _ _ _ _ _ _ Hv) as (_ & _ & _ & [Hl _] & _).
    destruct p; [simpl in Hl; lia|now left].
Qed.

Lemma ocrResults_length obs :
  length (ocrResults obs) = length (filter validates obs).
Proof.
  induction obs as [|o obs IH]; [reflexivity|].
  unfold ocrResults in *. cbn [flat_map filter]. rewrite length_app, IH.
  destruct (validateMexicanPlate (Some (text o))) as [p|] eqn:E.
  - assert (Hv : validates o = true) by (unfold validates; now rewrite E).
    rewrite Hv.
    destruct (validate_sound _ _ _ _ _ _ E) as (_ & _ & _ & [Hl _] & _).
    destruct p; [simpl in Hl; lia|reflexivity].
  - assert (Hv : validates o = false) by (unfold validates; now rewrite E).
    now rewrite Hv.
Qed.

Lemma detect_cases obs :
  (ocrResults obs = [] /\ detectPlateWithOCR obs = noPlate) \/
  (exists best rest,
     sortBy byConfidence (ocrResults obs) = best :: rest /\
     In best (ocrResults obs) /\
     detectPlateWithOCR obs =
     {| hasPlate := true;
        plateText := Some (Ocr.plateText best);
        confidence := Ocr.confidence best;
        processingMethod := Some (Ocr.source best);
        allCandidates :=
          map (fun r => (Ocr.plateText r, Ocr.confidence r)) (best :: rest) |}).
Proof.
  unfold detectPlateWithOCR. cbv zeta.
  destruct (ocrResults obs) as [|r l] eqn:E; [now left|].
  right. cbn [length Nat.ltb Nat.leb].
  destruct (sortBy byConfidence (r :: l)) as [|best rest] eqn:Es.
  - apply sortBy_nil in Es. discriminate.
  - exists best, rest. split; [reflexivity|]. split; [|reflexivity].
    apply (Permutation_in _ (sortBy_perm byConfidence (r :: l))).
    rewrite Es. now left.
Qed.

(** X4. The result of [detectPlateWithOCR] is coherent: it reports a
    plate exactly when the text of some observation validates; without a
    plate it is the empty result; with a plate, the plate and its
    confidence are the first entry of the candidate list; and the list has
    one entry per observation whose text validates. *)
Theorem X4_detection_coherent (obs : list Observation) :
  (hasPlate (detectPlateWithOCR obs) = true <->
   exists o, In o obs /\ validates o = true) /\
  (hasPlate (detectPlateWithOCR obs) = false -> detectPlateWithOCR obs = noPlate) /\
  hd_error (allCandidates (detectPlateWithOCR obs))
  = option_map (fun p => (p, confidence (detectPlateWithOCR obs)))
               (plateText (detectPlateWithOCR obs)) /\
  length (allCandidates (detectPlateWithOCR obs)) = length (filter validates obs).
Proof.
  pose proof (ocrResults_length obs) as Hlen.
  destruct (detect_cases obs) as [[E ->]|(best & rest & Es & Hb & ->)]; simpl.
  - rewrite E in Hlen. simpl in Hlen.
    split; [|split; [reflexivity|split; [reflexivity|exact Hlen]]].
    split; [discriminate|]. intros (o & Ho & Hv).
    assert (Hin : In o (filter validates obs)) by (apply filter_In; now split).
    destruct (filter validates obs); [contradiction|discriminate].
  - split; [|split; [discriminate|split; [reflexivity|]]].
    + split; [|reflexivity]. intros _.
      apply in_ocrResults in Hb as (o & p & Ho & Hv & _).
      exists o. split; [exact Ho|]. unfold validates. now rewrite Hv.
    + rewrite <- Hlen, <- (Permutation_length (sortBy_perm byConfidence (ocrResults obs))),
        Es. simpl. now rewrite length_map.
Qed.

(** X5. Every entry of the candidate list, and in particular the best
    plate, comes from an observation: it is the plate validated for that
    observation's text, with that observation's confidence divided by
    100, and it is 6 to 9 characters of upper-case letters, digits and
    dashes.  The processing method reported is the variant of the
    observation that gave the best plate. *)
Theorem X5_candidates_come_from_observations (obs : list Observation) :
  (forall p c, In (p, c) (allCandidates (detectPlateWithOCR obs)) ->
     exists o, In o obs /\ validateMexicanPlate (Some (text o)) = Some p /\
       c = (ocrConfidence o / 100)%Q /\
       6 <= length p /\ length p <= 9 /\
       Forall (fun ch => plateChar ch = true) p) /\
  (forall p, plateText (detectPlateWithOCR obs) = Some p ->
     exists o, In o obs /\ validateMexicanPlate (Some (text o)) = Some p /\
       confidence (detectPlateWithOCR obs) = (ocrConfidence o / 100)%Q /\
       processingMethod (detectPlateWithOCR obs) = Some (variantName o)).
Proof.
  assert (Hshape : forall o p, validateMexicanPlate (Some (text o)) = Some p ->
            6 <= length p /\ length p <= 9 /\ Forall (fun ch => plateChar ch = true) p).
  { intros o p Hv.
    destruct (validate_sound _ _ _ _ _ _ Hv) as (t & _ & _ & [Hl _] & Hch & q & Hq & Hm & _).
    split; [exact Hl|]. split; [|exact Hch].
    pose proof (matchAll_length _ _ _ Hm) as [_ Hmax].
    simpl in Hq.
    repeat (destruct Hq as [<-|Hq]; [unfold patMax in Hmax; simpl in Hmax; lia|]).
    contradiction. }
  destruct (detect_cases obs) as [[E ->]|(best & rest & Es & Hb & ->)]; simpl.
  - split; [intros p c []|discriminate].
  - split.
    + intros p c Hin.
      assert (Hin' : In (p, c) (map (fun r => (Ocr.plateText r, Ocr.confidence r))
                                   (best :: rest))) by exact Hin.
      apply in_map_iff in Hin' as (r & [= <- <-] & Hr).
      rewrite <- Es in Hr.
      apply (Permutation_in _ (sortBy_perm byConfidence (ocrResults obs))) in Hr.
      apply in_ocrResults in Hr as (o & q & Ho & Hv & ->). simpl.
      exists o. split; [exact Ho|]. split; [exact Hv|]. split; [reflexivity|].
      now apply (Hshape o).
    + intros p [= <-].
      apply in_ocrResults in Hb as (o & q & Ho & Hv & ->). simpl.
      now exists o.
Qed.

(** ** Vehicle detection *)

Lemma byPredictionScore_sorted l :
  StronglySorted predictionGe (sortBy byPredictionScore l).
Proof.
  apply sortBy_sorted; unfold byPredictionScore, predictionGe.
  - intros x y _ _ H. apply Qltb_lt in H. lra.
  - intros x y _ _ H. apply Qltb_ge in H. lra.
  - intros x y z _ _ _. lra.
Qed.

Lemma detectVehicle_cases preds :
  (filter isVehicle preds = [] /\ detectVehicle (Some preds) = noVehicle) \/
  (exists best rest,
     sortBy byPredictionScore (filter isVehicle preds) = best :: rest /\
     detectVehicle (Some preds) =
     {| Vehicle.hasVehicle := true;
        Vehicle.bbox := Some (Coco.bbox best);
        Vehicle.confidence := Coco.score best;
        Vehicle.vehicleType := Some (Coco.class best);
        Vehicle.allDetections := best :: rest |}).
Proof.
  unfold detectVehicle. cbv zeta.
  destruct (sortBy byPredictionScore (filter isVehicle preds)) as [|best rest] eqn:Es.
  - left. apply sortBy_nil in Es. now rewrite Es.
  - right. now exists best, rest.
Qed.

Lemma sorted_head_max (l : list Coco.Prediction) best rest :
  sortBy byPredictionScore l = best :: rest ->
  In best l /\ forall p, In p l -> (Coco.score p <= Coco.score best)%Q.
Proof.
  intros Es. pose proof (sortBy_perm byPredictionScore l) as Hp.
  pose proof (byPredictionScore_sorted l) as Hs. rewrite Es in Hp, Hs.
  split.
  - apply (Permutation_in _ Hp). now left.
  - intros p Hin. apply (Permutation_in _ (Permutation_sym Hp)) in Hin.
    inversion Hs as [|? ? _ Hall]; subst. rewrite Forall_forall in Hall.
    destruct Hin as [<-|Hin]; [lra|]. now apply Hall.
Qed.

(** X8. [detectVehicle] reports a vehicle exactly when some prediction has
    a vehicle class and a score above 0.15.  Then the box, the confidence
    and the type it returns are those of one such prediction, whose score
    is the largest among them; otherwise it returns the empty result, the
    same as after an exception. *)
Theorem X8_best_vehicle (preds : list Coco.Prediction) :
  (Vehicle.hasVehicle (detectVehicle (Some preds)) = true <->
   exists p, In p preds /\ isVehicle p = true) /\
  (Vehicle.hasVehicle (detectVehicle (Some preds)) = false ->
   detectVehicle (Some preds) = detectVehicle None) /\
  (Vehicle.hasVehicle (detectVehicle (Some preds)) = true ->
   exists best, In best preds /\ isVehicle best = true /\
     Vehicle.bbox (detectVehicle (Some preds)) = Some (Coco.bbox best) /\
     Vehicle.confidence (detectVehicle (Some preds)) = Coco.score best /\
     Vehicle.vehicleType (detectVehicle (Some preds)) = Some (Coco.class best) /\
     In (Coco.class best) vehicleClasses /\
     (15 # 100 < Coco.score best)%Q /\
     forall p, In p preds -> isVehicle p = true ->
               (Coco.score p <= Coco.score best)%Q).
Proof.
  destruct (detectVehicle_cases preds) as [[E ->]|(best & rest & Es & ->)]; simpl.
  - split; [|split; [reflexivity|discriminate]].
    split; [discriminate|]. intros (p & Hp & Hv).
    assert (Hin : In p (filter isVehicle preds)) by (apply filter_In; now split).
    rewrite E in Hin. contradiction.
  - destruct (sorted_head_max _ _ _ Es) as [Hin Hmax].
    apply filter_In in Hin as [Hin Hv].
    split; [|split; [discriminate|]].
    + split; [|reflexivity]. intros _. now exists best.
    + intros _. exists best. repeat (split; [assumption || reflexivity|]).
      unfold isVehicle in Hv. apply andb_true_iff in Hv as [Hc Hs].
      split; [|split].
      * apply existsb_exists in Hc as (c & Hc & Heq).
        apply String.eqb_eq in Heq. now rewrite Heq.
      * now apply Qltb_lt.
      * intros p Hp Hpv. apply Hmax. apply filter_In. now split.
Qed.

(** X9. The list of detections returned holds exactly the predictions with
    a vehicle class and a score above 0.15, each as often as it was
    predicted, in descending order of score. *)
Theorem X9_all_detections_ranked (preds : list Coco.Prediction) :
  Permutation (Vehicle.allDetections (detectVehicle (Some preds)))
              (filter isVehicle preds) /\
  StronglySorted predictionGe (Vehicle.allDetections (detectVehicle (Some preds))).
Proof.
  unfold detectVehicle. cbv zeta. simpl. split.
  - apply sortBy_perm.
  - apply byPredictionScore_sorted.
Qed.

(** ** The handler *)

Lemma select_cases (rs : list (option PlateDetection)) :
  (exists d, In (Some d) rs /\ hasPlate d = true /\ selectPlateDetection rs = d) \/
  ((forall r, In r rs -> anyPlate r = false) /\
   selectPlateDetection rs
   = match orElse (nth 1 rs None) (nth 0 rs None) with
     | Some r => r
     | None => noPlate
     end).
Proof.
  unfold selectPlateDetection.
  destruct (find confidentPlate rs) as [[d|]|] eqn:E1.
  - apply find_some in E1 as [Hin Hc]. left. exists d. simpl in Hc.
    apply andb_true_iff in Hc as [Hc _]. now repeat split.
  - apply find_some in E1 as [_ Hc]. discriminate.
  - destruct (find anyPlate rs) as [[d|]|] eqn:E2.
    + apply find_some in E2 as [Hin Hc]. left. now exists d.
    + apply find_some in E2 as [_ Hc]. discriminate.
    + right. split; [|reflexivity]. intros r Hr. now apply (find_none _ _ E2).
Qed.

Lemma selection_among_regions
    (vehicle : option (list Observation)) (full bottom : list Observation) :
  In (Some (selectPlateDetection (plateResults vehicle full bottom)))
     (plateResults vehicle full bottom) /\
  (hasPlate (selectPlateDetection (plateResults vehicle full bottom)) = true <->
   exists d, In (Some d) (plateResults vehicle full bottom) /\ hasPlate d = true).
Proof.
  destruct (select_cases (plateResults vehicle full bottom))
    as [(d & Hin & Hp & ->)|[Hnone ->]].
  - split; [exact Hin|]. split; [|intros _; exact Hp]. intros _. now exists d.
  - simpl. split; [right; now left|].
    assert (Hf : hasPlate (detectPlateWithOCR full) = false).
    { apply (Hnone (Some (detectPlateWithOCR full))). right. now left. }
    rewrite Hf. split; [discriminate|].
    intros (d & Hin & Hp). apply Hnone in Hin. simpl in Hin. congruence.
Qed.

(** X6. What the handler selects is always the result of one of its three
    regions, never the literal default at the end of the chain; and it
    carries a plate exactly when some region found one. *)
Theorem X6_selection_among_regions
    (vehicle : option (list Observation)) (full bottom : list Observation) :
  In (Some (selectPlateDetection (plateResults vehicle full bottom)))
     (plateResults vehicle full bottom) /\
  (hasPlate (selectPlateDetection (plateResults vehicle full bottom)) = true <->
   exists d, In (Some d) (plateResults vehicle full bottom) /\ hasPlate d = true).
Proof. apply selection_among_regions. Qed.

Lemma detect_confidence_bounds obs :
  (forall o, In o obs -> (0 <= ocrConfidence o /\ ocrConfidence o <= 100)%Q) ->
  (0 <= confidence (detectPlateWithOCR obs) /\
   confidence (detectPlateWithOCR obs) <= 1)%Q.
Proof.
  intros H.
  destruct (detect_cases obs) as [[E ->]|(best & rest & Es & Hb & ->)]; simpl.
  - split; lra.
  - apply in_ocrResults in Hb as (o & p & Ho & _ & ->). simpl.
    destruct (H o Ho) as [H0 H1]. unfold Qdiv.
    change (/ 100)%Q with (1 # 100)%Q. split; lra.
Qed.

Lemma detectVehicle_confidence_bounds predictions :
  (forall ps p, predictions = Some ps -> In p ps ->
                (0 <= Coco.score p /\ Coco.score p <= 1)%Q) ->
  (0 <= Vehicle.confidence (detectVehicle predictions) /\
   Vehicle.confidence (detectVehicle predictions) <= 1)%Q.
Proof.
  intros H. destruct predictions as [ps|]; [|simpl; split; lra].
  destruct (detectVehicle_cases ps) as [[E ->]|(best & rest & Es & ->)]; simpl.
  - split; lra.
  - destruct (sorted_head_max _ _ _ Es) as [Hin _].
    apply filter_In in Hin as [Hin _]. now apply (H ps).
Qed.

(** X7. When the detection model gives scores between 0 and 1 and the OCR
    engine confidences between 0 and 100, the three confidences of the
    response (vehicle, plate, overall) all lie between 0 and 1. *)
Theorem X7_response_confidences
    (predictions : option (list Coco.Prediction))
    (vehicleObs fullObs bottomObs : list Observation) :
  (forall ps p, predictions = Some ps -> In p ps ->
                (0 <= Coco.score p /\ Coco.score p <= 1)%Q) ->
  (forall o, In o (vehicleObs ++ fullObs ++ bottomObs) ->
             (0 <= ocrConfidence o /\ ocrConfidence o <= 100)%Q) ->
  let r := analyze predictions vehicleObs fullObs bottomObs in
  (0 <= Response.vehicleConfidence r /\ Response.vehicleConfidence r <= 1)%Q /\
  (0 <= Response.plateConfidence r /\ Response.plateConfidence r <= 1)%Q /\
  (0 <= Response.overallConfidence r /\ Response.overallConfidence r <= 1)%Q.
Proof.
  intros Hp Ho r.
  pose proof (detectVehicle_confidence_bounds predictions Hp) as Hv.
  assert (Hd : forall obs, (obs = vehicleObs \/ obs = fullObs \/ obs = bottomObs) ->
             (0 <= confidence (detectPlateWithOCR obs) /\
              confidence (detectPlateWithOCR obs) <= 1)%Q).
  { intros obs Hobs. apply detect_confidence_bounds. intros o Hin. apply Ho.
    rewrite !in_app_iff. destruct Hobs as [ -> | [ -> | -> ] ]; auto. }
  set (rs := plateResults
               (if Vehicle.hasVehicle (detectVehicle predictions)
                then Some vehicleObs else None) fullObs bottomObs).
  assert (Hsel : (0 <= confidence (selectPlateDetection rs) /\
                  confidence (selectPlateDetection rs) <= 1)%Q).
  { destruct (selection_among_regions (if Vehicle.hasVehicle (detectVehicle predictions)
                      then Some vehicleObs else None) fullObs bottomObs) as [Hin _].
    fold rs in Hin.
    assert (Hin' : In (Some (selectPlateDetection rs))
              [ option_map detectPlateWithOCR
                  (if Vehicle.hasVehicle (detectVehicle predictions)
                   then Some vehicleObs else None);
                Some (detectPlateWithOCR fullObs);
                Some (detectPlateWithOCR bottomObs) ]) by exact Hin.
    clear Hin. destruct Hin' as [Hin|[Hin|[Hin|[]]]].
    - destruct (Vehicle.hasVehicle (detectVehicle predictions)); [|discriminate].
      simpl in Hin. injection Hin as <-. apply Hd. now left.
    - injection Hin as <-. apply Hd. right. now left.
    - injection Hin as <-. apply Hd. right. now right. }
  unfold r, analyze. cbv zeta. fold rs. simpl.
  split; [exact Hv|]. split; [exact Hsel|].
  destruct (hasPlate (selectPlateDetection rs)); [|exact Hv].
  destruct Hv, Hsel. split; lra.
Qed.

Lemma X7_witness :
  let r := analyze (Some [ {| Coco.class := "car"; Coco.score := 9 # 10;
                              Coco.bbox := [10; 20; 300; 200]%Q |} ])
                   [obs "NCM-27-04" 85 enfocada] [obs "NCM-27-04" 60 escalada] [] in
  (0 <= Response.vehicleConfidence r /\ Response.vehicleConfidence r <= 1)%Q /\
  (0 <= Response.plateConfidence r /\ Response.plateConfidence r <= 1)%Q /\
  (0 <= Response.overallConfidence r /\ Response.overallConfidence r <= 1)%Q.
Proof.
  apply X7_response_confidences.
  - intros ps p [= <-] [<-|[]]. simpl. split; lra.
  - intros o Hin. simpl in Hin.
    destruct Hin as [<-|[<-|[]]]; simpl; split; lra.
Defined.

(** * The crop region *)

Lemma Math_round_le_int x n : (x <= inject_Z n)%Q -> (Math_round x <= n)%Z.
Proof.
  intros H. unfold Math_round.
  pose proof (Qfloor_le (x + (1 # 2))) as Hf.
  assert (Hlt : (inject_Z (Qfloor (x + (1 # 2))) < inject_Z (n + 1))%Q).
  { rewrite inject_Z_plus. change (inject_Z 1) with 1%Q. lra. }
  rewrite <- Zlt_Qlt in Hlt. lia.
Qed.

Lemma Math_round_ge_int x n : (inject_Z n <= x)%Q -> (n <= Math_round x)%Z.
Proof.
  intros H. unfold Math_round.
  pose proof (Qlt_floor (x + (1 # 2))) as Hf.
  assert (Hlt : (inject_Z n < inject_Z (Qfloor (x + (1 # 2)) + 1))%Q) by lra.
  rewrite <- Zlt_Qlt in Hlt. lia.
Qed.

Lemma Math_round_comp x y : (x == y)%Q -> Math_round x = Math_round y.
Proof. intros H. unfold Math_round. now rewrite H. Qed.

Lemma Math_round_half n : Math_round (inject_Z n * (1 # 2)) = ((n + 1) / 2)%Z.
Proof.
  pose proof (Z.div_mod (n + 1) 2 ltac:(lia)) as Hdm.
  pose proof (Z.mod_pos_bound (n + 1) 2 ltac:(lia)) as Hr.
  set (q := ((n + 1) / 2)%Z) in *. set (r := ((n + 1) mod 2)%Z) in *.
  assert (Hq : (inject_Z n + 1 == 2 * inject_Z q + inject_Z r)%Q).
  { change 1%Q with (inject_Z 1). change 2%Q with (inject_Z 2).
    rewrite <- inject_Z_plus, <- inject_Z_mult, <- inject_Z_plus.
    now rewrite Hdm. }
  assert (Hr0 : (0 <= inject_Z r)%Q)
    by (change 0%Q with (inject_Z 0); rewrite <- Zle_Qle; lia).
  assert (Hr1 : (inject_Z r <= 1)%Q)
    by (change 1%Q with (inject_Z 1); rewrite <- Zle_Qle; lia).
  unfold Math_round. apply Z.le_antisymm.
  - pose proof (Qfloor_le (inject_Z n * (1 # 2) + (1 # 2))) as Hf.
    assert (Hlt : (inject_Z (Qfloor (inject_Z n * (1 # 2) + (1 # 2)))
                   < inject_Z (q + 1))%Q).
    { rewrite inject_Z_plus. change (inject_Z 1) with 1%Q. lra. }
    rewrite <- Zlt_Qlt in Hlt. lia.
  - pose proof (Qlt_floor (inject_Z n * (1 # 2) + (1 # 2))) as Hf.
    assert (Hlt : (inject_Z q
                   < inject_Z (Qfloor (inject_Z n * (1 # 2) + (1 # 2)) + 1))%Q) by lra.
    rewrite <- Zlt_Qlt in Hlt. lia.
Qed.

Lemma ratio_scaled_bounds n v :
  (0 <= n)%Z -> Qle_bool v 1 && Qle_bool 0 v = true ->
  (0 <= Math_round (inject_Z n * v) <= n)%Z.
Proof.
  intros Hn Hv. apply andb_true_iff in Hv as [H1 H0].
  apply Qle_bool_iff in H1, H0.
  assert (Hq : (0 <= inject_Z n)%Q)
    by (change 0%Q with (inject_Z 0); rewrite <- Zle_Qle; exact Hn).
  split.
  - apply Math_round_ge_int. change (inject_Z 0) with 0%Q. nra.
  - apply Math_round_le_int. nra.
Qed.

(** X10. For a box given as ratios (four numbers between 0 and 1) the crop
    region starts inside the image and is no wider and no higher than the
    image. *)
Theorem X10_ratio_crop_bounds (imgWidth imgHeight : Z) (bbox : list Q) (c : Crop.t) :
  (0 <= imgWidth)%Z -> (0 <= imgHeight)%Z ->
  isRatioBox bbox = true ->
  cropParams imgWidth imgHeight (Some bbox) = Some c ->
  (0 <= Crop.left c <= imgWidth)%Z /\ (0 <= Crop.top c <= imgHeight)%Z /\
  (0 <= Crop.width c <= imgWidth)%Z /\ (0 <= Crop.height c <= imgHeight)%Z.
Proof.
  intros HW HH Hr Hc. unfold cropParams in Hc.
  destruct bbox as [|a [|b [|x [|d [|? ?]]]]]; try discriminate.
  rewrite Hr in Hc. injection Hc as <-. simpl.
  simpl in Hr. rewrite !andb_true_iff in Hr.
  destruct Hr as (Ha & Hb & Hx & Hd & _).
  pose proof (ratio_scaled_bounds imgWidth a HW (proj2 (andb_true_iff _ _) Ha)).
  pose proof (ratio_scaled_bounds imgHeight b HH (proj2 (andb_true_iff _ _) Hb)).
  pose proof (ratio_scaled_bounds imgWidth x HW (proj2 (andb_true_iff _ _) Hx)).
  pose proof (ratio_scaled_bounds imgHeight d HH (proj2 (andb_true_iff _ _) Hd)).
  lia.
Qed.

Lemma X10_witness :
  (0 <= 64 <= 640)%Z /\ (0 <= 240 <= 480)%Z /\
  (0 <= 320 <= 640)%Z /\ (0 <= 120 <= 480)%Z.
Proof.
  apply (X10_ratio_crop_bounds 640 480 [1 # 10; 1 # 2; 1 # 2; 1 # 4]%Q
           {| Crop.left := 64; Crop.top := 240; Crop.width := 320; Crop.height := 120 |});
    try lia; vm_compute; reflexivity.
Defined.

(** X11. For a box given in pixels whose corner is not left of or above
    the image, the crop region ends inside the image: left + width is at
    most the image width and top + height at most the image height. *)
Theorem X11_pixel_crop_inside (imgWidth imgHeight : Z) (x y w h : Q) (c : Crop.t) :
  isRatioBox [x; y; w; h] = false ->
  (0 <= x)%Q -> (0 <= y)%Q ->
  cropParams imgWidth imgHeight (Some [x; y; w; h]) = Some c ->
  (0 <= Crop.left c)%Z /\ (0 <= Crop.top c)%Z /\
  (Crop.left c + Crop.width c <= imgWidth)%Z /\
  (Crop.top c + Crop.height c <= imgHeight)%Z.
Proof.
  intros Hr Hx Hy Hc. unfold cropParams in Hc. rewrite Hr in Hc.
  injection Hc as <-. simpl.
  assert (H0x : (0 <= Math_round x)%Z) by (apply Math_round_ge_int; exact Hx).
  assert (H0y : (0 <= Math_round y)%Z) by (apply Math_round_ge_int; exact Hy).
  lia.
Qed.

Lemma X11_witness :
  (0 <= 120)%Z /\ (0 <= 80)%Z /\ (120 + 300 <= 640)%Z /\ (80 + 200 <= 480)%Z.
Proof.
  apply (X11_pixel_crop_inside 640 480 (1199 # 10) (401 # 5) 300 200
           {| Crop.left := 120; Crop.top := 80; Crop.width := 300; Crop.height := 200 |});
    try (vm_compute; reflexivity); vm_compute; discriminate.
Defined.

(** X12. For the bottom-half box of the handler the crop region spans the
    full width and starts at row (H + 1) / 2; its top plus its height is
    H when the image height H is even and H + 1 when it is odd, one row
    more than the image has. *)
Theorem X12_bottom_half_region (imgWidth imgHeight : Z) :
  (0 <= imgWidth)%Z -> (0 < imgHeight)%Z ->
  exists c, cropParams imgWidth imgHeight (Some bottomHalf) = Some c /\
    Crop.left c = 0%Z /\ Crop.width c = imgWidth /\
    Crop.top c = ((imgHeight + 1) / 2)%Z /\
    (Crop.top c + Crop.height c = imgHeight + imgHeight mod 2)%Z.
Proof.
  intros HW HH. eexists. split; [reflexivity|]. simpl.
  assert (E0 : Math_round (inject_Z imgWidth * 0) = 0%Z).
  { rewrite (Math_round_comp _ 0); [reflexivity|ring]. }
  assert (E1 : Math_round (inject_Z imgWidth * 1) = imgWidth).
  { apply Z.le_antisymm.
    - apply Math_round_le_int. lra.
    - apply Math_round_ge_int. lra. }
  rewrite E0, E1, Math_round_half.
  pose proof (Z.div_mod (imgHeight + 1) 2 ltac:(lia)) as Hdm.
  pose proof (Z.mod_pos_bound (imgHeight + 1) 2 ltac:(lia)) as Hm1.
  pose proof (Z.mod_pos_bound imgHeight 2 ltac:(lia)) as Hm2.
  pose proof (Z.div_mod imgHeight 2 ltac:(lia)) as Hdm2.
  assert (Hrel : ((imgHeight + 1) / 2 = imgHeight / 2 + imgHeight mod 2)%Z).
  { destruct (Z.eq_dec (imgHeight mod 2) 0) as [E|E].
    - rewrite E. symmetry. rewrite Z.add_0_r.
      apply Z.div_unique with (r := 1%Z); lia.
    - assert (E' : (imgHeight mod 2 = 1)%Z) by lia. rewrite E'.
      symmetry. apply Z.div_unique with (r := 0%Z); lia. }
  repeat split; lia.
Qed.

Lemma X12_witness :
  exists c, cropParams 640 481 (Some bottomHalf) = Some c /\
    Crop.left c = 0%Z /\ Crop.width c = 640%Z /\
    Crop.top c = ((481 + 1) / 2)%Z /\
    (Crop.top c + Crop.height c = 481 + 481 mod 2)%Z.
Proof. apply X12_bottom_half_region; lia. Defined.

(** * The standalone validator and the comparison of the test scripts *)

(** X13. A plate returned by the validator of the standalone test is a
    contiguous part of its cleaned text, 5 to 9 characters long, made of
    upper-case letters, digits and dashes, and a match of one of its seven
    patterns. *)
Theorem X13_standalone_plate_shape (text : option jsstring) (pl : jsstring) :
  Standalone.validateMexicanPlate text = Some pl ->
  exists t, text = Some t /\
    (exists pre post, cleanText Standalone.denylist t = pre ++ pl ++ post) /\
    (5 <= length pl /\ length pl <= 9) /\
    Forall (fun c => plateChar c = true) pl /\
    exists p, In p Standalone.MEXICAN_PLATE_PATTERNS /\
              In pl (matchAll p (cleanText Standalone.denylist t)) /\
              test p pl = true.
Proof.
  intros H.
  destruct (validate_sound _ _ _ _ _ _ H)
    as (t & Ht & Hsub & [Hl _] & Hch & p & Hp & Hm & Hfull).
  exists t. split; [exact Ht|]. split; [exact Hsub|]. split.
  - split; [exact Hl|].
    pose proof (matchAll_length _ _ _ Hm) as [_ Hmax]. simpl in Hp.
    repeat (destruct Hp as [<-|Hp]; [unfold patMax in Hmax; simpl in Hmax; lia|]).
    contradiction.
  - split; [exact Hch|]. now exists p.
Qed.

Lemma X13_witness :
  exists t, Some (str "major AB123 katz") = Some t /\
    (exists pre post, cleanText Standalone.denylist t = pre ++ str "AB123" ++ post) /\
    (5 <= length (str "AB123") /\ length (str "AB123") <= 9) /\
    Forall (fun c => plateChar c = true) (str "AB123") /\
    exists p, In p Standalone.MEXICAN_PLATE_PATTERNS /\
              In (str "AB123") (matchAll p (cleanText Standalone.denylist t)) /\
              test p (str "AB123") = true.
Proof.
  apply (X13_standalone_plate_shape (Some (str "major AB123 katz"))).
  vm_compute. reflexivity.
Defined.

Lemma ascii_eqb_refl a : ascii_eqb a a = true.
Proof. unfold ascii_eqb. apply Nat.eqb_refl. Qed.

Lemma ascii_eqb_sym a b : ascii_eqb a b = ascii_eqb b a.
Proof. unfold ascii_eqb. apply Nat.eqb_sym. Qed.

Lemma eqString_refl a : eqString a a = true.
Proof. induction a as [|x a IH]; simpl; [reflexivity|]. now rewrite ascii_eqb_refl. Qed.

Lemma eqString_sym a : forall b, eqString a b = eqString b a.
Proof.
  induction a as [|x a IH]; intros [|y b]; simpl; try reflexivity.
  now rewrite ascii_eqb_sym, IH.
Qed.

Lemma startsWith_app a b : startsWith a (a ++ b) = true.
Proof. induction a as [|x a IH]; simpl; [reflexivity|]. now rewrite ascii_eqb_refl. Qed.

Lemma startsWith_includes a s : startsWith a s = true -> includes a s = true.
Proof. intros H. destruct s; simpl; now rewrite H. Qed.

Lemma firstn_prefix_includes (a b : jsstring) n : includes (firstn n a) (a ++ b) = true.
Proof.
  apply startsWith_includes.
  rewrite <- (firstn_skipn n a) at 2. rewrite <- app_assoc. apply startsWith_app.
Qed.

(** X14. The comparison used by the test scripts is symmetric in the two
    plates and ignores dashes, white space and letter case; a plate
    matches itself; and a plate matches whenever, once cleaned, it is an
    initial part of the expected plate or the expected plate is an initial
    part of it, so a truncated read counts as a success. *)
Theorem X14_isMatch_properties (a b : jsstring) :
  isMatch a b = isMatch b a /\
  isMatch a a = true /\
  (cleanPlate a = cleanPlate b -> isMatch a b = true) /\
  (forall rest, cleanPlate a = cleanPlate b ++ rest -> isMatch a b = true) /\
  (forall rest, cleanPlate b = cleanPlate a ++ rest -> isMatch a b = true).
Proof.
  unfold isMatch. cbv zeta. repeat split.
  - rewrite (eqString_sym (cleanPlate b)).
    rewrite <- !orb_assoc. f_equal. apply orb_comm.
  - now rewrite eqString_refl.
  - intros ->. now rewrite eqString_refl.
  - intros rest ->. rewrite firstn_prefix_includes. apply orb_true_r.
  - intros rest ->. rewrite firstn_prefix_includes.
    rewrite orb_true_r. reflexivity.
Qed.

Lemma X14_witness :
  isMatch (str "GZW-002-A") (str "gzw 002") = true.
Proof.
  destruct (X14_isMatch_properties (str "GZW-002-A") (str "gzw 002"))
    as (_ & _ & _ & H & _).
  apply (H (str "A")). vm_compute. reflexivity.
Defined.

(** * The processing logger *)

Lemma call_spec l c :
  Logger.sessionId (fst (call l c)) = Logger.sessionId l /\
  Logger.startTime (fst (call l c)) = Logger.startTime l /\
  Logger.logs (fst (call l c)) = Logger.logs l ++ broadcastLogs (snd (call l c)) /\
  Logger.processedImages (fst (call l c))
  = Logger.processedImages l ++ broadcastImages (snd (call l c)) /\
  Forall (fun b => toSession b = Logger.sessionId l) (snd (call l c)) /\
  Forall (fun i => Image.sessionId i = Logger.sessionId l)
         (broadcastImages (snd (call l c))) /\
  (keepsSession c -> Forall (addressedTo (Logger.sessionId l)) (snd (call l c))).
Proof.
  destruct c as [now m ty|now m|now m|now m|now m|n1 n2 n3 [e|] st d
                |now op cur tot u|now nowLog op|n1 n2 n3
                |now m ty d|now m d|now m d|now m d|now m d];
    cbn; rewrite ?app_nil_r; repeat split; repeat constructor;
    match goal with
    | H : Caller.sessionId _ = None |- _ => cbn; rewrite H; reflexivity
    end.
Qed.

Lemma calls_step l c cs :
  calls l (c :: cs)
  = (fst (calls (fst (call l c)) cs), snd (call l c) ++ snd (calls (fst (call l c)) cs)).
Proof.
  simpl. destruct (call l c) as [l1 out1]. simpl.
  now destruct (calls l1 cs) as [l2 out2].
Qed.

Lemma broadcastLogs_app a b : broadcastLogs (a ++ b) = broadcastLogs a ++ broadcastLogs b.
Proof. apply flat_map_app. Qed.

Lemma broadcastImages_app a b :
  broadcastImages (a ++ b) = broadcastImages a ++ broadcastImages b.
Proof. apply flat_map_app. Qed.

Lemma calls_spec cs : forall l,
  Logger.sessionId (fst (calls l cs)) = Logger.sessionId l /\
  Logger.startTime (fst (calls l cs)) = Logger.startTime l /\
  Logger.logs (fst (calls l cs)) = Logger.logs l ++ broadcastLogs (snd (calls l cs)) /\
  Logger.processedImages (fst (calls l cs))
  = Logger.processedImages l ++ broadcastImages (snd (calls l cs)) /\
  Forall (fun b => toSession b = Logger.sessionId l) (snd (calls l cs)) /\
  Forall (fun i => Image.sessionId i = Logger.sessionId l)
         (broadcastImages (snd (calls l cs))) /\
  (Forall keepsSession cs -> Forall (addressedTo (Logger.sessionId l)) (snd (calls l cs))).
Proof.
  induction cs as [|c cs IH]; intros l.
  - simpl. rewrite !app_nil_r. repeat split; constructor.
  - rewrite calls_step. cbn [fst snd].
    destruct (call_spec l c) as (S1 & T1 & L1 & I1 & B1 & J1 & A1).
    destruct (IH (fst (call l c))) as (S2 & T2 & L2 & I2 & B2 & J2 & A2).
    rewrite S1 in *. rewrite broadcastLogs_app, broadcastImages_app.
    split; [|split; [|split; [|split; [|split; [|split]]]]].
    + congruence.
    + congruence.
    + rewrite L2, L1. symmetry. apply app_assoc.
    + rewrite I2, I1. symmetry. apply app_assoc.
    + apply Forall_app. now split.
    + apply Forall_app. now split.
    + intros H. inversion H as [|? ? Hc Hcs]; subst.
      apply Forall_app. split; auto.
Qed.

(** A [sessionId] among the metadata of a call replaces the logger's in
    the entry. *)
Lemma log_session_replaced l now m ty d other :
  Caller.sessionId d = Some other ->
  exists e, Logger.logs (fst (call l (CallLogWith now m ty d))) = Logger.logs l ++ [e] /\
            Log.sessionId e = other /\
            snd (call l (CallLogWith now m ty d))
            = [ {| toSession := Logger.sessionId l; payload := LogPayload e |} ].
Proof. intros H. cbn. rewrite H. eexists. repeat split. Qed.

(** X15. Whatever calls are made on a logger created for a session, the
    logger keeps its session and its start time, every saved image it
    holds carries that session, and every broadcast goes to that session.
    When no call passes a [sessionId] among its metadata, every log entry
    carries that session as well and every broadcast names it; a call
    that does pass one has it written into its entry in place of the
    logger's. *)
Theorem X15_logger_keeps_its_session (sid : string) (t0 : Z) (cs : list Call) :
  Logger.sessionId (fst (calls (createProcessingLogger sid t0) cs)) = sid /\
  Logger.startTime (fst (calls (createProcessingLogger sid t0) cs)) = t0 /\
  Forall (fun i => Image.sessionId i = sid)
         (Logger.processedImages (fst (calls (createProcessingLogger sid t0) cs))) /\
  Forall (fun b => toSession b = sid) (snd (calls (createProcessingLogger sid t0) cs)) /\
  (Forall keepsSession cs ->
   Forall (fun e => Log.sessionId e = sid)
          (Logger.logs (fst (calls (createProcessingLogger sid t0) cs))) /\
   Forall (addressedTo sid) (snd (calls (createProcessingLogger sid t0) cs))) /\
  (forall now m ty d other,
     Caller.sessionId d = Some other ->
     Forall (fun e => Log.sessionId e = other)
            (broadcastLogs
               (snd (call (fst (calls (createProcessingLogger sid t0) cs))
                          (CallLogWith now m ty d))))).
Proof.
  destruct (calls_spec cs (createProcessingLogger sid t0))
    as (S1 & T1 & L1 & I1 & B1 & J1 & A1).
  simpl in S1, T1, L1, I1, B1, J1, A1.
  split; [exact S1|]. split; [exact T1|].
  split; [now rewrite I1|]. split; [exact B1|]. split.
  - intros Hk. specialize (A1 Hk). split; [|exact A1].
    rewrite L1. apply Forall_forall. intros e He.
    apply in_flat_map in He as (b & Hb & He).
    rewrite Forall_forall in A1. destruct (A1 b Hb) as [_ Hp].
    destruct (payload b); try contradiction. destruct He as [<-|[]]. exact Hp.
  - intros now m ty d other H. cbn. rewrite H. repeat constructor.
Qed.

Lemma X15_witness :
  Forall (fun e => Log.sessionId e = "s1"%string)
         (Logger.logs
            (fst (calls (createProcessingLogger "s1" 0)
                    [CallInfo 1 "a";
                     CallInfoWith 2 "b"
                       {| Caller.timestamp := None; Caller.message := None;
                          Caller.type := Some "debug"%string; Caller.sessionId := None;
                          Caller.others := [("step", "ocr")]%string |};
                     CallFinish 3 4 5]))).
Proof.
  destruct (X15_logger_keeps_its_session "s1" 0
              [CallInfo 1 "a";
               CallInfoWith 2 "b"
                 {| Caller.timestamp := None; Caller.message := None;
                    Caller.type := Some "debug"%string; Caller.sessionId := None;
                    Caller.others := [("step", "ocr")]%string |};
               CallFinish 3 4 5]) as (_ & _ & _ & _ & H & _).
  apply H. repeat constructor.
Defined.

(** X16. The logger only ever appends: after any calls its logs are the
    earlier logs followed by the entries broadcast meanwhile, each once and
    in the order of the broadcasts, and likewise for the saved images. *)
Theorem X16_logger_appends_what_it_broadcasts (l : Logger.t) (cs : list Call) :
  Logger.logs (fst (calls l cs)) = Logger.logs l ++ broadcastLogs (snd (calls l cs)) /\
  Logger.processedImages (fst (calls l cs))
  = Logger.processedImages l ++ broadcastImages (snd (calls l cs)).
Proof.
  destruct (calls_spec cs l) as (_ & _ & L1 & I1 & _). now split.
Qed.

(** ** Statistics *)

Lemma countOf_bump key k acc :
  countOf k (bump key acc) = if String.eqb key k then S (countOf k acc) else countOf k acc.
Proof.
  unfold countOf. induction acc as [|[k0 n] acc IH]; simpl.
  - rewrite String.eqb_sym. destruct (String.eqb k key); reflexivity.
  - destruct (String.eqb k0 key) eqn:E0; simpl.
    + apply String.eqb_eq in E0. subst k0.
      destruct (String.eqb key k); reflexivity.
    + destruct (String.eqb k0 k) eqn:E1; [|exact IH].
      apply String.eqb_eq in E1. subst k0.
      rewrite String.eqb_sym, E0. reflexivity.
Qed.

Lemma sum_bump key acc :
  list_sum (map snd (bump key acc)) = S (list_sum (map snd acc)).
Proof.
  induction acc as [|[k0 n] acc IH]; simpl; [reflexivity|].
  destruct (String.eqb k0 key); simpl; [reflexivity|]. rewrite IH. lia.
Qed.

Lemma positive_bump key acc :
  Forall (fun p => 0 < snd p) acc -> Forall (fun p => 0 < snd p) (bump key acc).
Proof.
  induction 1 as [|[k0 n] acc Hn Ht IH]; simpl.
  - repeat constructor.
  - destruct (String.eqb k0 key); constructor; simpl in *; auto; lia.
Qed.

Lemma keys_bump key acc :
  NoDup (map fst acc) -> NoDup (map fst (bump key acc)) /\
  (forall k, In k (map fst (bump key acc)) <-> k = key \/ In k (map fst acc)).
Proof.
  induction acc as [|[k0 n] acc IH]; simpl; intros Hnd.
  - split; [repeat constructor; auto|]. intros k. intuition congruence.
  - inversion Hnd as [|? ? Hnot Hnd']; subst.
    destruct (String.eqb k0 key) eqn:E0; simpl.
    + apply String.eqb_eq in E0. subst k0. split; [exact Hnd|].
      intros k. intuition congruence.
    + destruct (IH Hnd') as [IH1 IH2]. split.
      * constructor; [|exact IH1]. rewrite IH2. intros [->|H]; [|contradiction].
        rewrite String.eqb_refl in E0. discriminate.
      * intros k. rewrite IH2. intuition congruence.
Qed.

Lemma countBy_spec keys : forall acc,
  Forall (fun p => 0 < snd p) acc -> NoDup (map fst acc) ->
  let result := fold_left (fun acc key => bump key acc) keys acc in
  (forall k, countOf k result = countOf k acc + count_occ string_dec keys k) /\
  list_sum (map snd result) = list_sum (map snd acc) + length keys /\
  Forall (fun p => 0 < snd p) result /\ NoDup (map fst result).
Proof.
  induction keys as [|key keys IH]; intros acc Hpos Hnd; simpl.
  - repeat split; auto.
  - destruct (IH (bump key acc) (positive_bump _ _ Hpos)
                 (proj1 (keys_bump key acc Hnd))) as (H1 & H2 & H3 & H4).
    repeat split; auto.
    + intros k. rewrite H1, countOf_bump.
      destruct (string_dec key k) as [->|Hne].
      * rewrite String.eqb_refl. lia.
      * apply String.eqb_neq in Hne. rewrite Hne. lia.
    + rewrite H2, sum_bump. lia.
Qed.

Lemma lookup_positive k acc n :
  Forall (fun p => 0 < snd p) acc -> lookup k acc = Some n -> 0 < n.
Proof.
  induction 1 as [|[k0 m] acc Hm _ IH]; simpl; [discriminate|].
  destruct (String.eqb k0 k); [intros [= <-]; exact Hm|exact IH].
Qed.

(** X17. In the statistics, the entry of a type in [logsByType] is the
    number of log entries of that type, and a type without entries has no
    key; the keys are distinct and the counts add up to [totalLogs].  The
    same holds for [imagesByStep] and [totalImages].  Types and step names
    are ordinary keys, none of the names inherited from the object
    prototype. *)
Theorem X17_stats_count_by_key (l : Logger.t) (now : Z) (key : string) :
  ~ In key inheritedKeys ->
  Forall (fun e => ~ In (Log.type e) inheritedKeys) (Logger.logs l) ->
  Forall (fun i => ~ In (Image.stepName i) inheritedKeys) (Logger.processedImages l) ->
  lookup key (Stats.logsByType (getStats l now))
  = (let n := count_occ string_dec (map Log.type (Logger.logs l)) key in
     if n =? 0 then None else Some n) /\
  list_sum (map snd (Stats.logsByType (getStats l now))) = Stats.totalLogs (getStats l now) /\
  NoDup (map fst (Stats.logsByType (getStats l now))) /\
  lookup key (Stats.imagesByStep (getStats l now))
  = (let n := count_occ string_dec (map Image.stepName (Logger.processedImages l)) key in
     if n =? 0 then None else Some n) /\
  list_sum (map snd (Stats.imagesByStep (getStats l now)))
  = Stats.totalImages (getStats l now) /\
  NoDup (map fst (Stats.imagesByStep (getStats l now))).
Proof.
  intros _ _ _.
  assert (Hgen : forall keys,
            lookup key (countBy keys)
            = (let n := count_occ string_dec keys key in if n =? 0 then None else Some n) /\
            list_sum (map snd (countBy keys)) = length keys /\
            NoDup (map fst (countBy keys))).
  { intros keys. unfold countBy.
    destruct (countBy_spec keys [] (Forall_nil _) (NoDup_nil _)) as (H1 & H2 & H3 & H4).
    split; [|split; [exact H2|exact H4]].
    specialize (H1 key). unfold countOf in H1. simpl in H1. cbv zeta.
    destruct (lookup key (fold_left (fun acc k => bump k acc) keys [])) as [n|] eqn:E.
    - pose proof (lookup_positive _ _ _ H3 E) as Hn. rewrite <- H1.
      destruct n; [lia|reflexivity].
    - now rewrite <- H1. }
  unfold getStats. simpl.
  destruct (Hgen (map Log.type (Logger.logs l))) as (A1 & A2 & A3).
  destruct (Hgen (map Image.stepName (Logger.processedImages l))) as (B1 & B2 & B3).
  rewrite length_map in A2, B2. repeat split; assumption.
Qed.

Lemma X17_witness :
  let l := fst (calls (createProcessingLogger "s1" 0)
                      [CallInfo 1 "a"; CallError 2 "b"; CallInfo 3 "c"]) in
  lookup "info" (Stats.logsByType (getStats l 9)) = Some 2 /\
  Stats.totalLogs (getStats l 9) = 3.
Proof.
  pose (l := fst (calls (createProcessingLogger "s1" 0)
                        [CallInfo 1 "a"; CallError 2 "b"; CallInfo 3 "c"])).
  destruct (X17_stats_count_by_key l 9 "info") as (H1 & H2 & _).
  - vm_compute. intuition discriminate.
  - vm_compute. repeat constructor; intuition discriminate.
  - vm_compute. constructor.
  - split; [exact H1|vm_compute; reflexivity].
Defined.

(** X18. Saving an image: when the file system fails nothing is stored,
    the call returns no image and logs one entry of type "error"; when it
    succeeds the image returned is stored last, its URL is "/processing/"
    followed by its file name, one entry of type "info" is logged, and the
    image is broadcast before that entry. *)
Theorem X18_saveProcessedImage_outcomes (l : Logger.t) (n1 n2 n3 : Z)
    (stepName description : string) :
  (forall errorMessage,
     let '(l', out, result) :=
       saveProcessedImage l n1 n2 n3 (Some errorMessage) stepName description in
     result = None /\
     Logger.processedImages l' = Logger.processedImages l /\
     (exists e, Logger.logs l' = Logger.logs l ++ [e] /\ Log.type e = "error"%string) /\
     broadcastImages out = []) /\
  (let '(l', out, result) :=
     saveProcessedImage l n1 n2 n3 None stepName description in
   exists image e,
     result = Some image /\
     Logger.processedImages l' = Logger.processedImages l ++ [image] /\
     Image.url image = ("/processing/" ++ Image.filename image)%string /\
     Image.stepName image = stepName /\
     Logger.logs l' = Logger.logs l ++ [e] /\ Log.type e = "info"%string /\
     map payload out = [ImagePayload image; LogPayload e]).
Proof.
  split.
  - intros errorMessage. cbn. repeat split. eexists. split; reflexivity.
  - cbn. eexists. eexists. repeat split.
Qed.

(** X19. [finish] adds the timing entry before it reports: the
    "session complete" broadcast is the last one, its [totalLogs] is one
    more than the number of entries before the call, and the logs it
    carries are those of the logger after the call, the last of which is
    that timing entry. *)
Theorem X19_finish_counts_its_own_entry (l : Logger.t) (now nowLog nowEnd : Z) :
  exists timingEntry out,
    snd (finish l now nowLog nowEnd)
    = out ++ [ {| toSession := Logger.sessionId l;
                  payload :=
                    SessionComplete (Logger.sessionId l)
                      (S (length (Logger.logs l)))
                      (length (Logger.processedImages l))
                      (nowEnd - Logger.startTime l)
                      (Logger.logs l ++ [timingEntry])
                      (Logger.processedImages l) |} ] /\
    Logger.logs (fst (finish l now nowLog nowEnd)) = Logger.logs l ++ [timingEntry] /\
    Log.message timingEntry
    = TimingLine "Análisis total" (now - Logger.startTime l) /\
    Stats.totalLogs (getStats (fst (finish l now nowLog nowEnd)) nowEnd)
    = S (length (Logger.logs l)).
Proof.
  pose (entry := {| Log.timestamp := nowLog;
                    Log.message := TimingLine "Análisis total" (now - Logger.startTime l);
                    Log.type := "info";
                    Log.sessionId := Logger.sessionId l;
                    Log.metadata :=
                      TimingData "Análisis total" (now - Logger.startTime l) |}).
  exists entry, [ {| toSession := Logger.sessionId l; payload := LogPayload entry |} ].
  cbn. rewrite length_app, Nat.add_comm. cbn. repeat split; reflexivity.
Qed.

(** X20. For a positive total and a current value between 0 and the total,
    the percentage that [progress] logs and broadcasts lies between 0 and
    100. *)
Theorem X20_progress_percentage (l : Logger.t) (now : Z) (operation unit : string)
    (current total : Q) :
  (0 < total)%Q -> (0 <= current)%Q -> (current <= total)%Q ->
  exists percentage,
    (0 <= percentage <= 100)%Z /\
    percentage = Math_round (current / total * 100) /\
    In (ProgressPayload operation current total percentage unit (Logger.sessionId l))
       (map payload (snd (progress l now operation current total unit))).
Proof.
  intros Ht Hc Hle. exists (Math_round (current / total * 100)).
  split; [|split; [reflexivity|cbn; auto]].
  assert (H0 : (0 <= current / total)%Q).
  { apply Qle_shift_div_l; [exact Ht|]. lra. }
  assert (H1 : (current / total <= 1)%Q).
  { apply Qle_shift_div_r; [exact Ht|]. lra. }
  split.
  - apply Math_round_ge_int. change (inject_Z 0) with 0%Q. lra.
  - apply Math_round_le_int. change (inject_Z 100) with 100%Q. lra.
Qed.

Lemma X20_witness :
  exists percentage,
    (0 <= percentage <= 100)%Z /\
    percentage = Math_round (1 / 3 * 100) /\
    In (ProgressPayload "OCR" 1 3 percentage "variaciones" "s1")
       (map payload
            (snd (progress (createProcessingLogger "s1" 0) 5 "OCR" 1 3 "variaciones"))).
Proof.
  apply (X20_progress_percentage (createProcessingLogger "s1" 0) 5 "OCR" "variaciones" 1 3);
    lra.
Defined.

(** * The gallery pages *)

Section GalleryFacts.
Variable A : Type.
Implicit Types l : list A.

Lemma firstn_plus n m l : firstn (n + m) l = firstn n l ++ firstn m (skipn n l).
Proof.
  revert l. induction n as [|n IH]; intros l; [reflexivity|].
  destruct l as [|x l]; simpl; [now rewrite firstn_nil|]. now rewrite IH.
Qed.

Lemma page_slice l (k : nat) :
  paginatedImages l (Z.of_nat (S k)) = firstn 12 (skipn (12 * k) l).
Proof.
  unfold paginatedImages, slice, imagesPerPage. cbv zeta.
  replace ((Z.of_nat (S k) - 1) * Z.of_nat 12)%Z with (Z.of_nat (12 * k)) by lia.
  destruct (Z.ltb_spec (Z.of_nat (12 * k)) 0) as [H|_]; [lia|].
  destruct (Z.ltb_spec (Z.of_nat (12 * k) + Z.of_nat 12) 0) as [H|_]; [lia|].
  destruct (Nat.le_gt_cases (length l) (12 * k)) as [Hlen|Hlen].
  - rewrite (Z.min_r (Z.of_nat (12 * k))) by lia.
    rewrite (Z.min_r (Z.of_nat (12 * k) + Z.of_nat 12)) by lia.
    rewrite Z.sub_diag. change (Z.to_nat 0) with 0. rewrite firstn_O.
    rewrite (skipn_all2 l Hlen). now rewrite firstn_nil.
  - rewrite (Z.min_l (Z.of_nat (12 * k))) by lia. rewrite Nat2Z.id.
    destruct (Nat.le_gt_cases (length l) (12 * k + 12)) as [Hend|Hend].
    + rewrite Z.min_r by lia.
      replace (Z.to_nat (Z.of_nat (length l) - Z.of_nat (12 * k)))
        with (length (skipn (12 * k) l)) by (rewrite length_skipn; lia).
      rewrite firstn_all. symmetry. apply firstn_all2. rewrite length_skipn. lia.
    + rewrite Z.min_l by lia. f_equal. lia.
Qed.

Lemma pages_concat l (k : nat) :
  concat (map (fun p => paginatedImages l (Z.of_nat p)) (seq 1 k)) = firstn (12 * k) l.
Proof.
  induction k as [|k IH]; [reflexivity|].
  rewrite seq_S, map_app, concat_app, IH. cbn [map concat].
  rewrite app_nil_r.
  change (1 + k) with (S k). rewrite page_slice.
  replace (12 * S k) with (12 * k + 12) by lia. symmetry. apply firstn_plus.
Qed.

Lemma totalPages_nat l :
  totalPages l = Z.of_nat ((length l + 11) / 12) /\
  length l <= 12 * ((length l + 11) / 12) /\
  12 * ((length l + 11) / 12) < length l + 12.
Proof.
  unfold totalPages, imagesPerPage. simpl Nat.sub.
  pose proof (Nat.div_mod_eq (length l + 11) 12) as Hdm.
  pose proof (Nat.mod_upper_bound (length l + 11) 12 ltac:(lia)) as Hm.
  repeat split; lia.
Qed.

Lemma pages_facts l :
  concat (map (fun p => paginatedImages l (Z.of_nat p))
              (seq 1 (Z.to_nat (totalPages l)))) = l /\
  (forall p, (1 <= p <= totalPages l)%Z ->
     1 <= length (paginatedImages l p) <= 12) /\
  (forall p, (totalPages l < p)%Z -> paginatedImages l p = []).
Proof.
  destruct (totalPages_nat l) as (Ht & Hlo & Hhi).
  split; [|split].
  - rewrite Ht, Nat2Z.id, pages_concat. apply firstn_all2. exact Hlo.
  - intros p Hp. rewrite Ht in Hp.
    replace p with (Z.of_nat (S (Z.to_nat (p - 1)))) by lia.
    rewrite page_slice, length_firstn, length_skipn.
    set (k := Z.to_nat (p - 1)).
    assert (Hk : S k <= (length l + 11) / 12) by lia.
    assert (12 * S k <= 12 * ((length l + 11) / 12)) by (apply Nat.mul_le_mono_l; exact Hk).
    lia.
  - intros p Hp. rewrite Ht in Hp.
    assert (Hp1 : (1 <= p)%Z) by lia.
    replace p with (Z.of_nat (S (Z.to_nat (p - 1)))) by lia.
    rewrite page_slice.
    set (k := Z.to_nat (p - 1)).
    assert (Hk : (length l + 11) / 12 <= k) by lia.
    assert (12 * ((length l + 11) / 12) <= 12 * k) by (apply Nat.mul_le_mono_l; exact Hk).
    rewrite skipn_all2 by lia. reflexivity.
Qed.

(** X21. The pages 1 to [totalPages] cut the filtered list into
    consecutive pieces: put one after another they give the list back, so
    every image is shown on exactly one page; each of these pages holds
    between 1 and 12 images, and every later page is empty. *)
Theorem X21_pages_partition_the_list l :
  concat (map (fun p => paginatedImages l (Z.of_nat p))
              (seq 1 (Z.to_nat (totalPages l)))) = l /\
  (forall p, (1 <= p <= totalPages l)%Z ->
     1 <= length (paginatedImages l p) <= 12) /\
  (forall p, (totalPages l < p)%Z -> paginatedImages l p = []).
Proof. apply pages_facts. Qed.

Lemma press_range l p b :
  (1 <= p <= Z.max 1 (totalPages l))%Z ->
  (1 <= press l p b <= Z.max 1 (totalPages l))%Z.
Proof.
  intros Hp. destruct b; simpl.
  - unfold previousPage. destruct (Z.ltb_spec 1 p); lia.
  - unfold nextPage. destruct (Z.ltb_spec p (totalPages l)); lia.
Qed.

(** X22. Starting on page 1 and pressing the two page buttons in any
    order, the current page stays between 1 and the number of pages (1 for
    an empty list); so for a non-empty list the page shown is never
    empty. *)
Theorem X22_page_buttons_stay_in_range l (buttons : list PageButton) :
  (1 <= fold_left (press l) buttons 1 <= Z.max 1 (totalPages l))%Z /\
  (l <> [] -> paginatedImages l (fold_left (press l) buttons 1%Z) <> []).
Proof.
  assert (Hgen : forall bs p, (1 <= p <= Z.max 1 (totalPages l))%Z ->
            (1 <= fold_left (press l) bs p <= Z.max 1 (totalPages l))%Z).
  { induction bs as [|b bs IH]; intros p Hp; [exact Hp|].
    simpl. apply IH. now apply press_range. }
  assert (Hr : (1 <= fold_left (press l) buttons 1 <= Z.max 1 (totalPages l))%Z)
    by (apply Hgen; lia).
  split; [exact Hr|]. intros Hne.
  destruct (totalPages_nat l) as (Ht & Hlo & Hhi).
  assert (Hpos : (1 <= totalPages l)%Z).
  { rewrite Ht. destruct l as [|x l']; [contradiction|]. simpl length in *.
    assert (1 <= (S (length l') + 11) / 12); [|lia].
    apply Nat.div_le_lower_bound; lia. }
  destruct (pages_facts l) as (_ & Hpage & _).
  intros E. specialize (Hpage (fold_left (press l) buttons 1%Z)).
  rewrite E in Hpage. simpl in Hpage. lia.
Qed.

End GalleryFacts.

Lemma X21_witness :
  1 <= length (paginatedImages (repeat tt 30) 3) <= 12.
Proof.
  destruct (X21_pages_partition_the_list unit (repeat tt 30)) as (_ & H & _).
  apply H. vm_compute. split; discriminate.
Defined.

(** * The bounding rectangle *)

Lemma qmin_le a b : (qmin a b <= a /\ qmin a b <= b)%Q.
Proof.
  unfold qmin. destruct (Qle_bool a b) eqn:E.
  - apply Qle_bool_iff in E. split; lra.
  - assert (~ (a <= b)%Q) by (intros H; apply Qle_bool_iff in H; congruence).
    split; lra.
Qed.

Lemma qmax_ge a b : (a <= qmax a b /\ b <= qmax a b)%Q.
Proof.
  unfold qmax. destruct (Qle_bool a b) eqn:E.
  - apply Qle_bool_iff in E. split; lra.
  - assert (~ (a <= b)%Q) by (intros H; apply Qle_bool_iff in H; congruence).
    split; lra.
Qed.

Lemma fold_qmin_spec xs : forall x0,
  In (fold_left qmin xs x0) (x0 :: xs) /\
  forall v, In v (x0 :: xs) -> (fold_left qmin xs x0 <= v)%Q.
Proof.
  induction xs as [|x xs IH]; intros x0; simpl.
  - split; [now left|]. intros v [<-|[]]. lra.
  - destruct (IH (qmin x0 x)) as [Hin Hle]. split.
    + destruct Hin as [E|Hin]; [|now right; right].
      rewrite <- E. unfold qmin. destruct (Qle_bool x0 x); auto.
    + intros v Hv. pose proof (qmin_le x0 x) as [H1 H2].
      pose proof (Hle (qmin x0 x) (or_introl eq_refl)) as H0.
      destruct Hv as [<-|[<-|Hv]]; try lra.
      apply Hle. now right.
Qed.

Lemma fold_qmax_spec xs : forall x0,
  In (fold_left qmax xs x0) (x0 :: xs) /\
  forall v, In v (x0 :: xs) -> (v <= fold_left qmax xs x0)%Q.
Proof.
  induction xs as [|x xs IH]; intros x0; simpl.
  - split; [now left|]. intros v [<-|[]]. lra.
  - destruct (IH (qmax x0 x)) as [Hin Hle]. split.
    + destruct Hin as [E|Hin]; [|now right; right].
      rewrite <- E. unfold qmax. destruct (Qle_bool x0 x); auto.
    + intros v Hv. pose proof (qmax_ge x0 x) as [H1 H2].
      pose proof (Hle (qmax x0 x) (or_introl eq_refl)) as H0.
      destruct Hv as [<-|[<-|Hv]]; try lra.
      apply Hle. now right.
Qed.

Lemma Math_round_integer q i : (q == inject_Z i)%Q -> Math_round q = i.
Proof.
  intros E. apply Z.le_antisymm.
  - apply Math_round_le_int. lra.
  - apply Math_round_ge_int. lra.
Qed.

(** One coordinate: the rounded least value and the rounded extent. *)
Lemma extent_spec (x0 : Q) (xs : list Q) :
  let lo := fold_left qmin xs x0 in
  let hi := fold_left qmax xs x0 in
  (0 <= Math_round (hi - lo))%Z /\
  (forall v, In v (x0 :: xs) -> (inject_Z (Math_round lo) <= v + (1 # 2))%Q) /\
  ((forall v, In v (x0 :: xs) -> isInteger v) ->
   forall v, In v (x0 :: xs) ->
     (inject_Z (Math_round lo) <= v /\
      v <= inject_Z (Math_round lo + Math_round (hi - lo)))%Q).
Proof.
  cbv zeta.
  destruct (fold_qmin_spec xs x0) as [Hin_lo Hlo].
  destruct (fold_qmax_spec xs x0) as [Hin_hi Hhi].
  set (lo := fold_left qmin xs x0) in *. set (hi := fold_left qmax xs x0) in *.
  assert (Hlh : (lo <= hi)%Q).
  { pose proof (Hlo x0 (or_introl eq_refl)). pose proof (Hhi x0 (or_introl eq_refl)). lra. }
  split; [|split].
  - apply Math_round_ge_int. change (inject_Z 0) with 0%Q. lra.
  - intros v Hv. pose proof (Hlo v Hv).
    pose proof (Qfloor_le (lo + (1 # 2))) as Hf. unfold Math_round. lra.
  - intros Hint v Hv.
    destruct (Hint lo Hin_lo) as [i Hi]. destruct (Hint hi Hin_hi) as [j Hj].
    rewrite (Math_round_integer lo i Hi).
    assert (Hd : (hi - lo == inject_Z (j - i))%Q).
    { unfold Z.sub. rewrite inject_Z_plus, inject_Z_opp. lra. }
    rewrite (Math_round_integer (hi - lo) (j - i) Hd).
    replace (i + (j - i))%Z with j by lia.
    pose proof (Hlo v Hv). pose proof (Hhi v Hv). split; lra.
Qed.

(** X23. For a non-empty list of corners the bounding rectangle has a
    non-negative width and height, and its corner is at most half a pixel
    to the right of and below every corner given.  When all coordinates
    are integers the rectangle contains every corner. *)
Theorem X23_bounding_rect (corners : list (Q * Q)) (r : Rect.t) :
  calculateBoundingRect corners = Some r ->
  (0 <= Rect.width r)%Z /\ (0 <= Rect.height r)%Z /\
  (forall c, In c corners ->
     (inject_Z (Rect.x r) <= fst c + (1 # 2) /\
      inject_Z (Rect.y r) <= snd c + (1 # 2))%Q) /\
  ((forall c, In c corners -> isInteger (fst c) /\ isInteger (snd c)) ->
   forall c, In c corners ->
     (inject_Z (Rect.x r) <= fst c /\ fst c <= inject_Z (Rect.x r + Rect.width r) /\
      inject_Z (Rect.y r) <= snd c /\ snd c <= inject_Z (Rect.y r + Rect.height r))%Q).
Proof.
  destruct corners as [|[x0 y0] rest]; [discriminate|].
  unfold calculateBoundingRect. intros [= <-]. simpl Rect.x. simpl Rect.y.
  simpl Rect.width. simpl Rect.height.
  destruct (extent_spec x0 (map fst rest)) as (Wx & Cx & Ix).
  destruct (extent_spec y0 (map snd rest)) as (Wy & Cy & Iy).
  assert (Hfst : forall c, In c ((x0, y0) :: rest) -> In (fst c) (x0 :: map fst rest)).
  { intros c [<-|Hc]; [now left|right; now apply in_map]. }
  assert (Hsnd : forall c, In c ((x0, y0) :: rest) -> In (snd c) (y0 :: map snd rest)).
  { intros c [<-|Hc]; [now left|right; now apply in_map]. }
  split; [exact Wx|]. split; [exact Wy|]. split.
  - intros c Hc. split; [apply Cx|apply Cy]; auto.
  - intros Hint c Hc.
    assert (HIx : forall v, In v (x0 :: map fst rest) -> isInteger v).
    { intros v [<-|Hv]; [apply (Hint (x0, y0)); now left|].
      apply in_map_iff in Hv as (c' & <- & Hc'). apply (Hint c'). now right. }
    assert (HIy : forall v, In v (y0 :: map snd rest) -> isInteger v).
    { intros v [<-|Hv]; [apply (Hint (x0, y0)); now left|].
      apply in_map_iff in Hv as (c' & <- & Hc'). apply (Hint c'). now right. }
    destruct (Ix HIx (fst c) (Hfst c Hc)) as [A1 A2].
    destruct (Iy HIy (snd c) (Hsnd c Hc)) as [B1 B2].
    repeat split; assumption.
Qed.

Lemma X23_witness :
  (0 <= 64)%Z /\ (0 <= 35)%Z /\
  (forall c, In c [(18, 40); (80, 35); (82, 65); (20, 70)]%Q ->
     (inject_Z 18 <= fst c + (1 # 2) /\ inject_Z 35 <= snd c + (1 # 2))%Q) /\
  ((forall c, In c [(18, 40); (80, 35); (82, 65); (20, 70)]%Q ->
      isInteger (fst c) /\ isInteger (snd c)) ->
   forall c, In c [(18, 40); (80, 35); (82, 65); (20, 70)]%Q ->
     (inject_Z 18 <= fst c /\ fst c <= inject_Z (18 + 64) /\
      inject_Z 35 <= snd c /\ snd c <= inject_Z (35 + 35))%Q).
Proof.
  apply (X23_bounding_rect [(18, 40); (80, 35); (82, 65); (20, 70)]%Q
           {| Rect.x := 18; Rect.y := 35; Rect.width := 64; Rect.height := 35 |}).
  vm_compute. reflexivity.
Defined.

(** * The image list *)

Lemma ascii_compare_N a b :
  Ascii.compare a b = N.compare (N_of_ascii a) (N_of_ascii b).
Proof. reflexivity. Qed.

Lemma string_leb_trans a : forall b c,
  String.leb a b = true -> String.leb b c = true -> String.leb a c = true.
Proof.
  unfold String.leb.
  induction a as [|x a IH]; intros [|y b] [|z c]; simpl; try congruence.
  rewrite !ascii_compare_N.
  destruct (N.compare_spec (N_of_ascii x) (N_of_ascii y)) as [Exy|Lxy|Gxy];
  destruct (N.compare_spec (N_of_ascii y) (N_of_ascii z)) as [Eyz|Lyz|Gyz];
  destruct (N.compare_spec (N_of_ascii x) (N_of_ascii z)) as [Exz|Lxz|Gxz];
  try congruence; try lia.
  apply IH.
Qed.

Lemma string_ltb_leb a b : String.ltb a b = true -> String.leb a b = true.
Proof. unfold String.ltb, String.leb. destruct (String.compare a b); congruence. Qed.

Lemma string_not_ltb_leb a b : String.ltb a b = false -> String.leb b a = true.
Proof.
  unfold String.ltb, String.leb. rewrite (String.compare_antisym b a).
  destruct (String.compare a b); simpl; congruence.
Qed.

Lemma sort_strings_sorted l :
  StronglySorted (fun a b => String.leb a b = true) (sortBy String.ltb l).
Proof.
  apply sortBy_sorted.
  - intros x y _ _. apply string_ltb_leb.
  - intros x y _ _. apply string_not_ltb_leb.
  - intros x y z _ _ _. apply string_leb_trans.
Qed.

(** X24. The gallery lists exactly the files whose name ends in ".jpg",
    ".jpeg" or ".png" (as written, in lower case), each as often as the
    directory holds it, in ascending order of their names; [total] is
    their number; and every URL is "/api/image/" followed by the encoded
    name. *)
Theorem X24_image_list (encodeURIComponent : string -> string) (files : list string) :
  exists r, listImages encodeURIComponent (Some files) = Some r /\
    Gallery.success r = true /\
    Permutation (map Gallery.name (Gallery.images r)) (filter isImageFile files) /\
    StronglySorted (fun a b => String.leb a b = true)
                   (map Gallery.name (Gallery.images r)) /\
    Gallery.total r = length (filter isImageFile files) /\
    Forall (fun i => Gallery.url i
                     = ("/api/image/" ++ encodeURIComponent (Gallery.name i))%string)
           (Gallery.images r).
Proof.
  eexists. split; [reflexivity|]. simpl.
  rewrite map_map. simpl. rewrite map_id, length_map.
  split; [reflexivity|]. split; [apply sortBy_perm|].
  split; [apply sort_strings_sorted|]. split.
  - apply Permutation_length, sortBy_perm.
  - apply Forall_forall. intros i Hi. apply in_map_iff in Hi as (f & <- & _).
    reflexivity.
Qed.

(** * Instances *)

Lemma X5_witness :
  exists o, In o [obs "NCM-27-04" 85 enfocada] /\
    validateMexicanPlate (Some (text o)) = Some (str "NCM-27-04") /\
    confidence (detectPlateWithOCR [obs "NCM-27-04" 85 enfocada])
    = (ocrConfidence o / 100)%Q /\
    processingMethod (detectPlateWithOCR [obs "NCM-27-04" 85 enfocada])
    = Some (variantName o).
Proof.
  apply (proj2 (X5_candidates_come_from_observations [obs "NCM-27-04" 85 enfocada])).
  vm_compute. reflexivity.
Defined.

Lemma X8_witness :
  exists best,
    In best [ {| Coco.class := "dog"; Coco.score := 95 # 100; Coco.bbox := [] |};
              {| Coco.class := "car"; Coco.score := 9 # 10; Coco.bbox := [1; 2; 3; 4]%Q |} ] /\
    isVehicle best = true /\
    Vehicle.bbox (detectVehicle (Some
      [ {| Coco.class := "dog"; Coco.score := 95 # 100; Coco.bbox := [] |};
        {| Coco.class := "car"; Coco.score := 9 # 10; Coco.bbox := [1; 2; 3; 4]%Q |} ]))
    = Some (Coco.bbox best) /\
    Vehicle.confidence (detectVehicle (Some
      [ {| Coco.class := "dog"; Coco.score := 95 # 100; Coco.bbox := [] |};
        {| Coco.class := "car"; Coco.score := 9 # 10; Coco.bbox := [1; 2; 3; 4]%Q |} ]))
    = Coco.score best /\
    Vehicle.vehicleType (detectVehicle (Some
      [ {| Coco.class := "dog"; Coco.score := 95 # 100; Coco.bbox := [] |};
        {| Coco.class := "car"; Coco.score := 9 # 10; Coco.bbox := [1; 2; 3; 4]%Q |} ]))
    = Some (Coco.class best) /\
    In (Coco.class best) vehicleClasses /\
    (15 # 100 < Coco.score best)%Q /\
    forall p,
      In p [ {| Coco.class := "dog"; Coco.score := 95 # 100; Coco.bbox := [] |};
             {| Coco.class := "car"; Coco.score := 9 # 10; Coco.bbox := [1; 2; 3; 4]%Q |} ] ->
      isVehicle p = true -> (Coco.score p <= Coco.score best)%Q.
Proof.
  apply (proj2 (proj2 (X8_best_vehicle _))). vm_compute. reflexivity.
Defined.

Lemma X22_witness :
  paginatedImages (repeat tt 30)
    (fold_left (press (repeat tt 30)) [Next; Next; Next; Previous] 1%Z) <> [].
Proof.
  apply (proj2 (X22_page_buttons_stay_in_range unit (repeat tt 30)
                  [Next; Next; Next; Previous])).
  vm_compute. discriminate.
Defined.
